(** * StockSync: the reconciliation engine of [sync_logic.py]

    A shallow embedding of the stock synchronisation logic (physical stock of
    the shop against the Shopify export) and the properties of its
    specification.

    Conventions of the embedding.
    - Text is [list ascii], one [ascii] per code point, so the model covers
      Python strings over the code points 0..255.  The character classes and
      the case mappings are Python's on that range, apart from the upper-case
      images of U+00B5 and U+00FF, which lie outside it and are left as they
      are.
    - A Python exception is a value of [exn]; a function that can raise
      returns a [result].
    - A Python [float] is a binary64 number in the Z-based representation
      [spec_float] of the standard library; [float(s)] rounds the decimal
      numeral to the nearest binary64, ties to even.
    - A [DataFrame] is the list of its rows, in index order (the index is the
      range 0..n-1 that [pandas.read_csv] and [pd.DataFrame(records)] build);
      frames are held in a store, as Python objects are, and [df.copy()]
      allocates.  A row is a record of the cells that the module reads or
      writes: the frames have these columns, so that [row.get(col, default)]
      is the cell.
    - [parse_physical_stock] is modelled from the decoded text of the file
      on; [_decode] and the reading of the file are not.
    - [generate_new_products] takes the Shopify frame as the list of its
      column names and the list of its rows, and the text [str(x)] of a
      [float] as a parameter; the frame that it returns is given by its
      column names and the cells of its rows. *)

From Stdlib Require Import ZArith List Ascii String Bool Lia.
From Stdlib Require Import Floats.SpecFloat.
From stdpp Require Import gmap strings list sorting.

Local Open Scope Z_scope.
Local Open Scope list_scope.

(* ================================================================== *)
(** ** Text *)

Abbreviation str := (list ascii).

(** A string literal. *)
Definition T (s : string) : str := list_ascii_of_string s.

Definition code (c : ascii) : N := N_of_ascii c.

Definition between (lo hi : N) (c : ascii) : bool :=
  (N.leb lo (code c) && N.leb (code c) hi)%bool.

(** [str.isspace], which is also the class [\s] of [re] on [str] patterns
    and the set that [str.strip()] removes. *)
Definition is_space (c : ascii) : bool :=
  (between 9 13 c || between 28 32 c
   || N.eqb (code c) 133 || N.eqb (code c) 160)%bool.

(** The class [\d] of [re]: the decimal digits (category Nd). *)
Definition is_digit (c : ascii) : bool := between 48 57 c.

(** [c.isdigit()]: the decimal digits and the superscripts 1, 2, 3. *)
Definition py_isdigit (c : ascii) : bool :=
  (is_digit c || N.eqb (code c) 178 || N.eqb (code c) 179
   || N.eqb (code c) 185)%bool.

(** The class [[A-Z]]. *)
Definition is_AZ (c : ascii) : bool := between 65 90 c.

Definition shift_code (d : Z) (c : ascii) : ascii :=
  ascii_of_N (Z.to_N (Z.of_N (code c) + d)).

Definition lower_char (c : ascii) : ascii :=
  if (is_AZ c || (between 192 222 c && negb (N.eqb (code c) 215)))%bool
  then shift_code 32 c else c.

Definition upper_char (c : ascii) : str :=
  if (between 97 122 c || (between 224 254 c && negb (N.eqb (code c) 247)))%bool
  then [shift_code (-32) c]
  else if N.eqb (code c) 223 then T "SS" else [c].

(** [s.lower()] and [s.upper()]. *)
Definition lower (s : str) : str := map lower_char s.
Definition upper (s : str) : str := flat_map upper_char s.

Fixpoint lstrip_by (p : ascii -> bool) (s : str) : str :=
  match s with
  | c :: s' => if p c then lstrip_by p s' else s
  | [] => []
  end.

Definition rstrip_by (p : ascii -> bool) (s : str) : str :=
  rev (lstrip_by p (rev s)).

Definition strip_by (p : ascii -> bool) (s : str) : str :=
  rstrip_by p (lstrip_by p s).

(** [s.strip()]. *)
Definition strip (s : str) : str := strip_by is_space s.

Definition str_eqb (a b : str) : bool := bool_decide (a = b).

Definition is_quote (c : ascii) : bool := N.eqb (code c) 34.

(** [s.strip(q)] for the double quote [q]. *)
Definition strip_quotes (s : str) : str := strip_by is_quote s.

(** [s.startswith(p)]. *)
Fixpoint startswith (p s : str) : bool :=
  match p, s with
  | [], _ => true
  | a :: p', b :: s' => if bool_decide (a = b) then startswith p' s' else false
  | _ :: _, [] => false
  end.

(** [sub in s]. *)
Fixpoint contains (sub s : str) : bool :=
  if startswith sub s then true
  else match s with
       | _ :: s' => contains sub s'
       | [] => false
       end.

(** [s.split(sep)] for a non-empty [sep]: the occurrences of [sep] are found
    from the left and do not overlap; [skip] counts the characters of an
    occurrence still to be passed over. *)
Fixpoint split_go (sep : str) (skip : nat) (s : str) : list str :=
  match s with
  | [] => [[]]
  | c :: s' =>
      match skip with
      | S k => split_go sep k s'
      | O =>
          if startswith sep s
          then [] :: split_go sep (Nat.pred (length sep)) s'
          else match split_go sep 0 s' with
               | p :: ps => (c :: p) :: ps
               | [] => [[c]]
               end
      end
  end.

Definition split (sep s : str) : list str := split_go sep 0 s.

(** [s.replace(old, new)] for a non-empty [old]. *)
Fixpoint replace_go (old new : str) (skip : nat) (s : str) : str :=
  match s with
  | [] => []
  | c :: s' =>
      match skip with
      | S k => replace_go old new k s'
      | O =>
          if startswith old s
          then new ++ replace_go old new (Nat.pred (length old)) s'
          else c :: replace_go old new 0 s'
      end
  end.

Definition replace (old new s : str) : str := replace_go old new 0 s.

(** [s[:n]] and [s[n:]] for [n >= 0]. *)
Definition slice_to (n : nat) (s : str) : str := take n s.
Definition slice_from (n : nat) (s : str) : str := drop n s.

(** The order of [sorted] on strings: lexicographic on code points. *)
Definition str_le (a b : str) : Prop :=
  String.le (string_of_list_ascii a) (string_of_list_ascii b).

(** [sorted(l)] on a list of strings. *)
Definition py_sorted (l : list str) : list str := merge_sort str_le l.

(** [x.unique()]: the distinct values, each at its first occurrence. *)
Fixpoint unique (l : list str) : list str :=
  match l with
  | [] => []
  | x :: l' => x :: filter (fun y => y <> x) (unique l')
  end.

(* ================================================================== *)
(** ** Exceptions *)

Inductive exn := ValueError | OverflowError.

Inductive result (A : Type) :=
  | Ok (a : A)
  | Raise (e : exn).
Arguments Ok {A} a.
Arguments Raise {A} e.

Global Instance result_bind : MBind result := fun A B f r =>
  match r with
  | Ok a => f a
  | Raise e => Raise e
  end.

(** [try: r  except (ValueError, TypeError): d]; any other exception
    propagates. *)
Definition except_ValueError {A} (r : result A) (d : A) : result A :=
  match r with
  | Raise ValueError => Ok d
  | _ => r
  end.

(* ================================================================== *)
(** ** Numbers *)

Definition digit_val (c : ascii) : Z := Z.of_N (code c) - 48.

Definition digit_char (d : Z) : ascii := ascii_of_N (Z.to_N (48 + d)).

(** The decimal digits of a positive number, most significant first;
    [fuel] bounds the number of digits. *)
Fixpoint digits_of (fuel : nat) (n : Z) (acc : str) : str :=
  match fuel with
  | O => acc
  | S f =>
      if n <? 10 then digit_char n :: acc
      else digits_of f (n / 10) (digit_char (n mod 10) :: acc)
  end.

(** [str(n)] for an [int]. *)
Definition str_of_Z (n : Z) : str :=
  if n <? 0 then "-"%char :: digits_of (Z.to_nat (Z.log2 (- n)) + 1) (- n) []
  else digits_of (Z.to_nat (Z.log2 n) + 1) n [].

Definition str_of_nat (n : nat) : str := str_of_Z (Z.of_nat n).

(** The value of a run of decimal digits. *)
Definition Z_of_digits (ds : str) : Z :=
  fold_left (fun acc c => 10 * acc + digit_val c) ds 0.

(** [digitpart ::= digit (["_"] digit)*]: the digits of the longest
    digitpart that [s] starts with, and what follows it. *)
Fixpoint take_digitpart (s : str) : str * str :=
  match s with
  | c :: s' =>
      if is_digit c then
        match s' with
        | u :: ((d :: _) as s'') =>
            if (N.eqb (code u) 95 && is_digit d)%bool
            then let '(ds, r) := take_digitpart s'' in (c :: ds, r)
            else let '(ds, r) := take_digitpart s' in (c :: ds, r)
        | _ => let '(ds, r) := take_digitpart s' in (c :: ds, r)
        end
      else ([], s)
  | [] => ([], [])
  end.

Definition binary64 (neg : bool) (m e : Z) : spec_float :=
  binary_normalize 53 1024 (if neg then - m else m) e neg.

(** The binary64 nearest to [m * 10^e], for [m >= 0]. *)
Definition float_of_decimal (neg : bool) (m e : Z) : spec_float :=
  match m with
  | Z.pos p =>
      if 0 <=? e then binary64 neg (m * 10 ^ e) 0
      else SFdiv 53 1024 (S754_finite neg p 0)
                         (S754_finite false (Z.to_pos (10 ^ (- e))) 0)
  | _ => S754_zero neg
  end.

(** [exponent ::= ("e" | "E") ["+" | "-"] digitpart], to the end of the
    text; no exponent is the exponent 0. *)
Definition parse_exponent (s : str) : option Z :=
  match s with
  | [] => Some 0
  | c :: s1 =>
      if (N.eqb (code c) 101 || N.eqb (code c) 69)%bool then
        let '(neg, s2) :=
          match s1 with
          | sg :: s2 =>
              if N.eqb (code sg) 43 then (false, s2)
              else if N.eqb (code sg) 45 then (true, s2)
              else (false, s1)
          | [] => (false, s1)
          end in
        match take_digitpart s2 with
        | (d :: ds, []) =>
            Some (if neg then - Z_of_digits (d :: ds) else Z_of_digits (d :: ds))
        | _ => None
        end
      else None
  end.

(** [floatnumber ::= ([digitpart] "." digitpart | digitpart ["."]) [exponent]]. *)
Definition parse_floatnumber (neg : bool) (s : str) : option spec_float :=
  let '(ip, s1) := take_digitpart s in
  let '(fp, s2, dot) :=
    match s1 with
    | c :: s1' =>
        if N.eqb (code c) 46
        then let '(fp, s2) := take_digitpart s1' in (fp, s2, true)
        else ([], s1, false)
    | [] => ([], s1, false)
    end in
  match ip, fp with
  | [], [] => None
  | _, _ =>
      match parse_exponent s2 with
      | Some ex =>
          Some (float_of_decimal neg (Z_of_digits (ip ++ fp))
                                 (ex - Z.of_nat (length fp)))
      | None => None
      end
  end.

(** The white space that [float] ignores around a number: the ASCII white
    space, and the white space beyond ASCII, which it reads as a space.
    The separators 28 to 31, which [str.strip()] removes, are not part of
    it. *)
Definition is_float_space (c : ascii) : bool :=
  (between 9 13 c || N.eqb (code c) 32
   || N.eqb (code c) 133 || N.eqb (code c) 160)%bool.

(** [float(s)] on a string: the white space of [float] around the number
    is ignored, then [[sign] (floatnumber | "inf" | "infinity" | "nan")],
    the words in any casing. *)
Definition py_float (s : str) : result spec_float :=
  let s0 := strip_by is_float_space s in
  let '(neg, body) :=
    match s0 with
    | sg :: s1 =>
        if N.eqb (code sg) 43 then (false, s1)
        else if N.eqb (code sg) 45 then (true, s1)
        else (false, s0)
    | [] => (false, s0)
    end in
  let w := lower body in
  if (str_eqb w (T "inf") || str_eqb w (T "infinity"))%bool
  then Ok (S754_infinity neg)
  else if str_eqb w (T "nan") then Ok S754_nan
  else match parse_floatnumber neg body with
       | Some f => Ok f
       | None => Raise ValueError
       end.

(** [int(x)] on a [float]: truncation towards zero; not a number is a
    [ValueError] and an infinity an [OverflowError]. *)
Definition py_int (x : spec_float) : result Z :=
  match x with
  | S754_zero _ => Ok 0
  | S754_finite neg m e =>
      let a := if 0 <=? e then Z.pos m * 2 ^ e else Z.pos m / 2 ^ (- e) in
      Ok (if neg then - a else a)
  | S754_infinity _ => Raise OverflowError
  | S754_nan => Raise ValueError
  end.

(** [int(float(s.replace(",", ".")))]. *)
Definition int_of_decimal_text (s : str) : result Z :=
  x ← py_float (replace (T ",") (T ".") s); py_int x.

(** [x > 0] on a [float]. *)
Definition float_is_neg (x : spec_float) : bool :=
  match x with
  | S754_finite true _ _ | S754_infinity true => true
  | _ => false
  end.

(* ================================================================== *)
(** ** Regular expressions

    The fragment of [re] that the two patterns of the module use: single
    characters, character classes, greedy repetitions of a class, the end
    anchor and one capture group.  [match_here] is the backtracking matcher
    of [re]: a greedy repetition takes the longest run first and gives
    characters back one at a time. *)

Inductive rx :=
  | RChr (c : ascii)                    (* the character c *)
  | RCls (p : ascii -> bool)            (* one character of a class *)
  | RRep (p : ascii -> bool) (min : nat) (* class{min,}, greedy *)
  | REnd                                (* $ *)
  | ROpen                               (* ( of group 1 *)
  | RClose.                             (* ) of group 1 *)

(** The offsets at which group 1 starts and ends. *)
Definition span : Type := nat * nat.

Fixpoint rep (p : ascii -> bool) (k : str -> nat -> span -> option span)
    (min : nat) (s : str) (pos : nat) (g : span) : option span :=
  match s with
  | c :: s' =>
      if p c then
        match rep p k (Nat.pred min) s' (S pos) g with
        | Some r => Some r
        | None => if Nat.eqb min 0 then k s pos g else None
        end
      else if Nat.eqb min 0 then k s pos g else None
  | [] => if Nat.eqb min 0 then k s pos g else None
  end.

Fixpoint match_here (pat : list rx) : str -> nat -> span -> option span :=
  match pat with
  | [] => fun _ _ g => Some g
  | RChr c :: pat' => fun s pos g =>
      match s with
      | a :: s' => if bool_decide (a = c) then match_here pat' s' (S pos) g else None
      | [] => None
      end
  | RCls p :: pat' => fun s pos g =>
      match s with
      | a :: s' => if p a then match_here pat' s' (S pos) g else None
      | [] => None
      end
  | RRep p min :: pat' => fun s pos g => rep p (match_here pat') min s pos g
  | REnd :: pat' => fun s pos g =>
      (* the end of the text, or the line feed that ends it *)
      match s with
      | [] => match_here pat' s pos g
      | [a] => if N.eqb (code a) 10 then match_here pat' s pos g else None
      | _ => None
      end
  | ROpen :: pat' => fun s pos g => match_here pat' s pos (pos, snd g)
  | RClose :: pat' => fun s pos g => match_here pat' s pos (fst g, pos)
  end.

(** [pattern.search(s)]: the match at the leftmost position that has one,
    as (m.start(), span of group 1). *)
Fixpoint search_from (pat : list rx) (s : str) (pos : nat) : option (nat * span) :=
  match match_here pat s pos (0%nat, 0%nat) with
  | Some g => Some (pos, g)
  | None =>
      match s with
      | _ :: s' => search_from pat s' (S pos)
      | [] => None
      end
  end.

Definition re_search (pat : list rx) (s : str) : option (nat * span) :=
  search_from pat s 0.

(** [m.group(1)]. *)
Definition group1 (s : str) (g : span) : str :=
  take (snd g - fst g) (drop (fst g) s).

(* ================================================================== *)
(** ** Part 1: the physical stock *)

(** One record of the physical stock.  [Name_no_sku], [Norm_name] and
    [Product_ID] are the columns that [detect_carry_over] adds. *)
Record PhysRow := {
  Article : str;
  Code_barre : str;
  Nom_catalogue : str;
  Taille : str;
  Qte : Z;
  Prix_achat : spec_float;
  Prix_vente : spec_float;
  Name_no_sku : option str;
  Norm_name : option str;
  Product_ID : option str
}.

Definition _ONE_SIZE_VARIANTS : list str :=
  [T "one size"; T "one-size"; T "onesize"; T "os"; T "o/s";
   T "taille unique"; T "unique"; T "u"; T "tu"; T "ns"; T "no size"].

Definition _normalize_size (size : str) : str :=
  if bool_decide (strip (lower size) ∈ _ONE_SIZE_VARIANTS)
  then T "Taille unique" else size.

(** The classes of the store pattern. *)
Definition is_AZ_or_space (c : ascii) : bool := (is_AZ c || is_space c)%bool.
Definition is_digit_or_us (c : ascii) : bool :=
  (is_digit c || N.eqb (code c) 95)%bool.

(** [([A-Z][A-Z\s]+[A-Z]);[\d_]+;[\d]+-[\d]+] *)
Definition _STORE_PATTERN : list rx :=
  [ROpen; RCls is_AZ; RRep is_AZ_or_space 1; RCls is_AZ; RClose;
   RChr ";"; RRep is_digit_or_us 1; RChr ";";
   RRep is_digit 1; RChr "-"; RRep is_digit 1].

Definition _detect_store (content : str) : option str :=
  match re_search _STORE_PATTERN content with
  | Some (_, g) => Some (strip (group1 content g))
  | None =>
      if contains (T "STREET ART;") content then Some (T "STREET ART") else None
  end.

(** [fields[i]]; the callers have checked the length. *)
Definition field (fields : list str) (i : nat) : str := nth i fields [].

(** The body of the loop of [parse_physical_stock] on one chunk: [Ok None]
    is [continue], [Ok (Some r)] appends [r]. *)
Definition parse_chunk (part : str) : result (option PhysRow) :=
  let fields := split (T ";") part in
  if (length fields <? 10)%nat then Ok None else
  let article := strip (field fields 0) in
  let code_barre := strip (field fields 1) in
  let nom := strip (strip_quotes (strip (field fields 2))) in
  let taille := _normalize_size (strip (strip_quotes (strip (field fields 3)))) in
  let qte_raw := strip (field fields 4) in
  let pa_raw := if (7 <? length fields)%nat then strip (field fields 7) else [] in
  let pv_raw := if (9 <? length fields)%nat then strip (field fields 9) else [] in
  if (str_eqb code_barre [] || str_eqb (upper code_barre) (T "TOTAL")
      || str_eqb article [] || str_eqb nom [])%bool
  then Ok None else
  if contains (T ";") (slice_to 3 article) then Ok None else
  qte ← except_ValueError (int_of_decimal_text qte_raw) 0;
  prix_achat ← except_ValueError (py_float (replace (T ",") (T ".") pa_raw))
                                 (S754_zero false);
  prix_vente ← except_ValueError (py_float (replace (T ",") (T ".") pv_raw))
                                 (S754_zero false);
  Ok (Some {| Article := article; Code_barre := code_barre;
              Nom_catalogue := nom; Taille := taille; Qte := qte;
              Prix_achat := prix_achat; Prix_vente := prix_vente;
              Name_no_sku := None; Norm_name := None; Product_ID := None |}).

Fixpoint parse_chunks (parts : list str) (records : list PhysRow)
  : result (list PhysRow) :=
  match parts with
  | [] => Ok records
  | part :: parts' =>
      r ← parse_chunk part;
      parse_chunks parts' (match r with
                           | Some rec => records ++ [rec]
                           | None => records
                           end)
  end.

Definition CR : ascii := "013"%char.
Definition LF : ascii := "010"%char.

(** [parse_physical_stock] from the decoded text of the file; the two
    [ValueError]s are the missing store marker and the empty record list. *)
Definition parse_physical_stock (decoded : str) : result (list PhysRow) :=
  let content := replace [CR] [LF] (replace [CR; LF] [LF] decoded) in
  match _detect_store content with
  | None | Some [] => Raise ValueError
  | Some store_marker =>
      records ← parse_chunks (tail (split (store_marker ++ T ";") content)) [];
      match records with
      | [] => Raise ValueError
      | _ => Ok records
      end
  end.

(* ================================================================== *)
(** ** Part 2: the components of the catalogue name *)

(** The class [[A-Z0-9]] and the class [[A-Z0-9.\-]]. *)
Definition is_sku_head (c : ascii) : bool := (is_AZ c || is_digit c)%bool.
Definition is_sku_char (c : ascii) : bool :=
  (is_AZ c || is_digit c || N.eqb (code c) 46 || N.eqb (code c) 45)%bool.

(** [\s+([A-Z0-9][A-Z0-9.\-]{3,})$] *)
Definition _SKU_PATTERN : list rx :=
  [RRep is_space 1; ROpen; RCls is_sku_head; RRep is_sku_char 3; RClose; REnd].

Definition _SIZES : list str :=
  [T "XS"; T "S"; T "M"; T "L"; T "XL"; T "XXL"; T "XXXL"; T "SIZE"; T "TAILLE"].

Definition extract_sku_and_title (catalog_name : str) : str * option str :=
  let name := strip catalog_name in
  match re_search _SKU_PATTERN name with
  | Some (start, g) =>
      let candidate := group1 name g in
      if (existsb py_isdigit candidate
          && negb (bool_decide (upper candidate ∈ _SIZES))
          && (4 <=? length candidate)%nat)%bool
      then (strip (slice_to start name), Some candidate)
      else (name, None)
  | None => (name, None)
  end.

Definition E_ACUTE : ascii := "233"%char.

Definition KNOWN_BRANDS_RAW : list str :=
  [T "New Balance Numeric"; T "The Loose Company"; T "Deus Ex Machina";
   T "Bonjour Urethane"; T "Bronson Speed Co"; T "Thrasher Seasonal";
   T "The North Face"; T "The Quiet Life"; T "Converse Skate";
   T "Loreak Mendian"; T "Poetic Collective"; T "Miles Griptape";
   T "Beton Cire"; T "Bronze 56K"; T "Cash Only"; T "Film Trucks";
   T "Anti Hero"; T "Carhartt WIP"; T "DC Shoes"; T "Last Resort Ab";
   T "New Balance"; T "Dial Tone"; T "Haze Wheels"; T "Shake Junt";
   T "Tiger Claw"; T "Toy Machine"; T "Santa Cruz"; T "Jason Markk";
   T "Butter Goods"; T "Pull-In"; T "Hotel Blue"; T "Stance Socks";
   T "No Name"; T "On Running"; T "Quasi"; T "Rave";
   T "Ace"; T "Adidas"; T "Analog"; T "Anon"; T "April"; T "Arcade";
   T "Armistice"; T "Birkenstock"; T "Blind"; T "Bones";
   T "Broski"; T "Butter"; T "Carhartt"; T "Clarks"; T "Cliche"; T "Coal";
   T "Commune"; T "Converse"; T "Creature"; T "Deus"; T "DGK"; T "Dime";
   T "Eastpak"; T "Element"; T "Estime"; T "Fjallraven"; T "Gramicci";
   "H"%char :: E_ACUTE :: T "las"; T "Helas"; T "Herschel"; T "Hockey";
   T "Huf"; T "Independent";
   T "Isle"; T "Jessup"; T "Komono"; T "Krooked"; T "Limosine"; T "Magenta";
   T "Mini Logo"; T "Neff"; T "Nike Sb"; T "Nixon"; T "Obey"; T "Palace";
   T "Patagonia"; T "Passport"; T "Pizza"; T "Polar"; T "Powell";
   T "Pusher"; T "Puma"; T "Rains"; T "Reebok"; T "Ripcare"; T "Ripndip";
   T "Rvca"; T "Schmoove"; T "Sour"; T "Spitfire"; T "Stance";
   T "Street Art"; T "Streetart"; T "Studio"; T "Stussy"; T "Thrasher";
   T "Tired"; T "Veja"; T "Vans"; T "Venture"; T "Volcom"; T "Welcome";
   T "Wknd"; T "Yardsale"; T "Zero"; T "Antiz"].

(** A [dict] with string keys, as the list of its items in insertion
    order. *)
Definition pydict (V : Type) : Type := list (str * V).

(** [d[k] = v]: the value of an existing key is replaced where the key
    stands, a new key goes to the end. *)
Fixpoint dict_set {V} (d : pydict V) (k : str) (v : V) : pydict V :=
  match d with
  | [] => [(k, v)]
  | (k', v') :: d' =>
      if bool_decide (k' = k) then (k, v) :: d' else (k', v') :: dict_set d' k v
  end.

(** [d.get(k)]. *)
Fixpoint dict_get {V} (d : pydict V) (k : str) : option V :=
  match d with
  | [] => None
  | (k', v') :: d' => if bool_decide (k' = k) then Some v' else dict_get d' k
  end.

(** [sorted(items, key=lambda x: len(x[0]), reverse=True)]: a stable sort,
    so items with keys of one length keep their order. *)
Fixpoint insert_by_len {V} (x : str * V) (l : list (str * V)) : list (str * V) :=
  match l with
  | [] => [x]
  | y :: l' =>
      if (length (fst y) <=? length (fst x))%nat then x :: l
      else y :: insert_by_len x l'
  end.

Definition sort_by_len_desc {V} (l : list (str * V)) : list (str * V) :=
  foldr insert_by_len [] l.

Definition KNOWN_BRANDS : pydict str :=
  sort_by_len_desc
    (fold_left (fun d b => dict_set d (upper b) b) KNOWN_BRANDS_RAW []).

(** One line of the Shopify export: the cells of the columns that the
    module reads or writes, and those of the remaining columns in column
    order.  Every cell is text ([parse_shopify] reads with [dtype=str] and
    [keep_default_na=False]). *)
Record ShopRow := {
  Title : str;
  Vendor : str;
  Barcode : str;
  Quantity : str;
  others : list str
}.

Definition A_GRAVE : ascii := "192"%char.

(** The loop of [build_vendor_list] over the stripped, distinct vendors. *)
Definition merge_vendor (merged : pydict str) (v : str) : pydict str :=
  let key := upper v in
  if (negb (str_eqb (strip v) [])
      && negb (startswith [A_GRAVE] v)
      && negb (bool_decide (lower v ∈ [T "a corriger"; []])))%bool
  then dict_set merged key v
  else merged.

Definition build_vendor_list (shopify_df : list ShopRow) : pydict str :=
  let merged := KNOWN_BRANDS in
  let vendors := unique (map (fun r => strip (Vendor r)) shopify_df) in
  sort_by_len_desc (fold_left merge_vendor vendors merged).

(** [c] is cased: it has an upper-case or a lower-case form. *)
Definition is_cased (c : ascii) : bool :=
  (is_AZ c || between 97 122 c
   || N.eqb (code c) 170 || N.eqb (code c) 181 || N.eqb (code c) 186
   || (between 192 255 c && negb (N.eqb (code c) 215)
       && negb (N.eqb (code c) 247)))%bool.

(** The title-case form of a character: its upper-case form, apart from
    the sharp s. *)
Definition title_char (c : ascii) : str :=
  if N.eqb (code c) 223 then T "Ss" else upper_char c.

(** [s.title()]: a character that follows a cased character is put in
    lower case, any other in title case. *)
Fixpoint title_go (previous_is_cased : bool) (s : str) : str :=
  match s with
  | [] => []
  | c :: s' =>
      (if previous_is_cased then [lower_char c] else title_char c)
        ++ title_go (is_cased c) s'
  end.

Definition title (s : str) : str := title_go false s.

(** [s.split(sep, 1)] for a non-empty [sep]: the text is cut at the first
    occurrence of [sep]. *)
Fixpoint split_once (sep s : str) : list str :=
  if startswith sep s then [[]; slice_from (length sep) s]
  else match s with
       | [] => [[]]
       | c :: s' =>
           match split_once sep s' with
           | p :: ps => (c :: p) :: ps
           | [] => [[c]]
           end
       end.

(** The loop of [extract_vendor_and_name] over the items of the vendor
    map, in their order. *)
Fixpoint first_vendor (t : str) (items : pydict str) : option (str * str) :=
  match items with
  | [] => None
  | (vendor_up, vendor_orig) :: items' =>
      if (startswith (vendor_up ++ T " ") t || str_eqb t vendor_up)%bool
      then let remaining := strip (slice_from (length vendor_up) t) in
           Some (vendor_orig, title remaining)
      else first_vendor t items'
  end.

Definition extract_vendor_and_name (title_upper : str) (vendor_map : pydict str)
  : str * str :=
  let t := upper title_upper in
  match first_vendor t vendor_map with
  | Some r => r
  | None =>
      match split_once (T " ") t with
      | [p0; p1] => (title p0, title p1)
      | _ => (title t, [])
      end
  end.

(* ================================================================== *)
(** ** Part 4: carry over *)

(** The base letter of an accented letter: what is left of its canonical
    decomposition (NFD) once the combining marks (category Mn) are
    removed. *)
Definition strip_accent (c : ascii) : ascii :=
  let pick (tbl : list (N * N * string)) :=
    match filter (fun e => (N.leb (fst (fst e)) (code c)
                            && N.leb (code c) (snd (fst e)))%bool) tbl with
    | (_, String b _) :: _ => b
    | _ => c
    end in
  pick [(192, 197, "A"); (199, 199, "C"); (200, 203, "E"); (204, 207, "I");
        (209, 209, "N"); (210, 214, "O"); (217, 220, "U"); (221, 221, "Y");
        (224, 229, "a"); (231, 231, "c"); (232, 235, "e"); (236, 239, "i");
        (241, 241, "n"); (242, 246, "o"); (249, 252, "u"); (253, 253, "y");
        (255, 255, "y")]%N.

(** The class of the first substitution of [normalize_name]: the double and
    the single quote. *)
Definition is_any_quote (c : ascii) : bool :=
  (N.eqb (code c) 34 || N.eqb (code c) 39)%bool.

(** [re.sub(r"\s+", " ", s)]; [in_run] says that the previous character was
    white space. *)
Fixpoint collapse_spaces (in_run : bool) (s : str) : str :=
  match s with
  | [] => []
  | c :: s' =>
      if is_space c
      then if in_run then collapse_spaces true s'
           else " "%char :: collapse_spaces true s'
      else c :: collapse_spaces false s'
  end.

Definition normalize_name (name : str) : str :=
  let name := map strip_accent name in
  let name := filter (fun c => negb (is_any_quote c)) (lower name) in
  strip (collapse_spaces false name).

Definition get_product_id (barcode : str) : str :=
  match split (T "-") barcode with
  | p :: _ => p
  | [] => barcode
  end.

(** The carry-over map, keyed by (normalised name, product id). *)
Abbreviation comap := (gmap (str * str) str).

Definition enrich (r : PhysRow) : PhysRow :=
  let name_no_sku := fst (extract_sku_and_title (Nom_catalogue r)) in
  {| Article := Article r; Code_barre := Code_barre r;
     Nom_catalogue := Nom_catalogue r; Taille := Taille r; Qte := Qte r;
     Prix_achat := Prix_achat r; Prix_vente := Prix_vente r;
     Name_no_sku := Some name_no_sku;
     Norm_name := Some (normalize_name name_no_sku);
     Product_ID := Some (get_product_id (Code_barre r)) |}.

Definition norm_of (r : PhysRow) : str := default [] (Norm_name r).
Definition pid_of (r : PhysRow) : str := default [] (Product_ID r).

(** [df.groupby("Norm_name")["Product_ID"].apply(lambda x:
    sorted(x.unique().tolist()))]: one item per distinct name, in the order
    of the names. *)
Definition group_pids (df : list PhysRow) (n : str) : list str :=
  py_sorted (unique (map pid_of (filter (fun r => norm_of r = n) df))).

Definition name_pids (df : list PhysRow) : list (str * list str) :=
  map (fun n => (n, group_pids df n)) (py_sorted (unique (map norm_of df))).

(** [for i, pid in enumerate(pids): carry_over_map[(norm_name, pid)] =
    f"S{i + 1}"], from the index [i]. *)
Fixpoint label_pids (norm_name : str) (i : nat) (pids : list str) (m : comap)
  : comap :=
  match pids with
  | [] => m
  | pid :: pids' =>
      label_pids norm_name (S i) pids'
        (<[(norm_name, pid) := "S"%char :: str_of_nat (i + 1)]> m)
  end.

Definition carry_over_step (m : comap) (g : str * list str) : comap :=
  if (1 <? length (snd g))%nat then label_pids (fst g) 0 (snd g) m else m.

Definition detect_carry_over (df : list PhysRow) : list PhysRow * comap :=
  let df := map enrich df in
  (df, fold_left carry_over_step (name_pids df) ∅).

(* ================================================================== *)
(** ** Part 5: synchronisation *)

Record QtyChange := {
  qc_Code_barre : str; qc_Titre : str;
  qc_Ancienne_Qte : str; qc_Nouvelle_Qte : str
}.

Record ZeroEntry := {
  z_Code_barre : str; z_Titre : str; z_Ancienne_Qte : str
}.

Record CarryOverUpdate := {
  co_Code_barre : str; co_Ancien_titre : str; co_Nouveau_titre : str
}.

Record NewProduct := {
  np_Code_barre : str; np_Nom : str; np_Taille : str; np_Qte : Z;
  np_Prix_achat : spec_float; np_Prix_vente : spec_float
}.

Record Stats := {
  total_physical : nat;
  total_shopify : nat;
  matched : nat;
  qty_changes : list QtyChange;
  set_to_zero : list ZeroEntry;
  not_in_shopify : list NewProduct;
  carry_over_updates : list CarryOverUpdate
}.

(** The store: the frames that exist, by identity. *)
Inductive frame :=
  | PhysFrame (rows : list PhysRow)
  | ShopFrame (rows : list ShopRow).

Abbreviation store := (gmap nat frame).

Definition shop_rows (σ : store) (df : nat) : list ShopRow :=
  match σ !! df with
  | Some (ShopFrame rows) => rows
  | _ => []
  end.

Definition phys_rows (σ : store) (df : nat) : list PhysRow :=
  match σ !! df with
  | Some (PhysFrame rows) => rows
  | _ => []
  end.

(** [df.copy()]: a new frame with the same rows. *)
Definition df_copy (df : nat) (σ : store) : nat * store :=
  let new := fresh (dom σ) in
  (new, match σ !! df with
        | Some f => <[new := f]> σ
        | None => σ
        end).

Definition set_Quantity (v : str) (r : ShopRow) : ShopRow :=
  {| Title := Title r; Vendor := Vendor r; Barcode := Barcode r;
     Quantity := v; others := others r |}.

Definition set_Title (v : str) (r : ShopRow) : ShopRow :=
  {| Title := v; Vendor := Vendor r; Barcode := Barcode r;
     Quantity := Quantity r; others := others r |}.

(** [df.at[idx, col] = v], the column given by its setter. *)
Definition at_set (df : nat) (idx : nat) (set : ShopRow -> ShopRow) (σ : store)
  : store :=
  match σ !! df with
  | Some (ShopFrame rows) => <[df := ShopFrame (alter set idx rows)]> σ
  | _ => σ
  end.

(** [df.at[idx, COL_TITLE]] and [df.at[idx, COL_BARCODE]]. *)
Definition at_Title (rows : list ShopRow) (idx : nat) : str :=
  match rows !! idx with Some r => Title r | None => [] end.
Definition at_Barcode (rows : list ShopRow) (idx : nat) : str :=
  match rows !! idx with Some r => Barcode r | None => [] end.

(** [range(start, stop, -1)]. *)
Definition range_down (start stop : Z) : list Z :=
  map (fun k => start - Z.of_nat k) (seq 0 (Z.to_nat (start - stop))).

Fixpoint first_title (rows : list ShopRow) (idxs : list Z) : option str :=
  match idxs with
  | [] => None
  | i :: idxs' =>
      let t := strip (at_Title rows (Z.to_nat i)) in
      if bool_decide (t <> []) then Some t else first_title rows idxs'
  end.

Definition _get_title (rows : list ShopRow) (idx : nat) : str :=
  let t := strip (at_Title rows idx) in
  if bool_decide (t <> []) then t
  else match first_title rows
               (range_down (Z.of_nat idx - 1) (Z.max (Z.of_nat idx - 20) (-1))) with
       | Some t => t
       | None => T "(barcode: " ++ at_Barcode rows idx ++ T ")"
       end.

(** [{row["Code_barre"]: row for _, row in physical_df.iterrows()}]. *)
Definition phys_index_of (physical : list PhysRow) : gmap str PhysRow :=
  fold_left (fun m r => <[Code_barre r := r]> m) physical ∅.

(** The variables of the loop of [sync_stocks]; [heap] is the store, in
    which the frame [updated] is written. *)
Record Loop := {
  heap : store;
  matched_l : list str;
  qty_changes_l : list QtyChange;
  set_to_zero_l : list ZeroEntry;
  carry_over_upd : list CarryOverUpdate
}.

Definition with_heap (σ : store) (st : Loop) : Loop :=
  {| heap := σ; matched_l := matched_l st; qty_changes_l := qty_changes_l st;
     set_to_zero_l := set_to_zero_l st; carry_over_upd := carry_over_upd st |}.

(** The carry-over renaming of a matched row. *)
Definition rename_carry_over (carry_over_map : comap) (updated idx : nat)
    (row : ShopRow) (barcode : str) (phys : PhysRow) (st : Loop) : Loop :=
  let norm :=
    default (normalize_name (default (Nom_catalogue phys) (Name_no_sku phys)))
            (Norm_name phys) in
  let pid := default (get_product_id barcode) (Product_ID phys) in
  match carry_over_map !! (norm, pid) with
  | Some season =>
      let cur_title := strip (Title row) in
      if (bool_decide (cur_title <> [])
          && negb (contains (T "- " ++ season) cur_title))%bool
      then
        let new_title := cur_title ++ T " - " ++ season in
        {| heap := at_set updated idx (set_Title new_title) (heap st);
           matched_l := matched_l st;
           qty_changes_l := qty_changes_l st;
           set_to_zero_l := set_to_zero_l st;
           carry_over_upd := carry_over_upd st ++
             [{| co_Code_barre := barcode; co_Ancien_titre := cur_title;
                 co_Nouveau_titre := new_title |}] |}
      else st
  | None => st
  end.

(** The body of [for idx, row in updated.iterrows()]. *)
Definition sync_row (phys_index : gmap str PhysRow) (carry_over_map : comap)
    (updated : nat) (st : Loop) (it : nat * ShopRow) : Loop :=
  let '(idx, row) := it in
  let barcode := strip (Barcode row) in
  if bool_decide (barcode = []) then st else
  match phys_index !! barcode with
  | Some phys =>
      let old_qty := strip (Quantity row) in
      let new_qty := str_of_Z (Qte phys) in
      let changes :=
        if bool_decide (old_qty <> new_qty)
        then [{| qc_Code_barre := barcode;
                 qc_Titre := _get_title (shop_rows (heap st) updated) idx;
                 qc_Ancienne_Qte := old_qty; qc_Nouvelle_Qte := new_qty |}]
        else [] in
      rename_carry_over carry_over_map updated idx row barcode phys
        {| heap := at_set updated idx (set_Quantity new_qty) (heap st);
           matched_l := matched_l st ++ [barcode];
           qty_changes_l := qty_changes_l st ++ changes;
           set_to_zero_l := set_to_zero_l st;
           carry_over_upd := carry_over_upd st |}
  | None =>
      let old_qty := strip (Quantity row) in
      if bool_decide (old_qty ∈ [T "0"; []]) then st else
      let σ := at_set updated idx (set_Quantity (T "0")) (heap st) in
      {| heap := σ;
         matched_l := matched_l st;
         qty_changes_l := qty_changes_l st;
         set_to_zero_l := set_to_zero_l st ++
           [{| z_Code_barre := barcode;
               z_Titre := _get_title (shop_rows σ updated) idx;
               z_Ancienne_Qte := old_qty |}];
         carry_over_upd := carry_over_upd st |}
  end.

(** [df.iterrows()]: the rows with their index. *)
Definition iterrows {A} (rows : list A) : list (nat * A) :=
  zip (seq 0 (length rows)) rows.

(** The physical products that Shopify does not have. *)
Definition new_product (row : PhysRow) : NewProduct :=
  {| np_Code_barre := Code_barre row; np_Nom := Nom_catalogue row;
     np_Taille := Taille row; np_Qte := Qte row;
     np_Prix_achat := Prix_achat row; np_Prix_vente := Prix_vente row |}.

Definition not_in_shop_step (shopify_bc : gset str) (acc : list NewProduct)
    (row : PhysRow) : list NewProduct :=
  let bc := Code_barre row in
  if (bool_decide (bc <> []) && bool_decide (bc ∉ shopify_bc))%bool
  then acc ++ [new_product row] else acc.

(** The loop of [sync_stocks], from the store in which [updated] is the
    copy. *)
Definition sync_loop (physical : list PhysRow) (carry_over_map : comap)
    (updated : nat) (σ : store) : Loop :=
  fold_left (sync_row (phys_index_of physical) carry_over_map updated)
            (iterrows (shop_rows σ updated))
            {| heap := σ; matched_l := []; qty_changes_l := [];
               set_to_zero_l := []; carry_over_upd := [] |}.

(** [sync_stocks(physical_df, shopify_df, carry_over_map)]: the arguments
    are the identities of the two frames; the result is the identity of
    the updated frame, the statistics and the store after the call. *)
Definition sync_stocks (physical_df shopify_df : nat) (carry_over_map : comap)
    (σ : store) : nat * Stats * store :=
  let physical := phys_rows σ physical_df in
  let '(updated, σ1) := df_copy shopify_df σ in
  let st := sync_loop physical carry_over_map updated σ1 in
  let shopify_bc : gset str :=
    list_to_set (map (fun r => strip (Barcode r)) (shop_rows (heap st) shopify_df)) in
  let not_in_shop := fold_left (not_in_shop_step shopify_bc) physical [] in
  (updated,
   {| total_physical := length physical;
      total_shopify := length (shop_rows (heap st) shopify_df);
      matched := length (matched_l st);
      qty_changes := qty_changes_l st;
      set_to_zero := set_to_zero_l st;
      not_in_shopify := not_in_shop;
      carry_over_updates := carry_over_upd st |},
   heap st).

(* ================================================================== *)
(** ** Part 6: the new products *)

(** The class [[a-z0-9]]. *)
Definition is_az09 (c : ascii) : bool := (between 97 122 c || is_digit c)%bool.

Definition is_hyphen (c : ascii) : bool := N.eqb (code c) 45.

(** [re.sub(cls+, repl, s)] for a character class [cls]: each longest run
    of the class is replaced by [repl]; [in_run] says that the previous
    character was of the class. *)
Fixpoint re_sub_runs (cls : ascii -> bool) (repl : str) (in_run : bool) (s : str)
  : str :=
  match s with
  | [] => []
  | c :: s' =>
      if cls c
      then if in_run then re_sub_runs cls repl true s'
           else repl ++ re_sub_runs cls repl true s'
      else c :: re_sub_runs cls repl false s'
  end.

Definition generate_handle (title : str) : str :=
  let h := lower title in
  let h := map strip_accent h in
  let h := re_sub_runs (fun c => negb (is_az09 c)) (T "-") false h in
  strip_by is_hyphen (re_sub_runs is_hyphen (T "-") false h).

(** The columns of the Shopify export that the module names. *)
Definition COL_TITLE : str := T "Title".
Definition COL_VENDOR : str := T "Vendor".
Definition COL_BARCODE : str := T "Variant Barcode".
Definition COL_QTY : str := T "Variant Quantity".
Definition COL_SKU : str := T "Variant SKU".
Definition COL_PRICE : str := T "Variant Price".
Definition COL_COST : str := T "Cost per item".
Definition COL_STATUS : str := T "Status".
Definition COL_PUBLISHED : str := T "Published".
Definition COL_INV_TRACK : str := T "Variant Inventory Tracker".
Definition COL_INV_POL : str := T "Variant Inventory Policy".
Definition COL_FULFILL : str := T "Variant Fulfillment Service".
Definition COL_OPT1_NAME : str := T "Option1 Name".
Definition COL_OPT1_VAL : str := T "Option1 Value".

(** An item of [parsed]: the new product with what is extracted from its
    name. *)
Record Parsed := {
  item : NewProduct;
  _clean_name : str;
  _sku : str;
  _vendor : str;
  _product_title : str;
  _handle : str
}.

(** A frame built by [pd.DataFrame(rows, columns=columns)]: the column
    names, and for each row its cells in the order of the columns. *)
Record DataFrame := {
  df_columns : list str;
  df_cells : list (list str)
}.

(** [by_product[key].append(item)] on a [defaultdict(list)], as the list of
    its items in insertion order. *)
Fixpoint by_product_append (by_product : list (str * str * list Parsed))
    (key : str * str) (it : Parsed) : list (str * str * list Parsed) :=
  match by_product with
  | [] => [(key, [it])]
  | (k, variants) :: rest =>
      if bool_decide (k = key) then (k, variants ++ [it]) :: rest
      else (k, variants) :: by_product_append rest key it
  end.

Section NewProducts.
(** [str(x)] for a [float]: the module copies this text into the cells
    of the two price columns and does nothing else with it. *)
Variable str_of_float : spec_float -> str.

(** Step 1, on one item. *)
Definition parse_item (vendor_list : pydict str) (it : NewProduct) : Parsed :=
  let '(clean_name, sku) := extract_sku_and_title (np_Nom it) in
  let '(vendor, product_title) := extract_vendor_and_name clean_name vendor_list in
  let full_title := strip (vendor ++ T " " ++ product_title) in
  {| item := it; _clean_name := clean_name; _sku := default [] sku;
     _vendor := vendor; _product_title := full_title;
     _handle := generate_handle full_title |}.

(** Step 3, on the variant [i] of a product whose first variant is
    [ref]. *)
Definition variant_row (columns : list str) (ref : Parsed) (i : nat)
    (variant : Parsed) : pydict str :=
  let row := fold_left (fun row col => dict_set row col []) columns [] in
  let row :=
    if Nat.eqb i 0 then
      let row := dict_set row COL_TITLE (_product_title ref) in
      let row := dict_set row COL_VENDOR (_vendor ref) in
      let row := dict_set row COL_STATUS (T "draft") in
      let row := dict_set row COL_PUBLISHED (T "FALSE") in
      dict_set row COL_OPT1_NAME (T "Taille")
    else dict_set row COL_TITLE (_product_title ref) in
  let row := dict_set row COL_OPT1_VAL (np_Taille (item variant)) in
  let row := dict_set row COL_SKU (_sku variant) in
  let row := dict_set row COL_BARCODE (np_Code_barre (item variant)) in
  let row := dict_set row COL_QTY (str_of_Z (np_Qte (item variant))) in
  let row := dict_set row COL_COST (str_of_float (np_Prix_achat (item variant))) in
  let row := dict_set row COL_PRICE (str_of_float (np_Prix_vente (item variant))) in
  let row := dict_set row COL_INV_TRACK (T "shopify") in
  let row := dict_set row COL_INV_POL (T "deny") in
  dict_set row COL_FULFILL (T "manual").

(** The rows of one product: [for i, variant in enumerate(variants)]. *)
Definition product_rows (columns : list str) (variants : list Parsed)
  : list (pydict str) :=
  match variants with
  | [] => []
  | ref :: _ => imap (variant_row columns ref) variants
  end.

(** The cells of a row for the columns of the frame; a key of the row
    that is not a column is dropped. *)
Definition row_cells (columns : list str) (row : pydict str) : list str :=
  map (fun col => default [] (dict_get row col)) columns.

(** [generate_new_products(not_in_shopify, shopify_df)], the frame given
    by its column names and its rows. *)
Definition generate_new_products (not_in_shopify : list NewProduct)
    (shopify_columns : list str) (shopify_df : list ShopRow) : DataFrame :=
  match not_in_shopify with
  | [] => {| df_columns := []; df_cells := [] |}
  | _ =>
      let columns := shopify_columns in
      let vendor_list := build_vendor_list shopify_df in
      let parsed := map (parse_item vendor_list) not_in_shopify in
      let by_product :=
        fold_left (fun d it => by_product_append d (_handle it, _sku it) it)
                  parsed [] in
      let columns :=
        if bool_decide (COL_COST ∈ columns) then columns
        else columns ++ [COL_COST] in
      let rows := flat_map (fun kv => product_rows columns (snd kv)) by_product in
      {| df_columns := columns; df_cells := map (row_cells columns) rows |}
  end.
End NewProducts.

(* ================================================================== *)
(** ** Part 7: the zero-stock filter *)

(** [to_int] of [filter_zero_stock_products]. *)
Definition to_int (val : str) : result Z :=
  except_ValueError (int_of_decimal_text val) 0.

(** The first pass, on one row. *)
Definition has_stock_step (title_has_stock : gmap str bool) (row : ShopRow)
  : result (gmap str bool) :=
  let title := strip (Title row) in
  if bool_decide (title = []) then Ok title_has_stock else
  let d := match title_has_stock !! title with
           | None => <[title := false]> title_has_stock
           | Some _ => title_has_stock
           end in
  n ← to_int (Quantity row);
  Ok (if 0 <? n then <[title := true]> d else d).

Fixpoint has_stock_pass (rows : list ShopRow) (d : gmap str bool)
  : result (gmap str bool) :=
  match rows with
  | [] => Ok d
  | row :: rows' => d' ← has_stock_step d row; has_stock_pass rows' d'
  end.

Definition filter_zero_stock_products (df : list ShopRow) : result (list ShopRow) :=
  match df with
  | [] => Ok df
  | _ =>
      title_has_stock ← has_stock_pass df ∅;
      Ok (filter (fun r => default true (title_has_stock !! strip (Title r)) = true) df)
  end.

(* ================================================================== *)
(** ** The loop of [sync_stocks], row by row

    What one iteration does to its row and to each list, as functions of
    the row; the theorems below show that the loop is their sum. *)

Section RowByRow.
Variable phys_index : gmap str PhysRow.
Variable carry_over_map : comap.

(** The title of a matched row after the carry-over renaming. *)
Definition title_after (row : ShopRow) (barcode : str) (phys : PhysRow)
  : option (str * str) :=
  let norm :=
    default (normalize_name (default (Nom_catalogue phys) (Name_no_sku phys)))
            (Norm_name phys) in
  let pid := default (get_product_id barcode) (Product_ID phys) in
  match carry_over_map !! (norm, pid) with
  | Some season =>
      let cur_title := strip (Title row) in
      if (bool_decide (cur_title <> [])
          && negb (contains (T "- " ++ season) cur_title))%bool
      then Some (cur_title, cur_title ++ T " - " ++ season)
      else None
  | None => None
  end.

(** The row as the loop leaves it. *)
Definition row_after (row : ShopRow) : ShopRow :=
  let barcode := strip (Barcode row) in
  if bool_decide (barcode = []) then row else
  match phys_index !! barcode with
  | Some phys =>
      let row1 := set_Quantity (str_of_Z (Qte phys)) row in
      match title_after row barcode phys with
      | Some (_, new_title) => set_Title new_title row1
      | None => row1
      end
  | None =>
      if bool_decide (strip (Quantity row) ∈ [T "0"; []]) then row
      else set_Quantity (T "0") row
  end.

(** What the iteration on [row], at index [idx] of the table [rows],
    appends to each list. *)
Definition matched_of (row : ShopRow) : list str :=
  let barcode := strip (Barcode row) in
  if bool_decide (barcode = []) then [] else
  match phys_index !! barcode with
  | Some _ => [barcode]
  | None => []
  end.

Definition qty_change_of (rows : list ShopRow) (idx : nat) (row : ShopRow)
  : list QtyChange :=
  let barcode := strip (Barcode row) in
  if bool_decide (barcode = []) then [] else
  match phys_index !! barcode with
  | Some phys =>
      if bool_decide (strip (Quantity row) <> str_of_Z (Qte phys))
      then [{| qc_Code_barre := barcode;
               qc_Titre := _get_title rows idx;
               qc_Ancienne_Qte := strip (Quantity row);
               qc_Nouvelle_Qte := str_of_Z (Qte phys) |}]
      else []
  | None => []
  end.

Definition zero_of (rows : list ShopRow) (idx : nat) (row : ShopRow)
  : list ZeroEntry :=
  let barcode := strip (Barcode row) in
  if bool_decide (barcode = []) then [] else
  match phys_index !! barcode with
  | Some _ => []
  | None =>
      if bool_decide (strip (Quantity row) ∈ [T "0"; []]) then []
      else [{| z_Code_barre := barcode;
               z_Titre := _get_title rows idx;
               z_Ancienne_Qte := strip (Quantity row) |}]
  end.

Definition carry_over_of (row : ShopRow) : list CarryOverUpdate :=
  let barcode := strip (Barcode row) in
  if bool_decide (barcode = []) then [] else
  match phys_index !! barcode with
  | Some phys =>
      match title_after row barcode phys with
      | Some (cur_title, new_title) =>
          [{| co_Code_barre := barcode; co_Ancien_titre := cur_title;
              co_Nouveau_titre := new_title |}]
      | None => []
      end
  | None => []
  end.

(** The table when the loop reaches the rows [todo], the rows [seen]
    behind it. *)
Definition table_at (seen todo : list ShopRow) : list ShopRow :=
  map row_after seen ++ todo.

Fixpoint qty_changes_from (seen todo : list ShopRow) : list QtyChange :=
  match todo with
  | [] => []
  | row :: todo' =>
      qty_change_of (table_at seen todo) (length seen) row
        ++ qty_changes_from (seen ++ [row]) todo'
  end.

Fixpoint set_to_zero_from (seen todo : list ShopRow) : list ZeroEntry :=
  match todo with
  | [] => []
  | row :: todo' =>
      zero_of (table_at seen todo) (length seen) row
        ++ set_to_zero_from (seen ++ [row]) todo'
  end.
End RowByRow.

(** The claim of the specification on the resolved title, in its words:
    the nearest title that is not blank, walking upward through all the
    rows before [idx]. *)
Fixpoint nearest_title_above (rows : list ShopRow) (idx : nat) : option str :=
  match idx with
  | O => None
  | S i =>
      if bool_decide (strip (at_Title rows i) <> [])
      then Some (strip (at_Title rows i))
      else nearest_title_above rows i
  end.

(** What [_get_title] resolves for a row with a blank title: [t] is the
    title of the nearest of the 19 rows above [idx] that has one, or the
    bar code in brackets when none has. *)
Definition resolved_title (rows : list ShopRow) (idx : nat) (t : str) : Prop :=
  (exists j, (idx - 19 <= j < idx)%nat /\ t = strip (at_Title rows j) /\ t <> []
             /\ forall j', (j < j' < idx)%nat -> strip (at_Title rows j') = [])
  \/ ((forall j, (idx - 19 <= j < idx)%nat -> strip (at_Title rows j) = [])
      /\ t = T "(barcode: " ++ at_Barcode rows idx ++ T ")").

(** The rows that the loop lists, and the physical records that become new
    products. *)
Definition is_matched (physical : list PhysRow) (row : ShopRow) : Prop :=
  strip (Barcode row) <> [] /\ strip (Barcode row) ∈ map Code_barre physical.

Definition is_zeroed (physical : list PhysRow) (row : ShopRow) : Prop :=
  strip (Barcode row) <> []
  /\ (strip (Barcode row) ∉ map Code_barre physical)
  /\ (strip (Quantity row) ∉ [T "0"; []]).

Definition is_new (rows : list ShopRow) (rec : PhysRow) : Prop :=
  Code_barre rec <> []
  /\ (Code_barre rec ∉ map (fun row => strip (Barcode row)) rows).

Global Instance is_matched_dec physical row : Decision (is_matched physical row).
Proof. unfold is_matched. apply _. Defined.

Global Instance is_zeroed_dec physical row : Decision (is_zeroed physical row).
Proof. unfold is_zeroed. apply _. Defined.

Global Instance is_new_dec rows rec : Decision (is_new rows rec).
Proof. unfold is_new. apply _. Defined.

(* ================================================================== *)
(** ** The trailing token, in the words of the specification *)

(** A text as (what comes before its last token, the last token): the last
    token is the longest suffix without white space. *)
Fixpoint split_last_token (s : str) : str * str :=
  match s with
  | [] => ([], [])
  | c :: s' =>
      let '(before, tok) := split_last_token s' in
      if (is_space c || negb (bool_decide (before = [])))%bool
      then (c :: before, tok)
      else ([], c :: tok)
  end.

(** The token of the specification: at least 4 characters, upper-case
    letters, digits, dots and hyphens only, a digit among them, and not a
    size. *)
Definition spec_sku_token (tok : str) : bool :=
  ((4 <=? length tok)%nat && forallb is_sku_char tok
   && existsb is_digit tok && negb (bool_decide (upper tok ∈ _SIZES)))%bool.

(** The token that the pattern takes: it moreover starts with an upper-case
    letter or a digit. *)
Definition is_sku_token (tok : str) : bool :=
  (match tok with c :: _ => is_sku_head c | [] => false end
   && spec_sku_token tok)%bool.

(** The trailing token is split off when it follows white space and [ok]
    accepts it. *)
Definition extract_by_last_token (ok : str -> bool) (catalog_name : str)
  : str * option str :=
  let name := strip catalog_name in
  let '(before, tok) := split_last_token name in
  if (negb (bool_decide (before = [])) && ok tok)%bool
  then (strip before, Some tok)
  else (name, None).

(** What the pattern requires of the token: a first character of
    [[A-Z0-9]] and at least 3 more of [[A-Z0-9.\-]]. *)
Definition sku_shape (tok : str) : bool :=
  match tok with
  | a :: t => (is_sku_head a && forallb is_sku_char t && (3 <=? length t)%nat)%bool
  | [] => false
  end.

(** A text that is empty or ends with a character of the class [p]. *)
Definition ends_with (p : ascii -> bool) (s : str) : Prop :=
  s = [] \/ exists s' c, s = s' ++ [c] /\ p c = true.

(* ================================================================== *)
(** ** Sample data *)

Definition phys_row (article code_barre nom taille : string) (qte : Z)
    (prix_achat prix_vente : spec_float) : PhysRow :=
  {| Article := T article; Code_barre := T code_barre; Nom_catalogue := T nom;
     Taille := T taille; Qte := qte;
     Prix_achat := prix_achat; Prix_vente := prix_vente;
     Name_no_sku := None; Norm_name := None; Product_ID := None |}.

Definition shop_row (title vendor barcode quantity : string) : ShopRow :=
  {| Title := T title; Vendor := T vendor; Barcode := T barcode;
     Quantity := T quantity; others := [T "active"] |}.

(** A physical dump: two articles, the second with a quoted name, a size
    to normalise, a quantity that is not a number and an empty purchase
    price, and the line of the totals. *)
Definition QUOTE : ascii := "034"%char.

Definition sample_dump : str :=
  T "STREET ART;1001;65368-2;VESTE NOIRE I029375.931.XX;M;3;x;x;12,5;x;25.0;x"
  ++ [CR] ++
  T "STREET ART;1002;75368-2;" ++ [QUOTE] ++ T "VESTE NOIRE I029375.932.XX"
  ++ [QUOTE] ++ T ";one size;abc;x;x;;x;1e2;x" ++ [CR] ++
  T "STREET ART;1003;TOTAL;SOMME;;7;x;x;1;x;2;x" ++ [CR].

(** An article with a negative quantity and negative prices. *)
Definition negative_dump : str :=
  T "STREET ART;1001;65368-2;VESTE NOIRE;M;-3;x;x;-12,5;x;-25.0;x".

(** An article with an infinite quantity. *)
Definition infinite_dump : str :=
  T "STREET ART;1001;65368-2;VESTE NOIRE;M;inf;x;x;12,5;x;25.0;x".

Definition sample_physical : list PhysRow :=
  [phys_row "A1" "65368-2" "VESTE NOIRE I029375.931.XX" "M" 3
            (S754_zero false) (S754_zero false);
   phys_row "A2" "75368-2" "VESTE NOIRE I029375.932.XX" "M" 4
            (S754_zero false) (S754_zero false);
   phys_row "A3" "1-1" "SOLO AB12" "L" 1 (S754_zero false) (S754_zero false)].

Definition sample_export : list ShopRow :=
  [shop_row "Veste" "Carhartt" "65368-2" "1";
   shop_row "" "" "75368-2" "4";
   shop_row "Other" "Vans" "9-9" "5";
   shop_row "" "" "8-8" "0";
   shop_row "" "" "" "7"].

Definition sample_store : store :=
  <[1%nat := ShopFrame sample_export]>
    (<[0%nat := PhysFrame (fst (detect_carry_over sample_physical))]> ∅).

Definition sample_carry_over : comap := snd (detect_carry_over sample_physical).

(** An export in which the title of a group stands 20 rows above one of its
    variants. *)
Definition long_export : list ShopRow :=
  [shop_row "Veste" "Carhartt" "" "1"]
  ++ replicate 19 (shop_row "" "" "" "1")
  ++ [shop_row "" "" "65368-2" "1"].

Definition long_store : store :=
  <[1%nat := ShopFrame long_export]> (<[0%nat := PhysFrame sample_physical]> ∅).

(* ================================================================== *)
(** ** The vendors that override *)

(** The guard of the loop of [build_vendor_list]. *)
Definition vendor_accepted (v : str) : bool :=
  (negb (str_eqb (strip v) [])
   && negb (startswith [A_GRAVE] v)
   && negb (bool_decide (lower v ∈ [T "a corriger"; []])))%bool.

(** The vendor of the export that ends up under [key]: the last accepted
    one, in the order of the export, whose upper-case form is [key]. *)
Definition overriding (vendors : list str) (key : str) : option str :=
  last (filter (fun v => vendor_accepted v = true /\ upper v = key) vendors).

(** The order of the result: keys of non-increasing length. *)
Definition longer_key (x y : str * str) : Prop :=
  (length (fst y) <= length (fst x))%nat.

(** The placeholder of the export in lower case. *)
Definition a_corriger_lower : str := "224"%char :: T " corriger".

(* ================================================================== *)
(** ** Auxiliary notions of the proofs *)

(** A text that is empty or starts with a character outside the class
    [p]: what follows a longest run of [p]. *)
Definition starts_outside (p : ascii -> bool) (r : str) : Prop :=
  match r with
  | c :: _ => p c = false
  | [] => True
  end.

(** What of the SKU pattern follows the characters of the token. *)
Definition sku_tail : list rx := [RClose; REnd].

(** What of the SKU pattern follows the white space. *)
Definition sku_body : list rx :=
  [ROpen; RCls is_sku_head; RRep is_sku_char 3; RClose; REnd].

(** A text that does not end with white space. *)
Definition no_trailing_space (name : str) : Prop :=
  forall n' c, name = n' ++ [c] -> is_space c = false.

(** The label of the id at index [i] of its group. *)
Definition season_label (i : nat) : str := "S"%char :: str_of_nat (i + 1).

(** What the guards of the loop leave through. *)
Definition well_keyed (r : PhysRow) : Prop :=
  Article r <> [] /\ Nom_catalogue r <> [] /\ Code_barre r <> []
  /\ upper (Code_barre r) <> T "TOTAL".

(** A dictionary whose keys are the upper-case forms of their values. *)
Definition upper_keyed (d : pydict str) : Prop :=
  Forall (fun kv => fst kv = upper (snd kv)) d.

(** What of the store pattern follows the group: it sets no group. *)
Definition store_tail : list rx :=
  [RChr ";"; RRep is_digit_or_us 1; RChr ";"; RRep is_digit 1; RChr "-";
   RRep is_digit 1].

(** A row with stock: its quantity converts to an integer above 0. *)
Definition has_stock (row : ShopRow) : bool :=
  match to_int (Quantity row) with
  | Ok n => 0 <? n
  | Raise _ => false
  end.

(** A title with stock: one of the rows of the group has stock. *)
Definition group_has_stock (df : list ShopRow) (title : str) : bool :=
  existsb (fun r => (bool_decide (strip (Title r) = title) && has_stock r)%bool) df.

(** The rows that the filter keeps: those without title and those of a
    group with stock. *)
Definition kept (df : list ShopRow) (row : ShopRow) : Prop :=
  strip (Title row) = [] \/ group_has_stock df (strip (Title row)) = true.

Global Instance kept_dec df row : Decision (kept df row).
Proof. unfold kept. apply _. Defined.

(** A row whose quantity the filter can convert: it has no title, or
    [to_int] returns. *)
Definition quantity_reads (row : ShopRow) : Prop :=
  strip (Title row) <> [] -> exists n, to_int (Quantity row) = Ok n.

(** The groups of the specification: three variants with the quantities 0,
    0 and 3, three with 0, one with a quantity that is not a number, and a
    row without title. *)
Definition stock_groups : list ShopRow :=
  [shop_row "Veste" "Carhartt" "1-1" "0"; shop_row "Veste" "" "1-2" "0";
   shop_row "Veste" "" "1-3" "3";
   shop_row "Deck" "Polar" "2-1" "0"; shop_row "Deck" "" "2-2" "0";
   shop_row "Deck" "" "2-3" "0,0";
   shop_row "Cap" "Vans" "3-1" "abc";
   shop_row "" "" "4-1" "0"].

(** The chunks that [parse_physical_stock] reads: what follows each store
    marker. *)
Definition chunks_of (decoded : str) : list str :=
  let content := replace [CR] [LF] (replace [CR; LF] [LF] decoded) in
  match _detect_store content with
  | Some store_marker => tail (split (store_marker ++ T ";") content)
  | None => []
  end.

(** The quantity field of a chunk, as [float] receives it. *)
Definition quantity_text (part : str) : str :=
  replace (T ",") (T ".") (strip (field (split (T ";") part) 4)).

(** The physical record that [phys_index] holds for a bar code: the last
    record of the frame with it. *)
Definition last_record (physical : list PhysRow) (barcode : str) : option PhysRow :=
  last (filter (fun r => Code_barre r = barcode) physical).

(** The label that [sync_stocks] appends to the title of a row: that of
    the carry-over map for the physical record of its bar code, when the
    row has a title and the title does not contain it yet. *)
Definition season_of (physical : list PhysRow) (carry_over_map : comap)
    (row : ShopRow) : option str :=
  let barcode := strip (Barcode row) in
  if bool_decide (barcode = []) then None else
  phys ← last_record physical barcode;
  let norm :=
    default (normalize_name (default (Nom_catalogue phys) (Name_no_sku phys)))
            (Norm_name phys) in
  let pid := default (get_product_id barcode) (Product_ID phys) in
  season ← carry_over_map !! (norm, pid);
  if (bool_decide (strip (Title row) <> [])
      && negb (contains (T "- " ++ season) (strip (Title row))))%bool
  then Some season else None.

(** A carry-over map whose labels are trimmed and not empty, as those of
    [detect_carry_over] are. *)
Definition labelled (carry_over_map : comap) : Prop :=
  map_Forall (fun _ season => season <> [] /\ strip season = season) carry_over_map.

Global Instance labelled_dec carry_over_map : Decision (labelled carry_over_map).
Proof. unfold labelled. apply map_Forall_dec. intros k season. apply _. Defined.

(** A row on which [to_int] overflows: it has a title, and [float] reads
    its quantity as an infinity. *)
Definition reads_infinite (row : ShopRow) : Prop :=
  strip (Title row) <> []
  /\ exists neg, py_float (replace (T ",") (T ".") (Quantity row)) = Ok (S754_infinity neg).

Definition SEMICOLON : ascii := ";"%char.
Definition HYPHEN : ascii := "-"%char.

(** What [parse_physical_stock] guarantees of the texts of a record: the
    article code, the bar code, the name and the size are trimmed and hold
    no field separator, the size is normalised, and the columns of
    [detect_carry_over] are not there yet. *)
Definition clean_fields (r : PhysRow) : Prop :=
  Forall (fun s => strip s = s /\ (SEMICOLON ∉ s))
         [Article r; Code_barre r; Nom_catalogue r; Taille r]
  /\ _normalize_size (Taille r) = Taille r
  /\ Name_no_sku r = None /\ Norm_name r = None /\ Product_ID r = None.

(** A text whose white space is single spaces: every white-space character
    is a space and follows a character that is not white space;
    [prev_space] says that the text follows white space. *)
Fixpoint spaced (prev_space : bool) (s : str) : Prop :=
  match s with
  | [] => True
  | c :: s' =>
      if is_space c then c = " "%char /\ prev_space = false /\ spaced true s'
      else spaced false s'
  end.

Definition SPACE : ascii := " "%char.

(** The guard of the loop of [extract_vendor_and_name]: the title is the
    brand key, or starts with the key and a space. *)
Definition brand_matches (vendor_up t : str) : bool :=
  (startswith (vendor_up ++ T " ") t || str_eqb t vendor_up)%bool.

(** A Shopify export with a vendor in another casing than the static list
    has. *)
Definition nike_export : list ShopRow :=
  [shop_row "Nike SB Dunk Low" "Nike SB" "1-1" "2";
   shop_row "Veste" "Carhartt" "2-1" "1"].

(** A text in which the characters of the class [cls] stand alone and are
    the separator [sep]: each of them follows a character that is not of
    the class; [prev] says that the text follows a character of the
    class. *)
Fixpoint separated (cls : ascii -> bool) (sep : ascii) (prev : bool) (s : str)
  : Prop :=
  match s with
  | [] => True
  | c :: s' =>
      if cls c then c = sep /\ prev = false /\ separated cls sep true s'
      else separated cls sep false s'
  end.

(** The class [[^a-z0-9]]. *)
Definition not_az09 (c : ascii) : bool := negb (is_az09 c).

(** The distinct values of a list, each at its first occurrence: the order
    of the keys of a [dict] that is filled in the order of the list. *)
Fixpoint distinct {A} `{EqDecision A} (l : list A) : list A :=
  match l with
  | [] => []
  | x :: l' => x :: filter (fun y => y <> x) (distinct l')
  end.

(** The key by which [generate_new_products] groups the items. *)
Definition product_key (p : Parsed) : str * str := (_handle p, _sku p).

(** The cell of a row of a frame in the column [col]. *)
Definition df_cell (columns : list str) (cells : list str) (col : str) : str :=
  default [] (dict_get (zip columns cells) col).

(** The columns of a small export. *)
Definition sample_columns : list str :=
  [T "Handle"; COL_TITLE; COL_VENDOR; COL_OPT1_NAME; COL_OPT1_VAL; COL_SKU;
   COL_BARCODE; COL_QTY; COL_PRICE; COL_STATUS].

(** New products: two sizes of one article, and another article. *)
Definition sample_new_products : list NewProduct :=
  [{| np_Code_barre := T "1-1"; np_Nom := T "CARHARTT WIP COTTON TRUNKS I029375.931.XX";
      np_Taille := T "M"; np_Qte := 2;
      np_Prix_achat := S754_zero false; np_Prix_vente := S754_zero false |};
   {| np_Code_barre := T "2-1"; np_Nom := T "GX1000 FALL FLOWER";
      np_Taille := T "Taille unique"; np_Qte := 1;
      np_Prix_achat := S754_zero false; np_Prix_vente := S754_zero false |};
   {| np_Code_barre := T "1-2"; np_Nom := T "CARHARTT WIP COTTON TRUNKS I029375.931.XX";
      np_Taille := T "L"; np_Qte := 0;
      np_Prix_achat := S754_zero false; np_Prix_vente := S754_zero false |}].

(** A rendering of the prices for the examples: every price of the sample
    is 0.0. *)
Definition sample_str_of_float (x : spec_float) : str := T "0.0".

(** The columns that [generate_new_products] writes. *)
Definition written_columns : list str :=
  [COL_TITLE; COL_VENDOR; COL_STATUS; COL_PUBLISHED; COL_OPT1_NAME;
   COL_OPT1_VAL; COL_SKU; COL_BARCODE; COL_QTY; COL_COST; COL_PRICE;
   COL_INV_TRACK; COL_INV_POL; COL_FULFILL].

(** A quantity that [float] holds exactly. *)
Definition exact_quantity (phys : PhysRow) : Prop := - 2 ^ 53 < Qte phys < 2 ^ 53.

(** A row of the export that is in stock: a physical record has its bar
    code and a quantity above 0; a row without bar code is in stock by the
    quantity that it has in the export. *)
Definition in_stock (physical : list PhysRow) (row : ShopRow) : Prop :=
  let barcode := strip (Barcode row) in
  if bool_decide (barcode = []) then has_stock row = true
  else match last_record physical barcode with
       | Some phys => 0 < Qte phys
       | None => False
       end.

Global Instance in_stock_dec physical row : Decision (in_stock physical row).
Proof.
  unfold in_stock. cbv zeta. case_bool_decide; [apply _|].
  destruct (last_record physical _); apply _.
Defined.

(** The rows that the filter keeps of the frame [df] that [sync_stocks]
    returned for the export [rows]: those without title, and those that
    have the title of a row in stock, the titles being those of [df]. *)
Definition kept_after (physical : list PhysRow) (rows df : list ShopRow)
    (row' : ShopRow) : Prop :=
  strip (Title row') = []
  \/ Exists (fun p => strip (Title p.2) = strip (Title row') /\ in_stock physical p.1)
            (zip rows df).

Global Instance kept_after_dec physical rows df row' :
  Decision (kept_after physical rows df row').
Proof. unfold kept_after. apply _. Defined.

(** A text of white space and at most one 0. *)
Definition blank_zero (s : str) : Prop :=
  Forall (fun c => is_space c = true) s
  \/ exists a b, s = a ++ "0"%char :: b
                  /\ Forall (fun c => is_space c = true) a
                  /\ Forall (fun c => is_space c = true) b.

(** The guards of the loop of [parse_physical_stock]: the chunk has ten
    fields at least, a bar code that is not TOTAL, an article code and a
    name, and no semicolon in the head of the article code. *)
Definition passes_guards (part : str) : bool :=
  let fields := split (T ";") part in
  let article := strip (field fields 0) in
  let code_barre := strip (field fields 1) in
  let nom := strip (strip_quotes (strip (field fields 2))) in
  (negb (length fields <? 10)%nat
   && negb (str_eqb code_barre [] || str_eqb (upper code_barre) (T "TOTAL")
            || str_eqb article [] || str_eqb nom [])
   && negb (contains (T ";") (slice_to 3 article)))%bool.

(** A chunk whose quantity field [float] reads as an infinity. *)
Definition infinite_quantity (part : str) : Prop :=
  exists neg, py_float (quantity_text part) = Ok (S754_infinity neg).

(* ================================================================== *)
(** * Properties *)

(* ================================================================== *)
(** ** Text *)

Lemma lstrip_by_clean p s : Forall (fun c => p c = false) s -> lstrip_by p s = s.
Proof. destruct 1 as [|c s Hc _]; simpl; [done | by rewrite Hc]. Qed.

Lemma strip_by_clean p s : Forall (fun c => p c = false) s -> strip_by p s = s.
Proof.
  intros H. unfold strip_by, rstrip_by.
  rewrite (lstrip_by_clean p s H), lstrip_by_clean, rev_involutive; [done|].
  apply Forall_rev. exact H.
Qed.

Lemma digit_char_not_space d : 0 <= d < 10 -> is_space (digit_char d) = false.
Proof.
  intros H.
  assert (d = 0 \/ d = 1 \/ d = 2 \/ d = 3 \/ d = 4 \/ d = 5 \/ d = 6 \/ d = 7
          \/ d = 8 \/ d = 9) as Hd by lia.
  repeat (destruct Hd as [-> | Hd]; [reflexivity|]). by subst.
Qed.

Lemma digits_of_not_space fuel : forall n acc,
  0 <= n -> Forall (fun c => is_space c = false) acc ->
  Forall (fun c => is_space c = false) (digits_of fuel n acc).
Proof.
  induction fuel as [|f IH]; intros n acc Hn Hacc; simpl; [done|].
  destruct (n <? 10) eqn:E.
  - constructor; [|done]. apply digit_char_not_space. lia.
  - apply IH; [apply Z.div_pos; lia|]. constructor; [|done].
    apply digit_char_not_space. apply Z.mod_pos_bound. lia.
Qed.

Lemma str_of_Z_not_space n : Forall (fun c => is_space c = false) (str_of_Z n).
Proof.
  unfold str_of_Z. destruct (n <? 0) eqn:E.
  - constructor; [reflexivity|]. apply digits_of_not_space; [lia | constructor].
  - apply digits_of_not_space; [lia | constructor].
Qed.

Lemma strip_str_of_Z n : strip (str_of_Z n) = str_of_Z n.
Proof. apply strip_by_clean, str_of_Z_not_space. Qed.

(* ================================================================== *)
(** ** Regular expressions and the SKU pattern *)

(** *** Character classes *)

Lemma space_not_sku_char c : is_space c = true -> is_sku_char c = false.
Proof. revert c. intros [[] [] [] [] [] [] [] []]; vm_compute; congruence. Qed.

Lemma sku_head_is_sku_char c : is_sku_head c = true -> is_sku_char c = true.
Proof. revert c. intros [[] [] [] [] [] [] [] []]; vm_compute; congruence. Qed.

Lemma sku_char_isdigit c : is_sku_char c = true -> py_isdigit c = is_digit c.
Proof. revert c. intros [[] [] [] [] [] [] [] []]; vm_compute; congruence. Qed.

Lemma code_LF c : N.eqb (code c) 10 = true -> c = LF.
Proof. revert c. intros [[] [] [] [] [] [] [] []]; vm_compute; congruence. Qed.

Lemma sku_char_not_space c : is_sku_char c = true -> is_space c = false.
Proof.
  intros H. destruct (is_space c) eqn:E; [|done].
  apply space_not_sku_char in E. congruence.
Qed.

Lemma forallb_Forall (p : ascii -> bool) (l : str) :
  forallb p l = true <-> Forall (fun c => p c = true) l.
Proof.
  induction l as [|c l IH]; cbn [forallb].
  - split; [constructor | done].
  - rewrite andb_true_iff, Forall_cons, IH. done.
Qed.

(** *** Runs of a class *)

Lemma run_split p (s : str) :
  exists t r, s = t ++ r /\ Forall (fun c => p c = true) t /\ starts_outside p r.
Proof.
  induction s as [|c s (t & r & -> & Ht & Hr)].
  - by exists [], [].
  - destruct (p c) eqn:E.
    + exists (c :: t), r. split_and!; [done | by constructor | done].
    + exists [], (c :: t ++ r). split_and!; [done | constructor | done].
Qed.

Lemma rep_run p k :
  (forall c s pos g, p c = true -> k (c :: s) pos g = None) ->
  forall t r min pos g,
    Forall (fun c => p c = true) t -> starts_outside p r ->
    rep p k min (t ++ r) pos g
    = if (min <=? length t)%nat then k r (pos + length t)%nat g else None.
Proof.
  intros Hk t r. induction t as [|c t IH]; intros min pos g Ht Hr.
  - simpl. rewrite Nat.add_0_r.
    replace (min <=? 0)%nat with (min =? 0)%nat by (by destruct min).
    destruct r as [|c r]; [done|]. simpl in Hr. simpl. by rewrite Hr.
  - apply Forall_cons in Ht as [Hc Ht]. simpl. rewrite Hc, IH by done.
    rewrite (Hk c _ pos g Hc).
    replace (pos + S (length t))%nat with (S pos + length t)%nat by lia.
    destruct (Nat.pred min <=? length t)%nat eqn:E.
    + replace (min <=? S (length t))%nat with true
        by (symmetry; apply Nat.leb_le; apply Nat.leb_le in E; lia).
      destruct (k r _ g); [done|]. by destruct (min =? 0)%nat.
    + replace (min <=? S (length t))%nat with false
        by (symmetry; apply Nat.leb_gt; apply Nat.leb_gt in E; lia).
      by destruct (min =? 0)%nat.
Qed.

(** *** The pattern at one position *)

Lemma sku_tail_fails c s pos g :
  is_sku_char c = true -> match_here sku_tail (c :: s) pos g = None.
Proof.
  intros Hc. simpl. destruct s; [|done].
  destruct (N.eqb (code c) 10) eqn:E; [|done].
  apply code_LF in E as ->. discriminate Hc.
Qed.

Lemma sku_body_fails c s pos g :
  is_space c = true -> match_here sku_body (c :: s) pos g = None.
Proof.
  intros Hc. simpl. destruct (is_sku_head c) eqn:E; [|done].
  apply sku_head_is_sku_char in E. apply space_not_sku_char in Hc. congruence.
Qed.

Lemma match_sku_inv s pos g res :
  match_here _SKU_PATTERN s pos g = Some res ->
  exists ws a t r2,
    s = ws ++ a :: t ++ r2 /\ ws <> []
    /\ Forall (fun c => is_space c = true) ws
    /\ is_sku_head a = true
    /\ Forall (fun c => is_sku_char c = true) t
    /\ (3 <= length t)%nat
    /\ (r2 = [] \/ r2 = [LF])
    /\ res = (pos + length ws, pos + length ws + 1 + length t)%nat.
Proof.
  destruct (run_split is_space s) as (ws & r & -> & Hws & Hr).
  change (match_here _SKU_PATTERN) with (rep is_space (match_here sku_body) 1).
  rewrite (rep_run is_space _ sku_body_fails) by done.
  destruct (1 <=? length ws)%nat eqn:Elen; [|done].
  destruct r as [|a r]; [done|].
  change (match_here sku_body (a :: r) (pos + length ws) g)
    with (if is_sku_head a
          then rep is_sku_char (match_here sku_tail) 3 r (S (pos + length ws))
                   ((pos + length ws)%nat, snd g)
          else None).
  destruct (is_sku_head a) eqn:Ea; [|done].
  destruct (run_split is_sku_char r) as (t & r2 & -> & Ht & Hr2).
  rewrite (rep_run is_sku_char _ sku_tail_fails) by done.
  destruct (3 <=? length t)%nat eqn:Et; [|done].
  intros Hres. exists ws, a, t, r2.
  assert (Hr2' : (r2 = [] \/ r2 = [LF])
                 /\ res = (pos + length ws, pos + length ws + 1 + length t)%nat).
  { destruct r2 as [|x [|y r3]]; simpl in Hres.
    - injection Hres as <-. split; [by left | f_equal; lia].
    - destruct (N.eqb (code x) 10) eqn:Ex; [|done]. injection Hres as <-.
      apply code_LF in Ex as ->. split; [by right | f_equal; lia].
    - done. }
  destruct Hr2' as [? ?]. split_and!; try done.
  - intros ->. done.
  - by apply Nat.leb_le.
Qed.

Lemma match_sku_intro ws a t pos g :
  ws <> [] -> Forall (fun c => is_space c = true) ws ->
  is_sku_head a = true -> Forall (fun c => is_sku_char c = true) t ->
  (3 <= length t)%nat ->
  match_here _SKU_PATTERN (ws ++ a :: t) pos g
  = Some (pos + length ws, pos + length ws + 1 + length t)%nat.
Proof.
  intros Hne Hws Ha Ht Hlen.
  change (match_here _SKU_PATTERN) with (rep is_space (match_here sku_body) 1).
  rewrite (rep_run is_space _ sku_body_fails).
  - replace (1 <=? length ws)%nat with true
      by (symmetry; apply Nat.leb_le; destruct ws; [done | simpl; lia]).
    change (match_here sku_body (a :: t) (pos + length ws) g)
      with (if is_sku_head a
            then rep is_sku_char (match_here sku_tail) 3 t (S (pos + length ws))
                     ((pos + length ws)%nat, snd g)
            else None).
    rewrite Ha. rewrite <- (app_nil_r t) at 1.
    rewrite (rep_run is_sku_char _ sku_tail_fails) by done.
    replace (3 <=? length t)%nat with true by (symmetry; by apply Nat.leb_le).
    simpl. do 2 f_equal. lia.
  - done.
  - simpl. apply sku_char_not_space. by apply sku_head_is_sku_char.
Qed.

(** *** The leftmost match *)

Lemma search_from_first pat : forall s pos j g,
  (j <= length s)%nat ->
  match_here pat (drop j s) (pos + j) (0, 0)%nat = Some g ->
  (forall i, (i < j)%nat -> match_here pat (drop i s) (pos + i) (0, 0)%nat = None) ->
  search_from pat s pos = Some ((pos + j)%nat, g).
Proof.
  intros s pos j. revert s pos. induction j as [|j IH]; intros s pos g Hj Hm Hbefore.
  - rewrite Nat.add_0_r in *. rewrite drop_0 in Hm.
    destruct s; simpl; by rewrite Hm.
  - destruct s as [|c s]; [simpl in Hj; lia|].
    pose proof (Hbefore 0%nat ltac:(lia)) as H0.
    rewrite Nat.add_0_r, drop_0 in H0. simpl. rewrite H0.
    replace (pos + S j)%nat with (S pos + j)%nat by lia.
    apply IH.
    + simpl in Hj. lia.
    + replace (S pos + j)%nat with (pos + S j)%nat by lia. exact Hm.
    + intros i Hi. specialize (Hbefore (S i) ltac:(lia)).
      replace (S pos + i)%nat with (pos + S i)%nat by lia. exact Hbefore.
Qed.

Lemma search_from_none pat : forall s pos,
  (forall i, (i <= length s)%nat -> match_here pat (drop i s) (pos + i) (0, 0)%nat = None) ->
  search_from pat s pos = None.
Proof.
  induction s as [|c s IH]; intros pos Hall.
  - specialize (Hall 0%nat ltac:(simpl; lia)). rewrite Nat.add_0_r in Hall.
    simpl in *. by rewrite Hall.
  - pose proof (Hall 0%nat ltac:(simpl; lia)) as H0.
    rewrite Nat.add_0_r, drop_0 in H0. simpl. rewrite H0. apply IH.
    intros i Hi. specialize (Hall (S i) ltac:(simpl; lia)).
    replace (S pos + i)%nat with (pos + S i)%nat by lia. exact Hall.
Qed.

(** *** Stripping *)

Section Strip.
Variable p : ascii -> bool.

Lemma lstrip_by_split (s : str) :
  exists ws, s = ws ++ lstrip_by p s /\ Forall (fun c => p c = true) ws.
Proof.
  induction s as [|c s (ws & Hs & Hws)]; simpl.
  - by exists [].
  - destruct (p c) eqn:E.
    + exists (c :: ws). split; [by rewrite Hs at 1 | by constructor].
    + by exists [].
Qed.

Lemma lstrip_by_head (s : str) : starts_outside p (lstrip_by p s).
Proof.
  induction s as [|c s IH]; simpl; [done|].
  destruct (p c) eqn:E; [done | by simpl].
Qed.

Lemma lstrip_by_all (s : str) :
  Forall (fun c => p c = true) s -> lstrip_by p s = [].
Proof. induction 1 as [|c s Hc _ IH]; simpl; [done | by rewrite Hc]. Qed.

Lemma lstrip_by_app_all (ws s : str) :
  Forall (fun c => p c = true) ws -> lstrip_by p (ws ++ s) = lstrip_by p s.
Proof. induction 1 as [|c ws Hc _ IH]; simpl; [done | by rewrite Hc]. Qed.

Lemma lstrip_by_app (s1 s2 : str) :
  lstrip_by p s1 <> [] -> lstrip_by p (s1 ++ s2) = lstrip_by p s1 ++ s2.
Proof.
  induction s1 as [|c s1 IH]; simpl; [done|].
  destruct (p c); [exact IH | done].
Qed.

Lemma lstrip_by_nil_inv (s : str) :
  lstrip_by p s = [] -> Forall (fun c => p c = true) s.
Proof.
  induction s as [|c s IH]; simpl; [constructor|].
  destruct (p c) eqn:E; [|done]. intros H. constructor; auto.
Qed.

Lemma rstrip_by_app_all (s ws : str) :
  Forall (fun c => p c = true) ws -> rstrip_by p (s ++ ws) = rstrip_by p s.
Proof.
  intros H. unfold rstrip_by. rewrite rev_app_distr, lstrip_by_app_all; [done|].
  by apply Forall_rev.
Qed.

Lemma rstrip_by_split (s : str) :
  exists ws, s = rstrip_by p s ++ ws /\ Forall (fun c => p c = true) ws.
Proof.
  destruct (lstrip_by_split (rev s)) as (ws & Hs & Hws).
  exists (rev ws). split; [|by apply Forall_rev].
  unfold rstrip_by. rewrite <- rev_app_distr, <- Hs. by rewrite rev_involutive.
Qed.

Lemma rstrip_by_length (s : str) : (length (rstrip_by p s) <= length s)%nat.
Proof.
  destruct (rstrip_by_split s) as (ws & Hs & _).
  rewrite Hs at 2. rewrite length_app. lia.
Qed.

Lemma rstrip_by_last (s s' : str) c :
  rstrip_by p s = s' ++ [c] -> p c = false.
Proof.
  unfold rstrip_by. intros H.
  pose proof (lstrip_by_head (rev s)) as Hh.
  apply (f_equal (@rev ascii)) in H. rewrite rev_involutive, rev_app_distr in H.
  simpl in H. rewrite H in Hh. exact Hh.
Qed.

Lemma strip_by_last (s s' : str) c : strip_by p s = s' ++ [c] -> p c = false.
Proof. apply rstrip_by_last. Qed.

Lemma strip_by_app_all (s ws : str) :
  Forall (fun c => p c = true) ws -> strip_by p (s ++ ws) = strip_by p s.
Proof.
  intros Hws. unfold strip_by.
  destruct (decide (lstrip_by p s = [])) as [He|Hne].
  - rewrite He, lstrip_by_all; [done|].
    apply Forall_app. split; [by apply lstrip_by_nil_inv | done].
  - by rewrite lstrip_by_app, rstrip_by_app_all.
Qed.
End Strip.

(** *** The last token *)

Lemma split_last_token_spec (s : str) :
  let '(before, tok) := split_last_token s in
  s = before ++ tok
  /\ Forall (fun c => is_space c = false) tok
  /\ ends_with is_space before.
Proof.
  induction s as [|c s IH]; simpl.
  - split_and!; [done | constructor | by left].
  - destruct (split_last_token s) as [before tok].
    destruct IH as (-> & Htok & Hb).
    destruct (is_space c) eqn:Ec; simpl.
    + split_and!; [done | done |]. right.
      destruct Hb as [->|(b' & x & -> & Hx)].
      * by exists [], c.
      * exists (c :: b'), x. by split.
    + case_bool_decide as Hnil; simpl.
      * subst before. split_and!; [done | by constructor | by left].
      * split_and!; [done | done |]. right.
        destruct Hb as [->|(b' & x & -> & Hx)]; [done|].
        exists (c :: b'), x. by split.
Qed.

Lemma last_token_unique (X Y b t : str) :
  X ++ Y = b ++ t ->
  Forall (fun c => is_space c = false) Y ->
  Forall (fun c => is_space c = false) t ->
  ends_with is_space X -> ends_with is_space b ->
  X = b /\ Y = t.
Proof.
  intros Heq HY Ht HX Hb.
  apply app_eq_inv in Heq as [(k & -> & ->)|(k & -> & ->)].
  - destruct k as [|x k _] using rev_ind.
    + by rewrite !app_nil_r.
    + exfalso. destruct HX as [HX|(X' & c & HX & Hc)].
      * by destruct b, k.
      * rewrite app_assoc in HX. apply app_inj_tail in HX as [_ ->].
        rewrite !Forall_app, Forall_singleton in Ht.
        destruct Ht as [[_ Ht] _]. congruence.
  - destruct k as [|x k _] using rev_ind.
    + by rewrite !app_nil_r.
    + exfalso. destruct Hb as [Hb|(b' & c & Hb & Hc)].
      * by destruct X, k.
      * rewrite app_assoc in Hb. apply app_inj_tail in Hb as [_ ->].
        rewrite !Forall_app, Forall_singleton in HY.
        destruct HY as [[_ HY] _]. congruence.
Qed.

(** *** The SKU pattern on a text and its last token *)

Lemma sku_shape_inv tok :
  sku_shape tok = true ->
  exists a t, tok = a :: t /\ is_sku_head a = true
              /\ Forall (fun c => is_sku_char c = true) t /\ (3 <= length t)%nat.
Proof.
  destruct tok as [|a t]; [done|]. cbn [sku_shape].
  rewrite !andb_true_iff, Nat.leb_le, forallb_Forall.
  intros [[Ha Ht] Hlen]. by exists a, t.
Qed.

Section Search.
Variables name before tok : str.
Hypothesis Hname : name = before ++ tok.
Hypothesis Htok : Forall (fun c => is_space c = false) tok.
Hypothesis Hbefore : ends_with is_space before.
Hypothesis Hlast : no_trailing_space name.

Lemma match_at_inv pos j res :
  (j <= length name)%nat ->
  match_here _SKU_PATTERN (drop j name) (pos + j) (0, 0)%nat = Some res ->
  exists ws, ws <> [] /\ Forall (fun c => is_space c = true) ws
             /\ before = take j name ++ ws
             /\ sku_shape tok = true
             /\ res = (pos + length before, pos + length name)%nat.
Proof.
  intros Hj Hm.
  apply match_sku_inv in Hm
    as (ws & a & t & r2 & Hdrop & Hne & Hws & Ha & Ht & Hlen & Hr2 & ->).
  assert (Hsplit : name = take j name ++ ws ++ a :: t ++ r2).
  { rewrite <- Hdrop. by rewrite take_drop. }
  destruct Hr2 as [->| ->].
  2:{ exfalso. specialize (Hlast (take j name ++ ws ++ a :: t) LF).
      rewrite <- !app_assoc in Hlast. simpl in Hlast.
      specialize (Hlast Hsplit). discriminate Hlast. }
  rewrite app_nil_r in Hsplit.
  destruct (last_token_unique (take j name ++ ws) (a :: t) before tok) as [HX HY].
  - rewrite <- app_assoc, <- Hsplit. exact Hname.
  - constructor.
    + apply sku_char_not_space. by apply sku_head_is_sku_char.
    + eapply Forall_impl; [exact Ht|]. intros c. apply sku_char_not_space.
  - exact Htok.
  - right. destruct ws as [|c ws _] using rev_ind; [done|].
    exists (take j name ++ ws), c. split; [by rewrite app_assoc|].
    rewrite Forall_app, Forall_singleton in Hws. by destruct Hws.
  - exact Hbefore.
  - exists ws. split_and!; try done.
    + rewrite <- HY. cbn [sku_shape].
      rewrite !andb_true_iff, Nat.leb_le, forallb_Forall. done.
    + assert (length before = j + length ws)%nat as Hlb.
      { rewrite <- HX, length_app, length_take. lia. }
      assert (length name = length before + S (length t))%nat as Hln.
      { rewrite Hname, <- HY, length_app. done. }
      f_equal; lia.
Qed.

Lemma sku_search :
  re_search _SKU_PATTERN name
  = if (negb (bool_decide (before = [])) && sku_shape tok)%bool
    then Some (length (rstrip_by is_space before), (length before, length name))
    else None.
Proof.
  unfold re_search.
  destruct (negb (bool_decide (before = [])) && sku_shape tok)%bool eqn:Hc.
  - apply andb_true_iff in Hc as [Hb Hs].
    apply negb_true_iff, bool_decide_eq_false_1 in Hb.
    destruct (rstrip_by_split is_space before) as (ws0 & Hb0 & Hws0).
    set (b0 := rstrip_by is_space before) in *.
    assert (Hne : ws0 <> []).
    { intros ->. rewrite app_nil_r in Hb0.
      destruct Hbefore as [?|(b' & c & Hbc & Hc)]; [done|].
      rewrite Hb0 in Hbc. apply rstrip_by_last in Hbc. congruence. }
    apply sku_shape_inv in Hs as (a & t & Htk & Ha & Ht & Hlen).
    assert (Hlb : length before = (length b0 + length ws0)%nat).
    { rewrite Hb0 at 1. by rewrite length_app. }
    assert (Hln : length name = (length before + S (length t))%nat).
    { rewrite Hname, Htk, length_app. done. }
    change (length b0) with (0 + length b0)%nat at 1.
    apply search_from_first.
    + lia.
    + rewrite Hname, Hb0, <- app_assoc, drop_app_length, Htk.
      rewrite match_sku_intro by done. rewrite !length_app. cbn [length].
      f_equal. f_equal; lia.
    + intros i Hi. destruct (match_here _ _ _ _) as [res|] eqn:Hm; [|done].
      exfalso. apply match_at_inv in Hm as (ws & _ & Hws & Hbi & _); [|lia].
      pose proof (rstrip_by_length is_space (take i name)) as Hlen'.
      unfold b0 in Hi. rewrite Hbi, rstrip_by_app_all in Hi by done.
      rewrite length_take in Hlen'. lia.
  - apply search_from_none. intros i Hi.
    destruct (match_here _ _ _ _) as [res|] eqn:Hm; [|done].
    exfalso. apply match_at_inv in Hm as (ws & Hne & _ & Hbi & Hs & _); [|lia].
    rewrite Hs, andb_true_r in Hc.
    apply negb_false_iff, bool_decide_eq_true_1 in Hc.
    rewrite Hc in Hbi. by destruct (take i name), ws.
Qed.
End Search.

Lemma strip_no_trailing_space s : no_trailing_space (strip s).
Proof. intros n' c H. by apply (strip_by_last is_space s n' c). Qed.

Lemma group1_suffix (before tok : str) :
  group1 (before ++ tok) (length before, length (before ++ tok)) = tok.
Proof.
  unfold group1. simpl. rewrite drop_app_length, length_app.
  replace (length before + length tok - length before)%nat with (length tok) by lia.
  apply firstn_all.
Qed.

Lemma existsb_isdigit_sku tok :
  forallb is_sku_char tok = true -> existsb py_isdigit tok = existsb is_digit tok.
Proof.
  induction tok as [|c tok IH]; simpl; [done|].
  rewrite andb_true_iff. intros [Hc Ht]. by rewrite sku_char_isdigit, IH.
Qed.

(** The guards of the source on a token of the shape of the pattern. *)
Lemma sku_guards tok :
  sku_shape tok = true ->
  (existsb py_isdigit tok && negb (bool_decide (upper tok ∈ _SIZES))
   && (4 <=? length tok)%nat)%bool
  = is_sku_token tok.
Proof.
  intros Hs. destruct tok as [|a t]; [done|]. cbn [sku_shape] in Hs.
  apply andb_true_iff in Hs as [Hs Hlen]. apply andb_true_iff in Hs as [Ha Ht].
  assert (Hall : forallb is_sku_char (a :: t) = true).
  { cbn [forallb]. by rewrite (sku_head_is_sku_char a Ha), Ht. }
  assert (Hl4 : (4 <=? length (a :: t))%nat = true).
  { apply Nat.leb_le. apply Nat.leb_le in Hlen. cbn [length]. lia. }
  unfold is_sku_token, spec_sku_token.
  rewrite (existsb_isdigit_sku _ Hall), Hall, Ha, Hl4.
  cbn [andb]. by rewrite andb_true_r.
Qed.

Lemma is_sku_token_shape tok : is_sku_token tok = true -> sku_shape tok = true.
Proof.
  unfold is_sku_token, spec_sku_token. destruct tok as [|a t]; [done|].
  rewrite !andb_true_iff. intros (Ha & ((Hlen & Hall) & _) & _).
  cbn [forallb] in Hall. apply andb_true_iff in Hall as [_ Hall].
  cbn [sku_shape]. rewrite Ha, Hall. cbn [andb].
  apply Nat.leb_le. apply Nat.leb_le in Hlen. cbn [length] in Hlen. lia.
Qed.

Lemma extract_sku_and_title_last_token s :
  extract_sku_and_title s = extract_by_last_token is_sku_token s.
Proof.
  unfold extract_sku_and_title, extract_by_last_token. cbv zeta.
  pose proof (split_last_token_spec (strip s)) as Hsp.
  destruct (split_last_token (strip s)) as [before tok].
  destruct Hsp as (Hname & Htok & Hbefore).
  rewrite (sku_search (strip s) before tok Hname Htok Hbefore (strip_no_trailing_space s)).
  destruct (negb (bool_decide (before = []))) eqn:Hb; cbn [andb].
  - destruct (sku_shape tok) eqn:Hs; cbv beta iota.
    + rewrite Hname, group1_suffix, (sku_guards tok Hs).
      destruct (is_sku_token tok); [|done].
      f_equal. unfold slice_to.
      destruct (rstrip_by_split is_space before) as (ws0 & Hb0 & Hws0).
      set (b0 := rstrip_by is_space before) in *.
      rewrite Hb0, <- app_assoc, take_app_length.
      unfold strip. by rewrite (strip_by_app_all is_space _ ws0 Hws0).
    + destruct (is_sku_token tok) eqn:Ht; [|done].
      apply is_sku_token_shape in Ht. congruence.
  - done.
Qed.

(** *** C2 *)

(** C2, as the code has it.  [extract_sku_and_title] splits the last token
    off the trimmed name when white space precedes it and it has at least 4
    characters, all upper-case letters, digits, dots or hyphens, the first
    one a letter or a digit, a digit among them, and it is not a size; the
    title is then what precedes the token, trimmed.  Otherwise the result
    is the trimmed name without SKU.  The two names of the documentation
    give the documented results. *)
Theorem extract_sku_and_title_spec :
  (forall catalog_name,
     extract_sku_and_title catalog_name
     = extract_by_last_token is_sku_token catalog_name)
  /\ extract_sku_and_title
       (T "CARHARTT WIP COTTON TRUNKS WHITE + WHITE I029375.931.XX")
     = (T "CARHARTT WIP COTTON TRUNKS WHITE + WHITE", Some (T "I029375.931.XX"))
  /\ extract_sku_and_title (T "GX1000 FALL FLOWER COPPER 8.125 PLANCHE DE SKATE")
     = (T "GX1000 FALL FLOWER COPPER 8.125 PLANCHE DE SKATE", None).
Proof.
  split_and!.
  - apply extract_sku_and_title_last_token.
  - vm_compute. reflexivity.
  - vm_compute. reflexivity.
Qed.

(** C2 as stated fails: a trailing token that starts with a hyphen has the
    characters, the length and the digit that the claim asks for, and is
    not split off. *)
Lemma extract_sku_and_title_hyphen :
  extract_by_last_token spec_sku_token (T "DECK -8.25")
  = (T "DECK", Some (T "-8.25"))
  /\ extract_sku_and_title (T "DECK -8.25") = (T "DECK -8.25", None).
Proof. split; vm_compute; reflexivity. Qed.

(** *** Trimmed texts *)

Lemma startswith_app (p s : str) : startswith p (p ++ s) = true.
Proof. induction p as [|c p IH]; simpl; [done|]. by rewrite bool_decide_eq_true_2. Qed.

Lemma contains_app (sub pre post : str) : contains sub (pre ++ sub ++ post) = true.
Proof.
  induction pre as [|c pre IH]; simpl.
  - destruct (sub ++ post) eqn:E; simpl; rewrite <- E, startswith_app; done.
  - by rewrite IH, Tauto.if_same.
Qed.

Lemma lstrip_by_length p (s : str) : (length (lstrip_by p s) <= length s)%nat.
Proof. induction s as [|c s IH]; simpl; [done|]. destruct (p c); simpl; lia. Qed.

Lemma strip_by_fixed_head p c (s : str) : strip_by p (c :: s) = c :: s -> p c = false.
Proof.
  intros H. destruct (p c) eqn:E; [|done]. exfalso.
  apply (f_equal length) in H. unfold strip_by in H. simpl in H. rewrite E in H.
  pose proof (rstrip_by_length p (lstrip_by p s)).
  pose proof (lstrip_by_length p s). lia.
Qed.

Lemma strip_by_ends p c d (s : str) :
  p c = false -> p d = false -> strip_by p (c :: s ++ [d]) = c :: s ++ [d].
Proof.
  intros Hc Hd. unfold strip_by. simpl. rewrite Hc. unfold rstrip_by.
  change (c :: s ++ [d]) with ((c :: s) ++ [d]).
  rewrite rev_app_distr. simpl. rewrite Hd. simpl.
  by rewrite rev_app_distr, rev_involutive.
Qed.

Lemma strip_by_fixed p (s : str) :
  starts_outside p s -> (forall s' c, s = s' ++ [c] -> p c = false) ->
  strip_by p s = s.
Proof.
  intros Hh Hl. destruct s as [|c s]; [done|]. simpl in Hh.
  destruct s as [|d s _] using rev_ind.
  - unfold strip_by, rstrip_by. simpl. by rewrite Hh; simpl; rewrite Hh.
  - apply strip_by_ends; [done|]. by apply (Hl (c :: s) d).
Qed.

Lemma strip_by_strip_by p (s : str) : strip_by p (strip_by p s) = strip_by p s.
Proof.
  apply strip_by_fixed.
  - unfold strip_by. destruct (rstrip_by_split p (lstrip_by p s)) as (ws & Hs & _).
    pose proof (lstrip_by_head p s) as Hh. rewrite Hs in Hh.
    by destruct (rstrip_by p (lstrip_by p s)).
  - intros s' c. apply strip_by_last.
Qed.

(* ================================================================== *)
(** ** Carry over *)

(** *** Sorting and distinct values *)

Global Instance str_le_total : Total str_le.
Proof. intros a b. apply String.le_total. Qed.

Global Instance str_le_trans : Transitive str_le.
Proof. intros a b c. unfold str_le. apply transitivity. Qed.

Lemma py_sorted_sorted l : StronglySorted str_le (py_sorted l).
Proof. apply StronglySorted_merge_sort; apply _. Qed.

Lemma py_sorted_perm l : py_sorted l ≡ₚ l.
Proof. apply merge_sort_Permutation. Qed.

Lemma py_sorted_elem x l : x ∈ py_sorted l <-> x ∈ l.
Proof. by rewrite py_sorted_perm. Qed.

Lemma py_sorted_NoDup l : NoDup l -> NoDup (py_sorted l).
Proof. by rewrite py_sorted_perm. Qed.

Lemma unique_elem x l : x ∈ unique l <-> x ∈ l.
Proof.
  induction l as [|y l IH]; simpl; [done|].
  rewrite !elem_of_cons, list_elem_of_filter, IH.
  destruct (decide (x = y)); intuition congruence.
Qed.

Lemma unique_NoDup l : NoDup (unique l).
Proof.
  induction l as [|y l IH]; simpl; constructor.
  - rewrite list_elem_of_filter. intros [H _]. by apply H.
  - by apply NoDup_filter.
Qed.

(** *** The groups *)

Lemma group_pids_elem df n p :
  p ∈ group_pids df n <-> exists r, r ∈ df /\ norm_of r = n /\ pid_of r = p.
Proof.
  unfold group_pids. rewrite py_sorted_elem, unique_elem, list_elem_of_fmap.
  split.
  - intros (r & -> & Hr). apply list_elem_of_filter in Hr as [Hn Hr]. by exists r.
  - intros (r & Hr & Hn & Hp). exists r. split; [done|].
    apply list_elem_of_filter. by split.
Qed.

Lemma group_pids_NoDup df n : NoDup (group_pids df n).
Proof. apply py_sorted_NoDup, unique_NoDup. Qed.

Lemma name_pids_fst df :
  map fst (name_pids df) = py_sorted (unique (map norm_of df)).
Proof.
  unfold name_pids. rewrite map_map. simpl. apply map_id.
Qed.

Lemma name_pids_elem df g :
  g ∈ name_pids df -> snd g = group_pids df (fst g).
Proof.
  unfold name_pids. rewrite list_elem_of_fmap. by intros (n & -> & _).
Qed.

Lemma name_pids_has df n :
  group_pids df n <> [] -> (n, group_pids df n) ∈ name_pids df.
Proof.
  intros Hne. unfold name_pids. apply list_elem_of_fmap. exists n. split; [done|].
  rewrite py_sorted_elem, unique_elem, list_elem_of_fmap.
  destruct (group_pids df n) as [|p ps] eqn:E; [done|].
  assert (Hp : p ∈ group_pids df n) by (rewrite E; apply list_elem_of_here).
  apply group_pids_elem in Hp as (r & Hr & Hn & _). by exists r.
Qed.

(** *** The labels *)

Lemma label_pids_other n pids : forall i m k,
  (forall p, p ∈ pids -> k <> (n, p)) ->
  label_pids n i pids m !! k = m !! k.
Proof.
  induction pids as [|p pids IH]; intros i m k Hk; simpl; [done|].
  rewrite IH.
  - apply lookup_insert_ne. intros <-. eapply Hk; [|done]. apply list_elem_of_here.
  - intros q Hq. apply Hk. by apply list_elem_of_further.
Qed.

Lemma label_pids_at n pids : forall i m j p,
  NoDup pids -> pids !! j = Some p ->
  label_pids n i pids m !! (n, p) = Some (season_label (i + j)).
Proof.
  induction pids as [|q pids IH]; intros i m j p Hnd Hj; [done|].
  apply NoDup_cons in Hnd as [Hq Hnd]. destruct j as [|j]; simpl in *.
  - injection Hj as ->. rewrite label_pids_other.
    + rewrite lookup_insert_eq. unfold season_label. by rewrite Nat.add_0_r.
    + intros p' Hp' [= ->]. done.
  - rewrite (IH (S i) _ j p Hnd Hj). do 2 f_equal. lia.
Qed.

Lemma carry_over_fold_other gs : forall (m : comap) n p,
  (forall g, g ∈ gs -> fst g = n -> (1 < length (snd g))%nat -> p ∉ snd g) ->
  fold_left carry_over_step gs m !! (n, p) = m !! (n, p).
Proof.
  induction gs as [|g gs IH]; intros m n p Hg; simpl; [done|].
  rewrite IH.
  - unfold carry_over_step. destruct (1 <? length (snd g))%nat eqn:E; [|done].
    apply label_pids_other. intros q Hq [= Hn ->].
    apply (Hg g); [apply list_elem_of_here | done | by apply Nat.ltb_lt | done].
  - intros g' Hg'. apply Hg. by apply list_elem_of_further.
Qed.

Lemma carry_over_fold_at gs : forall (m : comap) g j p,
  NoDup (map fst gs) -> g ∈ gs -> NoDup (snd g) ->
  (1 < length (snd g))%nat -> snd g !! j = Some p ->
  fold_left carry_over_step gs m !! (fst g, p) = Some (season_label j).
Proof.
  induction gs as [|g0 gs IH]; intros m g j p Hnd Hg Hndg Hlen Hj.
  - by apply elem_of_nil in Hg.
  - simpl in Hnd. apply NoDup_cons in Hnd as [Hg0 Hnd].
    apply elem_of_cons in Hg as [->|Hg]; simpl.
    + rewrite carry_over_fold_other.
      * unfold carry_over_step.
        replace (1 <? length (snd g0))%nat with true
          by (symmetry; by apply Nat.ltb_lt).
        by rewrite (label_pids_at _ _ 0 m j p Hndg Hj).
      * intros g' Hg' Hfst. exfalso. apply Hg0. rewrite <- Hfst.
        apply list_elem_of_fmap. by exists g'.
    + by apply IH.
Qed.

Lemma carry_over_map_label (df' : list PhysRow) n i p :
  group_pids df' n !! i = Some p -> (1 < length (group_pids df' n))%nat ->
  fold_left carry_over_step (name_pids df') ∅ !! (n, p) = Some (season_label i).
Proof.
  intros Hi Hlen.
  apply (carry_over_fold_at (name_pids df') ∅ (n, group_pids df' n) i p).
  - rewrite name_pids_fst. apply py_sorted_NoDup, unique_NoDup.
  - apply name_pids_has. intros E. rewrite E in Hi. done.
  - apply group_pids_NoDup.
  - done.
  - done.
Qed.

Lemma group_pids_pair r1 r2 n :
  norm_of r1 = n -> norm_of r2 = n ->
  pid_of r1 = T "65368" -> pid_of r2 = T "75368" ->
  group_pids [r1; r2] n = [T "65368"; T "75368"].
Proof.
  intros H1 H2 P1 P2. unfold group_pids.
  rewrite !filter_cons, decide_True, decide_True by done.
  rewrite filter_nil. cbn [map]. rewrite P1, P2. by vm_compute.
Qed.

(** The ids of a name, read in the frame that [detect_carry_over] was
    given. *)
Lemma group_pids_enrich (df : list PhysRow) n p :
  p ∈ group_pids (map enrich df) n
  <-> exists r, r ∈ df
        /\ normalize_name (fst (extract_sku_and_title (Nom_catalogue r))) = n
        /\ get_product_id (Code_barre r) = p.
Proof.
  rewrite group_pids_elem. split.
  - intros (r' & Hr' & Hn & Hp). apply list_elem_of_fmap in Hr' as (r & -> & Hr).
    by exists r.
  - intros (r & Hr & Hn & Hp). exists (enrich r). split; [|done].
    apply list_elem_of_fmap. by exists r.
Qed.

(** A list without repetition has more than one element exactly when it
    has an element other than a given one. *)
Lemma NoDup_other {A} `{EqDecision A} (l : list A) (p : A) :
  NoDup l -> p ∈ l -> (1 < length l)%nat <-> exists q, q ∈ l /\ q <> p.
Proof.
  intros Hnd Hp. split.
  - intros Hlen. destruct l as [|x [|y l]]; simpl in Hlen; [lia | lia |].
    apply NoDup_cons in Hnd as [Hx _].
    destruct (decide (x = p)) as [->|Hxp].
    + exists y. split; [apply list_elem_of_further, list_elem_of_here|].
      intros ->. apply Hx. apply list_elem_of_here.
    + exists x. split; [apply list_elem_of_here | done].
  - intros (q & Hq & Hqp). destruct l as [|x [|y l]]; simpl; [| |lia].
    + by apply elem_of_nil in Hp.
    + apply list_elem_of_singleton in Hp, Hq. congruence.
Qed.

(** A sorted list without repetition that holds two values only. *)
Lemma sorted_pair (l : list str) (a b : str) :
  StronglySorted str_le l -> NoDup l ->
  (forall p, p ∈ l <-> p = a \/ p = b) -> a <> b -> ~ str_le b a ->
  l = [a; b].
Proof.
  intros Hs Hnd Hel Hab Hba.
  destruct l as [|x [|y l]].
  - exfalso. eapply elem_of_nil. apply Hel. by left.
  - exfalso. apply Hab.
    assert (Ha : a ∈ [x]) by (apply Hel; by left).
    assert (Hb : b ∈ [x]) by (apply Hel; by right).
    apply list_elem_of_singleton in Ha, Hb. congruence.
  - assert (Hx : x = a \/ x = b) by (apply Hel, list_elem_of_here).
    assert (Hy : y = a \/ y = b)
      by (apply Hel, list_elem_of_further, list_elem_of_here).
    apply NoDup_cons in Hnd as [Hxl Hnd]. apply NoDup_cons in Hnd as [Hyl Hnd].
    assert (Hxy : x <> y) by (intros ->; apply Hxl, list_elem_of_here).
    assert (Hle : str_le x y).
    { apply StronglySorted_inv in Hs as [_ Hall]. by apply Forall_inv in Hall. }
    assert (x = a /\ y = b) as [-> ->].
    { destruct Hx as [->| ->], Hy as [->| ->]; try done. }
    destruct l as [|z l]; [done|]. exfalso.
    assert (Hz : z = a \/ z = b)
      by (apply Hel; do 2 apply list_elem_of_further; apply list_elem_of_here).
    destruct Hz as [->| ->].
    + apply Hxl. apply list_elem_of_further, list_elem_of_here.
    + apply Hyl. apply list_elem_of_here.
Qed.

(** C3. [detect_carry_over] returns the records that it was given, in
    their order, with the name without SKU, its normal form and the
    product id of the bar code.  The carry-over map has the key (name, id)
    exactly when a record has this normal form and this id and another
    record has the normal form and another id.  The ids of a name, sorted
    in ascending order and without repetition, are labelled S1, S2, ... in
    that order; so a name with one id has no key.  In particular a name
    whose ids are 65368 and 75368 gets S1 and S2, and so do two records
    with one normalised name and these ids. *)
Theorem detect_carry_over_labels (df : list PhysRow) :
  let '(df', carry_over_map) := detect_carry_over df in
  let name_of r := normalize_name (fst (extract_sku_and_title (Nom_catalogue r))) in
  let id_of r := get_product_id (Code_barre r) in
  let ids n p := exists r, r ∈ df /\ name_of r = n /\ id_of r = p in
  let pids := group_pids df' in
  Forall2 (fun r r' =>
             r' = {| Article := Article r; Code_barre := Code_barre r;
                     Nom_catalogue := Nom_catalogue r; Taille := Taille r;
                     Qte := Qte r; Prix_achat := Prix_achat r;
                     Prix_vente := Prix_vente r;
                     Name_no_sku :=
                       Some (fst (extract_sku_and_title (Nom_catalogue r)));
                     Norm_name := Some (name_of r);
                     Product_ID := Some (id_of r) |}) df df'
  /\ (forall n p,
        is_Some (carry_over_map !! (n, p))
        <-> ids n p /\ exists q, ids n q /\ q <> p)
  /\ (forall n p,
        is_Some (carry_over_map !! (n, p))
        <-> p ∈ pids n /\ (1 < length (pids n))%nat)
  /\ (forall n i p,
        pids n !! i = Some p -> (1 < length (pids n))%nat ->
        carry_over_map !! (n, p) = Some ("S"%char :: str_of_nat (i + 1)))
  /\ (forall n,
        StronglySorted str_le (pids n) /\ NoDup (pids n)
        /\ (forall p, p ∈ pids n <-> ids n p)
        /\ forall p, p ∈ pids n
                     <-> exists r, r ∈ df' /\ Norm_name r = Some n
                                   /\ Product_ID r = Some p)
  /\ (forall n,
        (forall p, ids n p <-> p = T "65368" \/ p = T "75368") ->
        carry_over_map !! (n, T "65368") = Some (T "S1")
        /\ carry_over_map !! (n, T "75368") = Some (T "S2"))
  /\ (forall r1 r2 n,
        Norm_name (enrich r1) = Some n -> Norm_name (enrich r2) = Some n ->
        Product_ID (enrich r1) = Some (T "65368") ->
        Product_ID (enrich r2) = Some (T "75368") ->
        snd (detect_carry_over [r1; r2]) !! (n, T "65368") = Some (T "S1")
        /\ snd (detect_carry_over [r1; r2]) !! (n, T "75368") = Some (T "S2")).
Proof.
  unfold detect_carry_over. cbv zeta.
  set (df' := map enrich df).
  assert (Hkey : forall n p,
            is_Some (fold_left carry_over_step (name_pids df') ∅ !! (n, p))
            <-> p ∈ group_pids df' n /\ (1 < length (group_pids df' n))%nat).
  { intros n p. split.
    + intros Hsome.
      destruct (decide (p ∈ group_pids df' n /\ (1 < length (group_pids df' n))%nat))
        as [?|Hno]; [done|].
      rewrite carry_over_fold_other, lookup_empty in Hsome; [by destruct Hsome|].
      intros g Hg Hn Hlen Hp. apply name_pids_elem in Hg.
      rewrite Hg, Hn in Hlen, Hp. by apply Hno.
    + intros [Hp Hlen]. apply list_elem_of_lookup in Hp as [i Hi].
      rewrite (carry_over_map_label df' n i p Hi Hlen). eauto. }
  split_and!.
  - unfold df'. apply Forall2_fmap_r, Forall_Forall2_diag, Forall_forall.
    by intros r _.
  - intros n p. rewrite Hkey. split.
    + intros [Hp Hlen]. split; [by apply group_pids_enrich|].
      apply (NoDup_other _ p (group_pids_NoDup df' n) Hp) in Hlen as (q & Hq & Hqp).
      exists q. split; [by apply group_pids_enrich | done].
    + intros [Hp (q & Hq & Hqp)]. apply group_pids_enrich in Hp, Hq.
      split; [done|]. apply (NoDup_other _ p (group_pids_NoDup df' n) Hp).
      by exists q.
  - exact Hkey.
  - apply carry_over_map_label.
  - intros n. split_and!.
    + apply py_sorted_sorted.
    + apply group_pids_NoDup.
    + intros p. apply group_pids_enrich.
    + intros p. rewrite group_pids_elem. split.
      * intros (r & Hr & Hn & Hp). exists r. split; [done|].
        unfold df' in Hr. apply list_elem_of_fmap in Hr as (r0 & -> & _).
        simpl in *. by rewrite <- Hn, <- Hp.
      * intros (r & Hr & Hn & Hp). exists r. unfold norm_of, pid_of.
        by rewrite Hn, Hp.
  - intros n Hids.
    assert (Hg : group_pids df' n = [T "65368"; T "75368"]).
    { apply sorted_pair.
      - apply py_sorted_sorted.
      - apply group_pids_NoDup.
      - intros p. unfold df'. rewrite group_pids_enrich. apply Hids.
      - done.
      - apply (bool_decide_eq_false_1 (str_le (T "75368") (T "65368"))).
        by vm_compute. }
    split.
    + rewrite (carry_over_map_label _ n 0 (T "65368")); [done | by rewrite Hg | rewrite Hg; simpl; lia].
    + rewrite (carry_over_map_label _ n 1 (T "75368")); [done | by rewrite Hg | rewrite Hg; simpl; lia].
  - intros r1 r2 n N1 N2 P1 P2. cbn [snd map].
    assert (Hg : group_pids [enrich r1; enrich r2] n = [T "65368"; T "75368"]).
    { apply group_pids_pair; unfold norm_of, pid_of.
      - by rewrite N1.
      - by rewrite N2.
      - by rewrite P1.
      - by rewrite P2. }
    split.
    + rewrite (carry_over_map_label _ n 0 (T "65368")); [done | by rewrite Hg | rewrite Hg; simpl; lia].
    + rewrite (carry_over_map_label _ n 1 (T "75368")); [done | by rewrite Hg | rewrite Hg; simpl; lia].
Qed.

(** *** The normal form of a name *)

(** The characters of a normalised name, before the white space is
    unified. *)
Lemma unaccent_lower_char c :
  let c' := lower_char (strip_accent c) in
  lower_char c' = c' /\ strip_accent c' = c'
  /\ is_any_quote c' = is_any_quote c.
Proof. revert c. intros [[] [] [] [] [] [] [] []]; vm_compute; done. Qed.

Lemma unaccent_lower_insensitive c :
  lower_char (strip_accent (lower_char c)) = lower_char (strip_accent c)
  /\ lower_char (strip_accent (strip_accent c)) = lower_char (strip_accent c).
Proof. revert c. intros [[] [] [] [] [] [] [] []]; vm_compute; done. Qed.

Lemma space_char_plain c :
  is_space c = true ->
  lower_char c = c /\ strip_accent c = c /\ is_any_quote c = false.
Proof. revert c. intros [[] [] [] [] [] [] [] []]; vm_compute; done. Qed.

Lemma unquoted_cons c (s : str) :
  filter (fun c => negb (is_any_quote c)) (c :: s)
  = if is_any_quote c then filter (fun c => negb (is_any_quote c)) s
    else c :: filter (fun c => negb (is_any_quote c)) s.
Proof. rewrite filter_cons. by destruct (is_any_quote c). Qed.

(** The first three steps of [normalize_name], character by character. *)
Lemma unquoted_lower_cons c (s : str) :
  filter (fun c => negb (is_any_quote c)) (lower (map strip_accent (c :: s)))
  = if is_any_quote c
    then filter (fun c => negb (is_any_quote c)) (lower (map strip_accent s))
    else lower_char (strip_accent c)
         :: filter (fun c => negb (is_any_quote c)) (lower (map strip_accent s)).
Proof.
  unfold lower. cbn [map]. rewrite unquoted_cons.
  by destruct (unaccent_lower_char c) as (_ & _ & ->).
Qed.

Lemma unquoted_lower_chars (s : str) :
  Forall (fun c => lower_char c = c /\ strip_accent c = c /\ is_any_quote c = false)
         (filter (fun c => negb (is_any_quote c)) (lower (map strip_accent s))).
Proof.
  induction s as [|c s IH]; [constructor|].
  rewrite unquoted_lower_cons. destruct (is_any_quote c) eqn:E; [done|].
  constructor; [|done].
  destruct (unaccent_lower_char c) as (H1 & H2 & H3). by rewrite H3.
Qed.

Lemma unquoted_lower_fixed (s : str) :
  Forall (fun c => lower_char c = c /\ strip_accent c = c /\ is_any_quote c = false) s ->
  filter (fun c => negb (is_any_quote c)) (lower (map strip_accent s)) = s.
Proof.
  induction 1 as [|c s (H1 & H2 & H3) _ IH]; [done|].
  by rewrite unquoted_lower_cons, H3, H2, H1, IH.
Qed.

(** *** Unified white space *)

Lemma collapse_spaces_spaced (s : str) : forall in_run,
  spaced in_run (collapse_spaces in_run s).
Proof.
  induction s as [|c s IH]; intros in_run; simpl; [done|].
  destruct (is_space c) eqn:E.
  - destruct in_run; [apply IH|]. simpl. split_and!; [done | done | apply IH].
  - simpl. rewrite E. apply IH.
Qed.

Lemma collapse_spaces_fixed (s : str) : forall in_run,
  spaced in_run s -> collapse_spaces in_run s = s.
Proof.
  induction s as [|c s IH]; intros in_run; simpl; [done|].
  destruct (is_space c) eqn:E.
  - intros (-> & -> & H). by rewrite (IH true).
  - intros H. by rewrite (IH false).
Qed.

Lemma spaced_weaken (s : str) : spaced true s -> spaced false s.
Proof. destruct s as [|c s]; simpl; [done|]. destruct (is_space c); [by intros (_ & ? & _) | done]. Qed.

Lemma spaced_any (s : str) in_run : spaced in_run s -> spaced false s.
Proof. destruct in_run; [apply spaced_weaken | done]. Qed.

Lemma spaced_app_l (s1 s2 : str) : forall in_run,
  spaced in_run (s1 ++ s2) -> spaced in_run s1.
Proof.
  induction s1 as [|c s1 IH]; intros in_run; simpl; [done|].
  destruct (is_space c).
  - intros (? & ? & H). split_and!; [done | done | by apply IH].
  - apply IH.
Qed.

Lemma spaced_lstrip (s : str) : forall in_run,
  spaced in_run s -> spaced false (lstrip_by is_space s).
Proof.
  induction s as [|c s IH]; intros in_run; simpl; [done|].
  destruct (is_space c) eqn:E.
  - intros (_ & _ & H). by apply (IH true).
  - intros H. simpl. by rewrite E.
Qed.

Lemma spaced_strip (s : str) in_run : spaced in_run s -> spaced false (strip s).
Proof.
  intros H. unfold strip, strip_by.
  destruct (rstrip_by_split is_space (lstrip_by is_space s)) as (ws & Hs & _).
  apply (spaced_app_l _ ws). rewrite <- Hs. by eapply spaced_lstrip.
Qed.

Lemma spaced_chars (s : str) : forall in_run,
  spaced in_run s -> Forall (fun c => is_space c = true -> c = " "%char) s.
Proof.
  induction s as [|c s IH]; intros in_run; simpl; [constructor|].
  destruct (is_space c) eqn:E.
  - intros (-> & _ & H). constructor; [done | by eapply IH].
  - intros H. constructor; [congruence | by eapply IH].
Qed.

Lemma spaced_no_double (s : str) : forall in_run,
  spaced in_run s -> contains (T "  ") s = false.
Proof.
  induction s as [|c s IH]; intros in_run; [done|].
  intros H. cbn [contains].
  assert (Hs : contains (T "  ") s = false).
  { simpl in H. destruct (is_space c); [destruct H as (_ & _ & H)|]; by eapply IH. }
  rewrite Hs. destruct (startswith (T "  ") (c :: s)) eqn:E; [|done]. exfalso.
  simpl in E. case_bool_decide as Hc; [|done]. subst c.
  destruct s as [|d s]; [done|]. case_bool_decide as Hd; [|done]. subst d.
  simpl in H. by destruct H as (_ & _ & _ & ? & _).
Qed.

Lemma collapse_spaces_chars P (s : str) :
  P " "%char -> Forall P s -> forall in_run, Forall P (collapse_spaces in_run s).
Proof.
  intros Hsp. induction 1 as [|c s Hc _ IH]; intros in_run; simpl; [constructor|].
  destruct (is_space c); [destruct in_run|]; try constructor; auto.
Qed.

Lemma strip_Forall (P : ascii -> Prop) (s : str) : Forall P s -> Forall P (strip s).
Proof.
  intros H. apply Forall_forall. intros c Hc.
  apply (proj1 (Forall_forall P s) H). revert Hc. unfold strip.
  intros Hc. unfold strip_by in Hc.
  destruct (rstrip_by_split is_space (lstrip_by is_space s)) as (ws & Hs & _).
  destruct (lstrip_by_split is_space s) as (ws' & Hs' & _).
  rewrite Hs', Hs, !elem_of_app. tauto.
Qed.

(** [normalize_name] returns a normal form: a second normalisation changes
    nothing.  The form is in lower case, without accent and without
    quote; it is trimmed, and its white space is single spaces. *)
Theorem normalize_name_normal_form (name : str) :
  let n := normalize_name name in
  normalize_name n = n
  /\ lower n = n /\ map strip_accent n = n /\ strip n = n
  /\ Forall (fun c => is_any_quote c = false /\ (is_space c = true -> c = " "%char)) n
  /\ contains (T "  ") n = false.
Proof.
  cbv zeta. unfold normalize_name at 2 3 4 5 6 7 8 9 10. cbv zeta.
  set (x := filter (fun c => negb (is_any_quote c)) (lower (map strip_accent name))).
  set (n := strip (collapse_spaces false x)).
  assert (Hsp : spaced false n).
  { eapply spaced_strip, collapse_spaces_spaced. }
  assert (Hch : Forall (fun c => lower_char c = c /\ strip_accent c = c
                                 /\ is_any_quote c = false) n).
  { apply strip_Forall, collapse_spaces_chars; [by vm_compute|].
    apply unquoted_lower_chars. }
  assert (Hstrip : strip n = n) by apply strip_by_strip_by.
  split_and!.
  - unfold normalize_name. cbv zeta.
    by rewrite (unquoted_lower_fixed n Hch), (collapse_spaces_fixed n false Hsp).
  - unfold lower. rewrite <- (map_id n) at 2. apply map_ext_Forall.
    eapply Forall_impl; [exact Hch|]. by intros c (? & _).
  - rewrite <- (map_id n) at 2. apply map_ext_Forall.
    eapply Forall_impl; [exact Hch|]. by intros c (_ & ? & _).
  - exact Hstrip.
  - pose proof (spaced_chars n false Hsp) as Hc.
    apply Forall_forall. intros c Hin. split.
    + by apply (proj1 (Forall_forall _ n) Hch c Hin).
    + by apply (proj1 (Forall_forall _ n) Hc c Hin).
  - by eapply spaced_no_double.
Qed.

(** *** What a name is compared by *)

Lemma unquoted_lower_ext (f : ascii -> ascii) (s : str) :
  (forall c, lower_char (strip_accent (f c)) = lower_char (strip_accent c)
             /\ is_any_quote (f c) = is_any_quote c) ->
  filter (fun c => negb (is_any_quote c)) (lower (map strip_accent (map f s)))
  = filter (fun c => negb (is_any_quote c)) (lower (map strip_accent s)).
Proof.
  intros Hf. induction s as [|c s IH]; [done|].
  change (map f (c :: s)) with (f c :: map f s).
  rewrite !unquoted_lower_cons, IH.
  by destruct (Hf c) as [-> ->].
Qed.

Lemma quote_invariant c :
  is_any_quote (lower_char c) = is_any_quote c
  /\ is_any_quote (strip_accent c) = is_any_quote c.
Proof. revert c. intros [[] [] [] [] [] [] [] []]; vm_compute; done. Qed.

(** [normalize_name] does not see the casing, the accents or the quotes of
    a name: two names that differ by these only have the same normal
    form. *)
Theorem normalize_name_insensitive (name : str) :
  normalize_name (lower name) = normalize_name name
  /\ normalize_name (map strip_accent name) = normalize_name name
  /\ normalize_name (filter (fun c => negb (is_any_quote c)) name) = normalize_name name.
Proof.
  unfold normalize_name. cbv zeta. split_and!.
  - unfold lower at 2. rewrite (unquoted_lower_ext lower_char); [done|].
    intros c. split; [apply unaccent_lower_insensitive | apply quote_invariant].
  - rewrite (unquoted_lower_ext strip_accent); [done|].
    intros c. split; [apply unaccent_lower_insensitive | apply quote_invariant].
  - do 2 f_equal. induction name as [|c name IH]; [done|].
    rewrite unquoted_cons, unquoted_lower_cons.
    destruct (is_any_quote c) eqn:E; [done|].
    by rewrite unquoted_lower_cons, E, IH.
Qed.

(* ================================================================== *)
(** ** The physical stock and the zero-stock filter *)

(** *** C7 *)

Lemma str_eqb_false a b : str_eqb a b = false -> a <> b.
Proof. unfold str_eqb. apply bool_decide_eq_false_1. Qed.

Lemma parse_chunk_well_keyed part r :
  parse_chunk part = Ok (Some r) -> well_keyed r.
Proof.
  unfold parse_chunk, mbind, result_bind. cbv zeta.
  destruct (length (split (T ";") part) <? 10)%nat; [done|].
  destruct (str_eqb _ [] || _ || _ || _)%bool eqn:Hg; [done|].
  destruct (contains _ _); [done|].
  apply orb_false_iff in Hg as [Hg Hnom]. apply orb_false_iff in Hg as [Hg Hart].
  apply orb_false_iff in Hg as [Hcb Htot].
  apply str_eqb_false in Hnom, Hart, Hcb, Htot.
  destruct (except_ValueError (int_of_decimal_text _) 0) as [qte|]; [|done].
  destruct (except_ValueError (py_float _) _) as [pa|]; [|done].
  destruct (except_ValueError (py_float _) _) as [pv|]; [|done].
  intros [= <-]. by repeat split.
Qed.

Lemma parse_chunks_well_keyed parts : forall acc records,
  Forall well_keyed acc -> parse_chunks parts acc = Ok records ->
  Forall well_keyed records.
Proof.
  induction parts as [|part parts IH]; intros acc records Hacc; simpl.
  - by intros [= <-].
  - unfold mbind, result_bind.
    destruct (parse_chunk part) as [[r|]|e] eqn:E; [| |done].
    + apply IH. apply Forall_app. split; [done|].
      apply Forall_singleton. by eapply parse_chunk_well_keyed.
    + by apply IH.
Qed.

(** C7, as the code has it.  Every record that [parse_physical_stock]
    produces has an article code, a name and a bar code that are not empty,
    and a bar code that is not TOTAL in any casing; its quantity is an
    integer and its prices are floats, which the parser leaves with their
    sign.  A dump that parses has at least one record. *)
Theorem parse_physical_stock_records decoded records :
  parse_physical_stock decoded = Ok records ->
  records <> []
  /\ Forall (fun r => Article r <> [] /\ Nom_catalogue r <> []
                      /\ Code_barre r <> []
                      /\ upper (Code_barre r) <> T "TOTAL") records.
Proof.
  unfold parse_physical_stock. cbv zeta.
  destruct (_detect_store _) as [[|c marker]|]; [done| |done].
  unfold mbind, result_bind.
  destruct (parse_chunks _ []) as [recs|e] eqn:E; [|done].
  destruct recs as [|r recs]; [done|]. intros [= <-]. split; [done|].
  apply (parse_chunks_well_keyed _ [] _ (Forall_nil_2 _) E).
Qed.

Lemma parse_physical_stock_records_witness :
  parse_physical_stock sample_dump
  = Ok [phys_row "1001" "65368-2" "VESTE NOIRE I029375.931.XX" "M" 3
          (S754_finite false 7036874417766400 (-49))
          (S754_finite false 7036874417766400 (-48));
        phys_row "1002" "75368-2" "VESTE NOIRE I029375.932.XX" "Taille unique" 0
          (S754_zero false)
          (S754_finite false 7036874417766400 (-46))]
  /\ Forall (fun r => Article r <> [] /\ Nom_catalogue r <> []
                      /\ Code_barre r <> []
                      /\ upper (Code_barre r) <> T "TOTAL")
       [phys_row "1001" "65368-2" "VESTE NOIRE I029375.931.XX" "M" 3
          (S754_finite false 7036874417766400 (-49))
          (S754_finite false 7036874417766400 (-48));
        phys_row "1002" "75368-2" "VESTE NOIRE I029375.932.XX" "Taille unique" 0
          (S754_zero false)
          (S754_finite false 7036874417766400 (-46))].
Proof.
  split; [vm_compute; reflexivity|].
  apply (parse_physical_stock_records sample_dump). vm_compute. reflexivity.
Defined.

(** C7 as stated fails: a quantity and prices written with a minus sign are
    parsed as they are. *)
Lemma parse_physical_stock_negative :
  parse_physical_stock negative_dump
  = Ok [phys_row "1001" "65368-2" "VESTE NOIRE" "M" (-3)
          (S754_finite true 7036874417766400 (-49))
          (S754_finite true 7036874417766400 (-48))].
Proof. vm_compute. reflexivity. Qed.

(** *** C8 and C5: the infinite quantity *)

(** C8.  [int(float(s))] raises [OverflowError] on an infinite [s], which
    the handler of [parse_physical_stock] does not catch: the run is
    aborted by a quantity field, with one valid record and a store
    marker. *)
Theorem parse_physical_stock_infinite_quantity :
  parse_physical_stock infinite_dump = Raise OverflowError.
Proof. vm_compute. reflexivity. Qed.

(** C5.  The same conversion in [to_int]: the filter raises on a titled row
    whose quantity is infinite. *)
Theorem filter_zero_stock_infinite_quantity :
  filter_zero_stock_products [shop_row "Veste" "Carhartt" "65368-2" "inf"]
  = Raise OverflowError.
Proof. vm_compute. reflexivity. Qed.

(** *** What aborts the parser *)

Lemma py_float_raises s e : py_float s = Raise e -> e = ValueError.
Proof.
  unfold py_float. cbv zeta.
  destruct (match strip_by is_float_space s with [] => _ | _ :: _ => _ end) as [neg body].
  destruct (str_eqb _ _ || str_eqb _ _)%bool; [done|].
  destruct (str_eqb _ _); [done|].
  destruct (parse_floatnumber neg body); [done|]. by intros [= <-].
Qed.

Lemma except_py_float s d : exists x, except_ValueError (py_float s) d = Ok x.
Proof.
  destruct (py_float s) as [x|e] eqn:E; [by exists x|].
  apply py_float_raises in E as ->. by exists d.
Qed.

Lemma int_of_decimal_text_overflow s e :
  except_ValueError (int_of_decimal_text s) 0 = Raise e ->
  e = OverflowError
  /\ exists neg, py_float (replace (T ",") (T ".") s) = Ok (S754_infinity neg).
Proof.
  unfold int_of_decimal_text, mbind, result_bind.
  destruct (py_float _) as [x|e'] eqn:E.
  - destruct x as [?|neg| |sg ? ?]; simpl;
      [done | intros [= <-]; eauto | done | by destruct sg].
  - apply py_float_raises in E as ->. done.
Qed.

Lemma parse_chunk_raises part e :
  parse_chunk part = Raise e ->
  e = OverflowError
  /\ exists neg, py_float (quantity_text part) = Ok (S754_infinity neg).
Proof.
  unfold parse_chunk, quantity_text, mbind, result_bind. cbv zeta.
  destruct (length (split (T ";") part) <? 10)%nat; [done|].
  destruct (str_eqb _ [] || _ || _ || _)%bool; [done|].
  destruct (contains _ _); [done|].
  destruct (except_ValueError (int_of_decimal_text _) 0) as [qte|e'] eqn:Eq.
  - destruct (except_py_float
                (replace (T ",") (T ".")
                   (if (7 <? length (split (T ";") part))%nat
                    then strip (field (split (T ";") part) 7) else []))
                (S754_zero false)) as [pa ->].
    destruct (except_py_float
                (replace (T ",") (T ".")
                   (if (9 <? length (split (T ";") part))%nat
                    then strip (field (split (T ";") part) 9) else []))
                (S754_zero false)) as [pv ->].
    done.
  - intros [= <-]. by apply int_of_decimal_text_overflow.
Qed.

Lemma parse_chunks_raises parts : forall acc e,
  parse_chunks parts acc = Raise e ->
  exists part, part ∈ parts /\ parse_chunk part = Raise e.
Proof.
  induction parts as [|part parts IH]; intros acc e; cbn [parse_chunks]; [done|].
  unfold mbind, result_bind.
  destruct (parse_chunk part) as [r|e'] eqn:E.
  - intros H. apply IH in H as (p & Hp & He). exists p.
    split; [by apply list_elem_of_further | done].
  - intros [= <-]. exists part. split; [apply list_elem_of_here | done].
Qed.

(** *** The zero-stock filter on tables that it can read *)

Lemma filter_iff_elem {A} (P1 P2 : A -> Prop)
    `{!forall x, Decision (P1 x), !forall x, Decision (P2 x)} (l : list A) :
  (forall x, x ∈ l -> P1 x <-> P2 x) -> filter P1 l = filter P2 l.
Proof.
  induction l as [|x l IH]; intros Hiff; [done|].
  rewrite !filter_cons, IH.
  - pose proof (Hiff x (list_elem_of_here x l)) as Hx.
    destruct (decide (P1 x)), (decide (P2 x)); tauto.
  - intros y Hy. apply Hiff. by apply list_elem_of_further.
Qed.

Lemma group_has_stock_cons r df t :
  group_has_stock (r :: df) t
  = (bool_decide (strip (Title r) = t) && has_stock r || group_has_stock df t)%bool.
Proof. reflexivity. Qed.

Lemma group_has_stock_absent df t :
  t ∉ map (fun r => strip (Title r)) df -> group_has_stock df t = false.
Proof.
  induction df as [|r df IH]; [done|].
  rewrite group_has_stock_cons. cbn [map].
  rewrite not_elem_of_cons. intros [Hne Hout].
  rewrite bool_decide_eq_false_2 by congruence.
  cbn [andb orb]. by apply IH.
Qed.

Lemma has_stock_step_spec (d : gmap str bool) row n :
  strip (Title row) <> [] -> to_int (Quantity row) = Ok n ->
  exists d', has_stock_step d row = Ok d'
    /\ forall t, d' !! t
         = if decide (t = strip (Title row))
           then Some (default false (d !! t) || has_stock row)%bool
           else d !! t.
Proof.
  intros Ht Hn. unfold has_stock_step, has_stock, mbind, result_bind. cbv zeta.
  rewrite bool_decide_eq_false_2, Hn by done. eexists. split; [done|].
  intros t. destruct (decide (t = strip (Title row))) as [->|Hne].
  - destruct (d !! strip (Title row)) as [b|] eqn:E; destruct (0 <? n);
      rewrite ?lookup_insert_eq, ?E; cbn [default orb]; rewrite ?orb_true_r, ?orb_false_r; done.
  - destruct (d !! strip (Title row)); destruct (0 <? n);
      rewrite ?lookup_insert_ne by done; done.
Qed.

Lemma has_stock_pass_spec rows : forall (d : gmap str bool),
  Forall quantity_reads rows ->
  exists d', has_stock_pass rows d = Ok d'
    /\ forall t, d' !! t
         = if decide (t <> [] /\ t ∈ map (fun r => strip (Title r)) rows)
           then Some (default false (d !! t) || group_has_stock rows t)%bool
           else d !! t.
Proof.
  induction rows as [|row rows IH]; intros d Hall.
  - exists d. split; [done|]. intros t. rewrite decide_False; [done|].
    intros [_ H]. by apply elem_of_nil in H.
  - apply Forall_cons in Hall as [Hrow Hall].
    cbn [has_stock_pass map]. unfold mbind, result_bind.
    destruct (decide (strip (Title row) = [])) as [Hblank|Htitled].
    + unfold has_stock_step at 1. cbv zeta.
      rewrite bool_decide_eq_true_2 by done.
      destruct (IH d Hall) as (d' & -> & Hd'). exists d'. split; [done|].
      intros t. rewrite Hd', group_has_stock_cons.
      destruct (decide (t <> [] /\ t ∈ map (fun r => strip (Title r)) rows)) as [[Hne Hin]|Hno].
      * rewrite decide_True by (split; [done | by apply list_elem_of_further]).
        rewrite bool_decide_eq_false_2 by congruence. done.
      * rewrite decide_False; [done|]. intros [Hne Hin].
        apply elem_of_cons in Hin as [->|Hin]; [done|]. by apply Hno.
    + destruct (Hrow Htitled) as [n Hn].
      destruct (has_stock_step_spec d row n Htitled Hn) as (d2 & -> & Hd2).
      destruct (IH d2 Hall) as (d' & -> & Hd'). exists d'. split; [done|].
      intros t. rewrite Hd', Hd2, group_has_stock_cons.
      destruct (decide (t = strip (Title row))) as [->|Hne].
      * rewrite bool_decide_eq_true_2 by done. cbn [andb].
        rewrite (decide_True (P := _ /\ _ ∈ _ :: _))
          by (split; [done | apply list_elem_of_here]).
        destruct (decide (_ /\ _ ∈ map _ rows)) as [?|Hno].
        -- cbn [default]. by rewrite orb_assoc.
        -- rewrite (group_has_stock_absent rows); [by rewrite orb_false_r|].
           intros Hin. by apply Hno.
      * rewrite bool_decide_eq_false_2 by congruence. cbn [andb orb].
        destruct (decide (t <> [] /\ t ∈ map (fun r => strip (Title r)) rows)) as [[Hn0 Hin]|Hno].
        -- by rewrite decide_True by (split; [done | by apply list_elem_of_further]).
        -- rewrite decide_False; [done|]. intros [Hn0 Hin].
           apply elem_of_cons in Hin as [->|Hin]; [done|]. by apply Hno.
Qed.

(** On a table whose titled rows have quantities that [to_int] converts,
    [filter_zero_stock_products] returns the rows without title and the
    rows of the titles that have a row with a quantity above 0, in the
    order of the table: a group is kept whole or dropped whole. *)
Theorem filter_zero_stock_products_spec (df : list ShopRow) :
  Forall quantity_reads df ->
  filter_zero_stock_products df = Ok (filter (kept df) df).
Proof.
  intros Hall. unfold filter_zero_stock_products.
  destruct df as [|row0 df0] eqn:Edf; [done|]. rewrite <- Edf in *. clear Edf.
  unfold mbind, result_bind.
  destruct (has_stock_pass_spec df ∅ Hall) as (d & -> & Hd). f_equal.
  apply filter_iff_elem. intros r Hr. rewrite Hd, lookup_empty. unfold kept.
  destruct (decide (strip (Title r) = [])) as [Hb|Ht].
  - rewrite decide_False by (by intros [? _]). cbn [default]. split; [by left | done].
  - rewrite decide_True.
    + cbn [default orb]. split; [by right | by intros [?|?]].
    + split; [done|]. apply list_elem_of_fmap. by exists r.
Qed.

Lemma filter_zero_stock_products_spec_witness :
  Forall quantity_reads stock_groups
  /\ filter_zero_stock_products stock_groups
     = Ok [shop_row "Veste" "Carhartt" "1-1" "0"; shop_row "Veste" "" "1-2" "0";
           shop_row "Veste" "" "1-3" "3"; shop_row "" "" "4-1" "0"].
Proof.
  assert (H : Forall quantity_reads stock_groups).
  { repeat constructor; intros _; eexists; vm_compute; reflexivity. }
  split; [exact H|].
  rewrite (filter_zero_stock_products_spec stock_groups H).
  vm_compute. reflexivity.
Defined.

(** *** What aborts the zero-stock filter *)

Lemma to_int_raises val e :
  to_int val = Raise e
  <-> e = OverflowError
      /\ exists neg, py_float (replace (T ",") (T ".") val) = Ok (S754_infinity neg).
Proof.
  split.
  - apply int_of_decimal_text_overflow.
  - intros [-> [neg Hneg]]. unfold to_int, int_of_decimal_text, mbind, result_bind.
    by rewrite Hneg.
Qed.

Lemma has_stock_step_raises d row e :
  has_stock_step d row = Raise e <-> e = OverflowError /\ reads_infinite row.
Proof.
  unfold has_stock_step, reads_infinite, mbind, result_bind. cbv zeta.
  case_bool_decide as Ht.
  - split; [done | by intros [_ [? _]]].
  - destruct (to_int (Quantity row)) as [n|e'] eqn:E.
    + split; [done|]. intros [-> [_ Hinf]].
      assert (to_int (Quantity row) = Raise OverflowError) by (by apply to_int_raises).
      congruence.
    + apply to_int_raises in E as [-> Hinf].
      split; [by intros [= <-] | by intros [-> _]].
Qed.

Lemma has_stock_pass_raises rows : forall d,
  (forall e, has_stock_pass rows d = Raise e -> e = OverflowError)
  /\ ((exists e, has_stock_pass rows d = Raise e) <-> Exists reads_infinite rows).
Proof.
  induction rows as [|row rows IH]; intros d; cbn [has_stock_pass].
  - split; [done|]. split; [by intros [? ?] | by intros ?%Exists_nil].
  - unfold mbind, result_bind.
    destruct (has_stock_step d row) as [d'|e'] eqn:E.
    + destruct (IH d') as [I1 I2]. split; [exact I1|].
      rewrite Exists_cons, I2. split; [by right|].
      intros [Hrow|?]; [|done].
      assert (has_stock_step d row = Raise OverflowError)
        by (by apply has_stock_step_raises).
      congruence.
    + apply has_stock_step_raises in E as [-> Hrow]. split.
      * by intros e [= <-].
      * rewrite Exists_cons. split; [by left | by exists OverflowError].
Qed.

(** [filter_zero_stock_products] raises exactly when a row of the table has
    a title and a quantity that [float] reads as an infinity, and the
    exception is then [OverflowError]: a blank quantity, one that is not a
    number or not a whole number, and the quantity of a row without title
    never abort the filter. *)
Theorem filter_zero_stock_products_raises (df : list ShopRow) :
  (forall e, filter_zero_stock_products df = Raise e -> e = OverflowError)
  /\ ((exists e, filter_zero_stock_products df = Raise e) <-> Exists reads_infinite df).
Proof.
  unfold filter_zero_stock_products.
  destruct df as [|row0 df0] eqn:Edf.
  { split; [done|]. split; [by intros [? ?] | by intros ?%Exists_nil]. }
  rewrite <- Edf. clear Edf. unfold mbind, result_bind.
  destruct (has_stock_pass_raises df ∅) as [H1 H2].
  destruct (has_stock_pass df ∅) as [d|e'] eqn:E.
  - split; [done|]. rewrite <- H2. split; by intros [? ?].
  - split.
    + intros e [= <-]. by apply H1.
    + rewrite <- H2. split; intros _; by exists e'.
Qed.

(** *** Filtering twice *)

Lemma filter_all {A} (P : A -> Prop) `{!forall x, Decision (P x)} (l : list A) :
  Forall P l -> filter P l = l.
Proof.
  induction 1 as [|x l Hx _ IH]; [done|].
  by rewrite filter_cons, decide_True, IH.
Qed.

Lemma pass_reads rows : forall d d',
  has_stock_pass rows d = Ok d' -> Forall quantity_reads rows.
Proof.
  induction rows as [|row rows IH]; intros d d'; cbn [has_stock_pass]; [done|].
  unfold mbind, result_bind.
  destruct (has_stock_step d row) as [d1|e] eqn:E; [|done].
  intros H. constructor; [|by eapply IH].
  intros Ht. revert E. unfold has_stock_step, mbind, result_bind. cbv zeta.
  rewrite bool_decide_eq_false_2 by done.
  destruct (to_int (Quantity row)) as [n|e]; [by exists n | done].
Qed.

Lemma filter_reads (df df' : list ShopRow) :
  filter_zero_stock_products df = Ok df' ->
  Forall quantity_reads df /\ df' = filter (kept df) df.
Proof.
  intros H.
  assert (Hall : Forall quantity_reads df).
  { revert H. unfold filter_zero_stock_products.
    destruct df as [|row0 df0] eqn:Edf; [done|]. rewrite <- Edf.
    unfold mbind, result_bind.
    destruct (has_stock_pass df ∅) as [d|e] eqn:E; [|done].
    intros _. by eapply pass_reads. }
  split; [done|].
  revert H. unfold filter_zero_stock_products.
  destruct df as [|row0 df0] eqn:Edf; [by intros [= <-]|]. rewrite <- Edf in *.
  unfold mbind, result_bind.
  destruct (has_stock_pass_spec df ∅ Hall) as (d & -> & Hd).
  intros [= <-]. apply filter_iff_elem. intros r Hr.
  rewrite Hd, lookup_empty. unfold kept.
  destruct (decide (strip (Title r) = [])) as [Hb|Ht].
  - rewrite decide_False by (by intros [? _]). cbn [default]. split; [by left | done].
  - rewrite decide_True.
    + cbn [default orb]. split; [by right | by intros [?|?]].
    + split; [done|]. apply list_elem_of_fmap. by exists r.
Qed.

Lemma group_has_stock_true df t :
  group_has_stock df t = true
  <-> exists r, r ∈ df /\ strip (Title r) = t /\ has_stock r = true.
Proof.
  induction df as [|r df IH].
  - split; [done | by intros (? & ?%elem_of_nil & _)].
  - rewrite group_has_stock_cons, orb_true_iff, andb_true_iff, bool_decide_eq_true, IH.
    split.
    + intros [[? ?]|(r' & ? & ? & ?)].
      * exists r. split_and!; [apply list_elem_of_here | done | done].
      * exists r'. split_and!; [by apply list_elem_of_further | done | done].
    + intros (r' & [->|Hin]%elem_of_cons & ? & ?); [by left|].
      right. by exists r'.
Qed.

(** The filter is idempotent: on a table that it returned it changes
    nothing. *)
Theorem filter_zero_stock_products_idempotent (df df' : list ShopRow) :
  filter_zero_stock_products df = Ok df' ->
  filter_zero_stock_products df' = Ok df'.
Proof.
  intros H. apply filter_reads in H as [Hall ->].
  set (df' := filter (kept df) df).
  assert (Hall' : Forall quantity_reads df').
  { apply Forall_forall. intros r Hr. apply list_elem_of_filter in Hr as [_ Hr].
    by eapply Forall_forall in Hall. }
  assert (Hk : Forall (kept df') df').
  { apply Forall_forall. intros r Hr.
    pose proof Hr as Hr'. apply list_elem_of_filter in Hr' as [[Hb|Hg] Hin]; [by left|].
    right. apply group_has_stock_true.
    apply group_has_stock_true in Hg as (r2 & Hin2 & Ht2 & Hs2).
    exists r2. split_and!; [|done|done].
    apply list_elem_of_filter. split; [|done].
    right. apply group_has_stock_true. exists r2. by rewrite Ht2. }
  unfold filter_zero_stock_products.
  destruct df' as [|row0 df0] eqn:Edf; [done|]. rewrite <- Edf in *.
  unfold mbind, result_bind.
  destruct (has_stock_pass_spec df' ∅ Hall') as (d & -> & Hd). f_equal.
  rewrite <- (filter_all (kept df') df' Hk) at 2.
  apply filter_iff_elem. intros r Hr. rewrite Hd, lookup_empty. unfold kept.
  destruct (decide (strip (Title r) = [])) as [Hb|Ht].
  - rewrite decide_False by (by intros [? _]). cbn [default]. split; [by left | done].
  - rewrite decide_True.
    + cbn [default orb]. split; [by right | by intros [?|?]].
    + split; [done|]. apply list_elem_of_fmap. by exists r.
Qed.

Lemma filter_zero_stock_products_idempotent_witness :
  filter_zero_stock_products stock_groups
  = Ok [shop_row "Veste" "Carhartt" "1-1" "0"; shop_row "Veste" "" "1-2" "0";
        shop_row "Veste" "" "1-3" "3"; shop_row "" "" "4-1" "0"]
  /\ filter_zero_stock_products
       [shop_row "Veste" "Carhartt" "1-1" "0"; shop_row "Veste" "" "1-2" "0";
        shop_row "Veste" "" "1-3" "3"; shop_row "" "" "4-1" "0"]
     = Ok [shop_row "Veste" "Carhartt" "1-1" "0"; shop_row "Veste" "" "1-2" "0";
           shop_row "Veste" "" "1-3" "3"; shop_row "" "" "4-1" "0"].
Proof.
  assert (H : filter_zero_stock_products stock_groups
    = Ok [shop_row "Veste" "Carhartt" "1-1" "0"; shop_row "Veste" "" "1-2" "0";
          shop_row "Veste" "" "1-3" "3"; shop_row "" "" "4-1" "0"])
    by (vm_compute; reflexivity).
  split; [exact H|].
  exact (filter_zero_stock_products_idempotent stock_groups _ H).
Defined.

(** *** Splitting at a character *)

Lemma startswith_char c a (s : str) : startswith [c] (a :: s) = bool_decide (c = a).
Proof. simpl. by case_bool_decide. Qed.

Lemma split_char_cons c a (s : str) :
  split [c] (a :: s)
  = if bool_decide (c = a) then [] :: split [c] s
    else match split [c] s with
         | p :: ps => (a :: p) :: ps
         | [] => [[a]]
         end.
Proof. unfold split. cbn [split_go]. by rewrite startswith_char. Qed.

Lemma split_char_parts c (s : str) : Forall (fun p => c ∉ p) (split [c] s).
Proof.
  induction s as [|a s IH].
  - repeat constructor. apply not_elem_of_nil.
  - rewrite split_char_cons. case_bool_decide as Hc.
    + constructor; [apply not_elem_of_nil | done].
    + destruct (split [c] s) as [|p ps].
      * repeat constructor. by intros [->|?%elem_of_nil]%elem_of_cons.
      * apply Forall_cons in IH as [Hp Hps]. constructor; [|done].
        by intros [->|?]%elem_of_cons.
Qed.

(** The first part is what precedes the first occurrence of the
    separator. *)
Lemma split_char_head c (s : str) :
  exists p ps, split [c] s = p :: ps /\ (c ∉ p)
               /\ (s = p \/ exists rest, s = p ++ c :: rest).
Proof.
  induction s as [|a s (p & ps & IH & Hp & Hs)].
  - exists [], []. split_and!; [done | apply not_elem_of_nil | by left].
  - rewrite split_char_cons. case_bool_decide as Hc.
    + subst a. exists [], (split [c] s).
      split_and!; [done | apply not_elem_of_nil | right; by exists s].
    + rewrite IH. exists (a :: p), ps. split_and!; [done | |].
      * by intros [->|?]%elem_of_cons.
      * destruct Hs as [->|(rest & ->)]; [by left | right; by exists rest].
Qed.

(** [get_product_id] returns what precedes the first hyphen of the bar
    code, and the whole bar code when it has no hyphen. *)
Theorem get_product_id_prefix (barcode : str) :
  (HYPHEN ∉ get_product_id barcode)
  /\ (barcode = get_product_id barcode
      \/ exists variant, barcode = get_product_id barcode ++ HYPHEN :: variant).
Proof.
  unfold get_product_id.
  destruct (split_char_head HYPHEN barcode) as (p & ps & Hsplit & Hp & Hs).
  change (T "-") with [HYPHEN]. by rewrite Hsplit.
Qed.

(** *** The texts of a record *)

Lemma strip_by_elem p (s : str) c : c ∈ strip_by p s -> c ∈ s.
Proof.
  unfold strip_by. intros H.
  destruct (rstrip_by_split p (lstrip_by p s)) as (ws & Hs & _).
  destruct (lstrip_by_split p s) as (ws' & Hs' & _).
  rewrite Hs', Hs. rewrite !elem_of_app. tauto.
Qed.

Lemma field_elem c fields i :
  Forall (fun p : str => c ∉ p) fields -> c ∉ field fields i.
Proof.
  intros H. unfold field. revert i.
  induction H as [|p fields Hp _ IH]; intros [|i]; simpl;
    try apply not_elem_of_nil; [done | apply IH].
Qed.

Lemma _normalize_size_cases size :
  (_normalize_size size = T "Taille unique"
   /\ strip (lower size) ∈ _ONE_SIZE_VARIANTS)
  \/ (_normalize_size size = size /\ strip (lower size) ∉ _ONE_SIZE_VARIANTS).
Proof. unfold _normalize_size. case_bool_decide; [by left | by right]. Qed.

Lemma _normalize_size_twice size :
  _normalize_size (_normalize_size size) = _normalize_size size.
Proof.
  destruct (_normalize_size_cases size) as [[-> _]|[-> Hout]].
  - vm_compute. reflexivity.
  - unfold _normalize_size. by rewrite bool_decide_eq_false_2.
Qed.

Lemma _normalize_size_clean size :
  strip size = size -> SEMICOLON ∉ size ->
  strip (_normalize_size size) = _normalize_size size
  /\ (SEMICOLON ∉ _normalize_size size).
Proof.
  intros Hs Hc. destruct (_normalize_size_cases size) as [[-> _]|[-> _]]; [|done].
  split; [vm_compute; reflexivity|].
  apply (bool_decide_eq_false_1 (SEMICOLON ∈ T "Taille unique")). vm_compute. reflexivity.
Qed.

Lemma parse_chunk_clean part r : parse_chunk part = Ok (Some r) -> clean_fields r.
Proof.
  unfold parse_chunk, mbind, result_bind. cbv zeta.
  pose proof (split_char_parts SEMICOLON part) as Hparts.
  change [SEMICOLON] with (T ";") in Hparts.
  destruct (length (split (T ";") part) <? 10)%nat; [done|].
  destruct (str_eqb _ [] || _ || _ || _)%bool; [done|].
  destruct (contains _ _); [done|].
  destruct (except_ValueError (int_of_decimal_text _) 0) as [qte|]; [|done].
  destruct (except_ValueError (py_float _) _) as [pa|]; [|done].
  destruct (except_ValueError (py_float _) _) as [pv|]; [|done].
  intros [= <-]. unfold clean_fields.
  cbn [Article Code_barre Nom_catalogue Taille Name_no_sku Norm_name Product_ID].
  assert (Hf : forall i, SEMICOLON ∉ strip (field (split (T ";") part) i)).
  { intros i H. apply strip_by_elem in H. by apply (field_elem _ _ i Hparts). }
  assert (Hq : forall i, SEMICOLON ∉ strip (strip_quotes (strip (field (split (T ";") part) i)))).
  { intros i H. apply strip_by_elem, strip_by_elem in H. by apply (Hf i). }
  destruct (_normalize_size_clean
              (strip (strip_quotes (strip (field (split (T ";") part) 3)))))
    as [N1 N2]; [apply strip_by_strip_by | apply Hq |].
  split_and!; try done.
  - repeat constructor; try apply strip_by_strip_by; try apply Hf; try apply Hq; done.
  - apply _normalize_size_twice.
Qed.

Lemma parse_chunks_clean parts : forall acc records,
  Forall clean_fields acc -> parse_chunks parts acc = Ok records ->
  Forall clean_fields records.
Proof.
  induction parts as [|part parts IH]; intros acc records Hacc; simpl.
  - by intros [= <-].
  - unfold mbind, result_bind.
    destruct (parse_chunk part) as [[r|]|e] eqn:E; [| |done].
    + apply IH. apply Forall_app. split; [done|].
      apply Forall_singleton. by eapply parse_chunk_clean.
    + by apply IH.
Qed.

(** In every record that [parse_physical_stock] returns, the article code,
    the bar code, the name and the size are trimmed and hold no semicolon,
    and the size is a fixed point of [_normalize_size]: the bar codes
    compare with the trimmed bar codes of the export as they are. *)
Theorem parse_physical_stock_fields decoded records :
  parse_physical_stock decoded = Ok records -> Forall clean_fields records.
Proof.
  unfold parse_physical_stock. cbv zeta.
  destruct (_detect_store _) as [[|c marker]|]; [done| |done].
  unfold mbind, result_bind.
  destruct (parse_chunks _ []) as [recs|e] eqn:E; [|done].
  destruct recs as [|r recs]; [done|]. intros [= <-].
  apply (parse_chunks_clean _ [] _ (Forall_nil_2 _) E).
Qed.

Lemma parse_physical_stock_fields_witness :
  parse_physical_stock sample_dump
  = Ok [phys_row "1001" "65368-2" "VESTE NOIRE I029375.931.XX" "M" 3
          (binary64 false 25 (-1)) (binary64 false 25 0);
        phys_row "1002" "75368-2" "VESTE NOIRE I029375.932.XX" "Taille unique" 0
          (S754_zero false) (binary64 false 100 0)]
  /\ Forall clean_fields
       [phys_row "1001" "65368-2" "VESTE NOIRE I029375.931.XX" "M" 3
          (binary64 false 25 (-1)) (binary64 false 25 0);
        phys_row "1002" "75368-2" "VESTE NOIRE I029375.932.XX" "Taille unique" 0
          (S754_zero false) (binary64 false 100 0)].
Proof.
  assert (H : parse_physical_stock sample_dump
    = Ok [phys_row "1001" "65368-2" "VESTE NOIRE I029375.931.XX" "M" 3
            (binary64 false 25 (-1)) (binary64 false 25 0);
          phys_row "1002" "75368-2" "VESTE NOIRE I029375.932.XX" "Taille unique" 0
            (S754_zero false) (binary64 false 100 0)])
    by (vm_compute; reflexivity).
  split; [exact H|].
  exact (parse_physical_stock_fields sample_dump _ H).
Defined.

(** *** What a match consumes *)

Lemma rep_sound p k : forall s min pos g r,
  rep p k min s pos g = Some r ->
  exists run rest,
    s = run ++ rest /\ Forall (fun c => p c = true) run
    /\ (min <= length run)%nat /\ k rest (pos + length run)%nat g = Some r.
Proof.
  induction s as [|c s IH]; intros min pos g r; simpl.
  - destruct (Nat.eqb min 0) eqn:E; [|done]. apply Nat.eqb_eq in E as ->.
    intros H. exists [], []. rewrite Nat.add_0_r. by split_and!.
  - assert (Hstop : (if Nat.eqb min 0 then k (c :: s) pos g else None) = Some r ->
              exists run rest,
                c :: s = run ++ rest /\ Forall (fun c => p c = true) run
                /\ (min <= length run)%nat /\ k rest (pos + length run)%nat g = Some r).
    { destruct (Nat.eqb min 0) eqn:E; [|done]. apply Nat.eqb_eq in E as ->.
      intros H. exists [], (c :: s). rewrite Nat.add_0_r. by split_and!. }
    destruct (p c) eqn:Hc; [|exact Hstop].
    destruct (rep p k (Nat.pred min) s (S pos) g) as [r'|] eqn:Hr; [|exact Hstop].
    intros [= <-]. apply IH in Hr as (run & rest & -> & Hrun & Hmin & Hk).
    exists (c :: run), rest. split_and!; [done | by constructor | simpl; lia |].
    by replace (pos + length (c :: run))%nat with (S pos + length run)%nat
      by (simpl; lia).
Qed.

Lemma search_from_inv pat : forall s pos start g,
  search_from pat s pos = Some (start, g) ->
  exists j, start = (pos + j)%nat /\ (j <= length s)%nat
            /\ match_here pat (drop j s) start (0, 0)%nat = Some g.
Proof.
  induction s as [|c s IH]; intros pos start g; simpl.
  - destruct (match_here pat [] pos (0, 0)%nat) as [g'|] eqn:E; [|done].
    intros [= <- <-]. exists 0%nat. rewrite Nat.add_0_r. by split_and!.
  - destruct (match_here pat (c :: s) pos (0, 0)%nat) as [g'|] eqn:E.
    + intros [= <- <-]. exists 0%nat. rewrite Nat.add_0_r. split_and!; [done | lia | done].
    + intros H. apply IH in H as (j & -> & Hj & Hm). exists (S j).
      split_and!; [lia | lia |]. simpl.
      by replace (pos + S j)%nat with (S pos + j)%nat by lia.
Qed.

(** *** The store pattern *)

Lemma store_tail_inv s pos g r :
  match_here store_tail s pos g = Some r ->
  r = g /\ exists rest, s = SEMICOLON :: rest.
Proof.
  unfold store_tail. cbn [match_here].
  destruct s as [|c s]; [done|]. case_bool_decide as Hc; [|done]. subst c.
  intros H. split; [|by exists s].
  apply rep_sound in H as (r1 & s1 & _ & _ & _ & H).
  destruct s1 as [|c1 s1]; [done|]. case_bool_decide; [|done].
  apply rep_sound in H as (r2 & s2 & _ & _ & _ & H).
  destruct s2 as [|c2 s2]; [done|]. case_bool_decide; [|done].
  apply rep_sound in H as (r3 & s3 & _ & _ & _ & H).
  by injection H.
Qed.

Lemma AZ_not_space c : is_AZ c = true -> is_space c = false.
Proof. revert c. intros [[] [] [] [] [] [] [] []]; vm_compute; congruence. Qed.

Lemma match_store_inv s pos g r :
  match_here _STORE_PATTERN s pos g = Some r ->
  exists a run b rest,
    s = a :: run ++ b :: SEMICOLON :: rest
    /\ is_AZ a = true /\ is_AZ b = true
    /\ Forall (fun c => is_AZ_or_space c = true) run /\ (1 <= length run)%nat
    /\ r = (pos, pos + 2 + length run)%nat.
Proof.
  change (match_here _STORE_PATTERN s pos g)
    with (match s with
          | a :: s' =>
              if is_AZ a
              then rep is_AZ_or_space
                     (match_here (RCls is_AZ :: RClose :: store_tail))
                     1 s' (S pos) (pos, snd g)
              else None
          | [] => None
          end).
  destruct s as [|a s]; [done|]. destruct (is_AZ a) eqn:Ha; [|done].
  intros H. apply rep_sound in H as (run & s1 & -> & Hrun & Hlen & H).
  destruct s1 as [|b s1]; [done|].
  change (match_here (RCls is_AZ :: RClose :: store_tail) (b :: s1)
            (S pos + length run) (pos, snd g))
    with (if is_AZ b
          then match_here store_tail s1 (S (S pos + length run))
                 (pos, S (S pos + length run))
          else None) in H.
  destruct (is_AZ b) eqn:Hb; [|done].
  apply store_tail_inv in H as [-> [rest ->]].
  exists a, run, b, rest. split_and!; try done. f_equal. lia.
Qed.

(** *** The marker *)

Lemma startswith_inv (p s : str) :
  startswith p s = true -> exists post, s = p ++ post.
Proof.
  revert s. induction p as [|a p IH]; intros s; simpl.
  - intros _. by exists s.
  - destruct s as [|b s]; [done|]. case_bool_decide as Hab; [|done]. subst b.
    intros H. apply IH in H as [post ->]. by exists post.
Qed.

Lemma contains_inv (sub s : str) :
  contains sub s = true -> exists pre post, s = pre ++ sub ++ post.
Proof.
  induction s as [|c s IH]; simpl.
  - destruct (startswith sub []) eqn:E; [|done]. intros _.
    apply startswith_inv in E as [post E]. by exists [], post.
  - destruct (startswith sub (c :: s)) eqn:E.
    + intros _. apply startswith_inv in E as [post E]. by exists [], post.
    + intros H. apply IH in H as (pre & post & ->). by exists (c :: pre), post.
Qed.

Lemma split_go_nonempty sep : forall s skip, split_go sep skip s <> [].
Proof.
  induction s as [|c s IH]; intros skip; simpl; [done|].
  destruct skip; [|apply IH].
  destruct (startswith sep (c :: s)); [done|].
  by destruct (split_go sep 0 s).
Qed.

Lemma split_occurrence (sep pre post : str) :
  sep <> [] -> (2 <= length (split sep (pre ++ sep ++ post)))%nat.
Proof.
  intros Hsep. unfold split. induction pre as [|c pre IH].
  - destruct sep as [|a sep]; [done|]. cbn [app split_go].
    change (a :: sep ++ post) with ((a :: sep) ++ post).
    rewrite startswith_app. cbn [length].
    pose proof (split_go_nonempty (a :: sep) (sep ++ post)
                  (Nat.pred (length (a :: sep)))) as Hne.
    cbn [length Nat.pred] in *.
    destruct (split_go _ _ _) as [|p0 ps0]; [by exfalso; apply Hne|]. simpl. lia.
  - cbn [app split_go]. destruct (startswith sep (c :: pre ++ sep ++ post)).
    + pose proof (split_go_nonempty sep (pre ++ sep ++ post)
                    (Nat.pred (length sep))) as Hne.
      destruct (split_go sep (Nat.pred (length sep)) (pre ++ sep ++ post)) as [|p0 ps0];
        [by exfalso; apply Hne|]. simpl. lia.
    + destruct (split_go sep 0 (pre ++ sep ++ post)) as [|p ps]; [simpl in IH; lia|].
      exact IH.
Qed.

(** The shape of the marker: what the pattern captured, or the literal
    marker. *)
Lemma _detect_store_shape (content marker : str) :
  _detect_store content = Some marker ->
  (exists a mid b, marker = a :: mid ++ [b] /\ is_AZ a = true /\ is_AZ b = true)
  /\ Forall (fun c => is_AZ_or_space c = true) marker
  /\ (exists pre post, content = pre ++ marker ++ SEMICOLON :: post).
Proof.
  intros H.
  revert H. unfold _detect_store, re_search.
  destruct (search_from _STORE_PATTERN content 0) as [[start g]|] eqn:E.
  - apply search_from_inv in E as (j & -> & Hj & Hm).
    change (0 + j)%nat with j in *.
    apply match_store_inv in Hm
      as (a & run & b & rest & Hs & Ha & Hb & Hrun & Hlen & ->).
    unfold group1. cbn [fst snd]. rewrite Hs.
    replace (j + 2 + length run - j)%nat with (length (a :: run ++ [b]))
      by (rewrite length_cons, length_app; simpl; lia).
    change (a :: run ++ b :: SEMICOLON :: rest)
      with ((a :: run) ++ b :: SEMICOLON :: rest).
    rewrite (app_assoc _ [b] (SEMICOLON :: rest)) by done.
    change (((a :: run) ++ [b]) ++ SEMICOLON :: rest)
      with ((a :: run ++ [b]) ++ SEMICOLON :: rest).
    rewrite take_app_length.
    unfold strip. rewrite strip_by_ends by (by apply AZ_not_space).
    intros [= <-]. split_and!.
    + by exists a, run, b.
    + constructor; [unfold is_AZ_or_space; by rewrite Ha|].
      apply Forall_app. split; [done|].
      apply Forall_singleton. unfold is_AZ_or_space. by rewrite Hb.
    + exists (take j content), rest.
      rewrite <- (take_drop j content) at 1. rewrite Hs.
      f_equal. simpl. f_equal. by rewrite <- app_assoc.
  - destruct (contains (T "STREET ART;") content) eqn:Ec; [|done].
    intros [= <-]. split_and!.
    + by exists "S"%char, (T "TREET AR"), "T"%char.
    + apply (proj1 (forallb_Forall _ _)). by vm_compute.
    + apply contains_inv in Ec as (pre & post & ->). by exists pre, post.
Qed.

(** The marker that [_detect_store] returns is not empty; it starts and
    ends with an upper-case letter and holds upper-case letters and white
    space only; followed by a semicolon it occurs in the content, so that
    the content has at least one chunk after a marker. *)
Theorem _detect_store_marker (content marker : str) :
  _detect_store content = Some marker ->
  (exists a mid b, marker = a :: mid ++ [b] /\ is_AZ a = true /\ is_AZ b = true)
  /\ Forall (fun c => is_AZ_or_space c = true) marker
  /\ (exists pre post, content = pre ++ marker ++ SEMICOLON :: post)
  /\ (2 <= length (split (marker ++ T ";") content))%nat.
Proof.
  intros H.
  destruct (_detect_store_shape content marker H) as (H1 & H2 & H3).
  split_and!; try done.
  destruct H3 as (pre & post & ->).
  replace (pre ++ marker ++ SEMICOLON :: post)
    with (pre ++ (marker ++ T ";") ++ post) by (by rewrite <- !app_assoc).
  apply split_occurrence. by destruct marker.
Qed.

Lemma _detect_store_marker_witness :
  _detect_store sample_dump = Some (T "STREET ART")
  /\ (exists a mid b, T "STREET ART" = a :: mid ++ [b]
                      /\ is_AZ a = true /\ is_AZ b = true)
  /\ Forall (fun c => is_AZ_or_space c = true) (T "STREET ART")
  /\ (exists pre post, sample_dump = pre ++ T "STREET ART" ++ SEMICOLON :: post)
  /\ (2 <= length (split (T "STREET ART" ++ T ";") sample_dump))%nat.
Proof.
  assert (H : _detect_store sample_dump = Some (T "STREET ART"))
    by (vm_compute; reflexivity).
  split; [exact H|].
  exact (_detect_store_marker sample_dump (T "STREET ART") H).
Defined.

(** *** When the parser raises *)

(** A chunk is skipped exactly when it fails a guard. *)
Lemma parse_chunk_skipped part :
  parse_chunk part = Ok None <-> passes_guards part = false.
Proof.
  unfold parse_chunk, passes_guards, mbind, result_bind. cbv zeta.
  destruct (length (split (T ";") part) <? 10)%nat; [done|].
  destruct (str_eqb _ [] || _ || _ || _)%bool; [done|].
  destruct (contains _ _); [done|]. cbn [negb andb].
  split; [|done].
  destruct (except_ValueError (int_of_decimal_text _) 0) as [qte|e']; [|done].
  destruct (except_py_float
              (replace (T ",") (T ".")
                 (if (7 <? length (split (T ";") part))%nat
                  then strip (field (split (T ";") part) 7) else []))
              (S754_zero false)) as [pa ->].
  destruct (except_py_float
              (replace (T ",") (T ".")
                 (if (9 <? length (split (T ";") part))%nat
                  then strip (field (split (T ";") part) 9) else []))
              (S754_zero false)) as [pv ->].
  done.
Qed.

(** A chunk that passes the guards aborts the run when its quantity is
    read as an infinity, and gives a record otherwise, whatever its
    prices are. *)
Lemma parse_chunk_passed part :
  passes_guards part = true ->
  (infinite_quantity part -> parse_chunk part = Raise OverflowError)
  /\ (~ infinite_quantity part -> exists r, parse_chunk part = Ok (Some r)).
Proof.
  unfold parse_chunk, passes_guards, infinite_quantity, quantity_text,
    mbind, result_bind. cbv zeta.
  destruct (length (split (T ";") part) <? 10)%nat; [done|].
  destruct (str_eqb _ [] || _ || _ || _)%bool; [done|].
  destruct (contains _ _); [done|]. intros _.
  destruct (except_py_float
              (replace (T ",") (T ".")
                 (if (7 <? length (split (T ";") part))%nat
                  then strip (field (split (T ";") part) 7) else []))
              (S754_zero false)) as [pa ->].
  destruct (except_py_float
              (replace (T ",") (T ".")
                 (if (9 <? length (split (T ";") part))%nat
                  then strip (field (split (T ";") part) 9) else []))
              (S754_zero false)) as [pv ->].
  destruct (except_ValueError (int_of_decimal_text _) 0) as [qte|e'] eqn:Eq.
  - split; [|by eauto]. intros [neg Hneg]. exfalso. revert Eq.
    unfold int_of_decimal_text, mbind, result_bind. by rewrite Hneg.
  - apply int_of_decimal_text_overflow in Eq as [-> Hinf]. split; [done|].
    intros Hno. by destruct Hno.
Qed.

Lemma parse_chunk_raises_iff part e :
  parse_chunk part = Raise e
  <-> e = OverflowError /\ passes_guards part = true /\ infinite_quantity part.
Proof.
  split.
  - intros H. destruct (passes_guards part) eqn:Eg.
    + destruct (parse_chunk_raises part e H) as [-> Hinf]. done.
    + apply parse_chunk_skipped in Eg. congruence.
  - intros (-> & Hg & Hinf). by apply parse_chunk_passed.
Qed.

Lemma parse_chunks_aborts parts : forall acc,
  Exists (fun part => passes_guards part = true /\ infinite_quantity part) parts ->
  parse_chunks parts acc = Raise OverflowError.
Proof.
  induction parts as [|part parts IH]; intros acc Hex; [by apply Exists_nil in Hex|].
  cbn [parse_chunks]. unfold mbind, result_bind.
  destruct (parse_chunk part) as [r|e] eqn:E.
  - apply IH. apply Exists_cons in Hex as [[Hg Hinf]|?]; [|done].
    assert (parse_chunk part = Raise OverflowError) by (by apply parse_chunk_passed).
    congruence.
  - by apply parse_chunk_raises_iff in E as [-> _].
Qed.

Lemma parse_chunks_returns parts : forall acc records,
  parse_chunks parts acc = Ok records ->
  records = [] <-> acc = [] /\ Forall (fun part => passes_guards part = false) parts.
Proof.
  induction parts as [|part parts IH]; intros acc records; cbn [parse_chunks].
  - intros [= <-]. split; [by intros -> | by intros [-> _]].
  - unfold mbind, result_bind. destruct (parse_chunk part) as [r|e] eqn:E; [|done].
    intros H. rewrite (IH _ _ H), Forall_cons. destruct r as [rec|].
    + split.
      * intros [Hacc _]. by destruct acc.
      * intros [_ [Hg _]]. apply parse_chunk_skipped in Hg. congruence.
    + apply parse_chunk_skipped in E. by intuition.
Qed.

(** [parse_physical_stock] raises in three cases only.  It raises
    [ValueError] exactly when no store marker is found, or a marker is
    found and no chunk passes the guards, so that no record is read.  It
    raises [OverflowError] exactly when a chunk passes the guards with a
    quantity that [float] reads as an infinity.  A chunk that passes the
    guards with another quantity gives a record: no price and no quantity
    that is not a number aborts the run. *)
Theorem parse_physical_stock_raises (decoded : str) :
  let content := replace [CR] [LF] (replace [CR; LF] [LF] decoded) in
  let chunks := chunks_of decoded in
  (parse_physical_stock decoded = Raise ValueError
   <-> _detect_store content = None
       \/ (is_Some (_detect_store content)
           /\ Forall (fun part => passes_guards part = false) chunks))
  /\ (parse_physical_stock decoded = Raise OverflowError
      <-> Exists (fun part => passes_guards part = true /\ infinite_quantity part)
                 chunks)
  /\ (forall part,
        passes_guards part = true -> ~ infinite_quantity part ->
        exists r, parse_chunk part = Ok (Some r)).
Proof.
  cbv zeta. split_and!.
  - unfold parse_physical_stock, chunks_of. cbv zeta.
    destruct (_detect_store _) as [marker|] eqn:Em; [|split; [by left | done]].
    destruct (_detect_store_shape _ _ Em) as ((a & mid & b & -> & _) & _).
    unfold mbind, result_bind.
    destruct (parse_chunks _ []) as [recs|e'] eqn:E.
    + pose proof (parse_chunks_returns _ _ _ E) as Hrec. split.
      * intros H. right. split; [done|]. apply Hrec. by destruct recs.
      * intros [?|[_ Hall]]; [done|].
        assert (recs = []) as -> by (by apply Hrec). done.
    + split.
      * intros [= ->]. apply parse_chunks_raises in E as (part & _ & Hp).
        by apply parse_chunk_raises_iff in Hp as [? _].
      * intros [?|[_ Hall]]; [done|]. exfalso.
        apply parse_chunks_raises in E as (part & Hin & Hp).
        apply parse_chunk_raises_iff in Hp as (_ & Hg & _).
        apply (proj1 (Forall_forall _ _) Hall) in Hin. congruence.
  - unfold parse_physical_stock, chunks_of. cbv zeta.
    destruct (_detect_store _) as [marker|] eqn:Em;
      [|split; [done | by intros ?%Exists_nil]].
    destruct (_detect_store_shape _ _ Em) as ((a & mid & b & -> & _) & _).
    unfold mbind, result_bind. split.
    + destruct (parse_chunks _ []) as [recs|e'] eqn:E; [by destruct recs|].
      intros [= ->]. apply parse_chunks_raises in E as (part & Hin & Hp).
      apply parse_chunk_raises_iff in Hp as (_ & Hg & Hinf).
      apply Exists_exists. by exists part.
    + intros Hex. by rewrite (parse_chunks_aborts _ [] Hex).
  - intros part Hg Hno. by apply parse_chunk_passed.
Qed.

(* ================================================================== *)
(** ** The vendor list *)

(** *** Dictionaries in insertion order *)

Section Dict.
Context {V : Type}.
Implicit Types d : pydict V.

Lemma dict_get_set d k v k' :
  dict_get (dict_set d k v) k' = if decide (k = k') then Some v else dict_get d k'.
Proof.
  induction d as [|[k0 v0] d IH]; simpl.
  - case_bool_decide; case_decide; congruence.
  - case_bool_decide as H0; simpl.
    + subst k0. case_bool_decide; case_decide; congruence.
    + rewrite IH. case_bool_decide; case_decide; congruence.
Qed.

Lemma dict_set_keys d k v :
  map fst (dict_set d k v)
  = if decide (k ∈ map fst d) then map fst d else map fst d ++ [k].
Proof.
  induction d as [|[k0 v0] d IH]; cbn [dict_set map fst].
  - destruct (decide (k ∈ [])) as [H|H]; [by apply elem_of_nil in H | done].
  - case_bool_decide as H0; cbn [map fst].
    + subst k0. destruct (decide (k ∈ k :: map fst d)) as [H|H]; [done|].
      exfalso. apply H, list_elem_of_here.
    + rewrite IH. destruct (decide (k ∈ map fst d)) as [Hin|Hout].
      * destruct (decide (k ∈ k0 :: map fst d)) as [H|H]; [done|].
        exfalso. by apply H, list_elem_of_further.
      * destruct (decide (k ∈ k0 :: map fst d)) as [H|H]; [|done].
        apply elem_of_cons in H as [?|?]; congruence.
Qed.

Lemma dict_set_NoDup d k v : NoDup (map fst d) -> NoDup (map fst (dict_set d k v)).
Proof.
  intros H. rewrite dict_set_keys. case_decide; [done|].
  apply NoDup_app. split_and!; [done | | apply NoDup_singleton].
  intros x Hx ->%list_elem_of_singleton. done.
Qed.

Lemma dict_get_None d k : dict_get d k = None <-> k ∉ map fst d.
Proof.
  induction d as [|[k0 v0] d IH]; simpl.
  - split; [intros _; apply not_elem_of_nil | done].
  - rewrite not_elem_of_cons. case_bool_decide as H0.
    + split; [done | intros [? _]; congruence].
    + rewrite IH. split; [intros ?; split; congruence | by intros [_ ?]].
Qed.

Lemma dict_get_Some d k v :
  NoDup (map fst d) -> dict_get d k = Some v <-> (k, v) ∈ d.
Proof.
  induction d as [|[k0 v0] d IH]; simpl; intros Hnd.
  - split; [done | by intros ?%elem_of_nil].
  - apply NoDup_cons in Hnd as [Hk0 Hnd]. rewrite elem_of_cons.
    case_bool_decide as H0.
    + subst k0. split; [intros [= ->]; by left|].
      intros [[= ->]|Hin]; [done|]. exfalso. apply Hk0.
      apply list_elem_of_fmap. by exists (k, v).
    + rewrite (IH Hnd). split; [by right|]. intros [[= -> ->]|?]; done.
Qed.

Lemma dict_get_perm d d' k :
  NoDup (map fst d) -> d ≡ₚ d' -> dict_get d k = dict_get d' k.
Proof.
  intros Hnd Hp.
  assert (Hnd' : NoDup (map fst d')) by (by rewrite <- Hp).
  destruct (dict_get d k) as [v|] eqn:E.
  - symmetry. apply dict_get_Some; [done|]. rewrite <- Hp.
    by apply dict_get_Some.
  - symmetry. apply dict_get_None. rewrite <- Hp. by apply dict_get_None.
Qed.

(** *** The stable sort by key length *)

Lemma insert_by_len_perm (x : str * V) l : insert_by_len x l ≡ₚ x :: l.
Proof.
  induction l as [|y l IH]; simpl; [done|].
  destruct (_ <=? _)%nat; [done|]. rewrite IH. apply Permutation_swap.
Qed.

Lemma sort_by_len_desc_perm (l : list (str * V)) : sort_by_len_desc l ≡ₚ l.
Proof.
  unfold sort_by_len_desc. induction l as [|x l IH]; simpl; [done|].
  by rewrite insert_by_len_perm, IH.
Qed.
End Dict.

Lemma insert_by_len_sorted (x : str * str) l :
  StronglySorted longer_key l -> StronglySorted longer_key (insert_by_len x l).
Proof.
  induction 1 as [|y l Hl IH Hy]; simpl.
  - repeat constructor.
  - destruct (_ <=? _)%nat eqn:E.
    + apply Nat.leb_le in E. constructor; [by constructor|].
      constructor; [exact E|]. eapply Forall_impl; [exact Hy|].
      intros z Hz. unfold longer_key in *. lia.
    + apply Nat.leb_gt in E. constructor; [exact IH|].
      rewrite insert_by_len_perm. constructor; [|done].
      unfold longer_key. lia.
Qed.

Lemma sort_by_len_desc_sorted (l : list (str * str)) :
  StronglySorted longer_key (sort_by_len_desc l).
Proof.
  unfold sort_by_len_desc. induction l as [|x l IH]; simpl; [constructor|].
  by apply insert_by_len_sorted.
Qed.

(** *** The merge *)

Lemma merge_vendor_unfold merged v :
  merge_vendor merged v
  = if vendor_accepted v then dict_set merged (upper v) v else merged.
Proof. reflexivity. Qed.

Lemma overriding_cons v vendors key :
  overriding (v :: vendors) key
  = match overriding vendors key with
    | Some w => Some w
    | None => if decide (vendor_accepted v = true /\ upper v = key)
              then Some v else None
    end.
Proof.
  unfold overriding. rewrite filter_cons. case_decide.
  - apply last_cons.
  - by destruct (last _).
Qed.

Lemma merge_vendors_get vendors : forall merged key,
  dict_get (fold_left merge_vendor vendors merged) key
  = match overriding vendors key with
    | Some v => Some v
    | None => dict_get merged key
    end.
Proof.
  induction vendors as [|v vendors IH]; intros merged key; simpl; [done|].
  rewrite IH, overriding_cons, merge_vendor_unfold.
  destruct (overriding vendors key); [done|].
  destruct (vendor_accepted v) eqn:Ha.
  - rewrite dict_get_set. destruct (decide (upper v = key)).
    + by rewrite decide_True.
    + rewrite decide_False; [done|]. by intros [_ ?].
  - rewrite decide_False; [done|]. by intros [? _].
Qed.

Lemma dict_set_upper_keyed d v :
  upper_keyed d -> upper_keyed (dict_set d (upper v) v).
Proof.
  unfold upper_keyed. induction 1 as [|[k0 v0] d Hk Hd IH]; simpl.
  - by repeat constructor.
  - case_bool_decide; constructor; done.
Qed.

Lemma merge_vendors_inv vendors : forall merged,
  NoDup (map fst merged) -> upper_keyed merged ->
  NoDup (map fst (fold_left merge_vendor vendors merged))
  /\ upper_keyed (fold_left merge_vendor vendors merged).
Proof.
  induction vendors as [|v vendors IH]; intros merged Hnd Hup; simpl; [done|].
  apply IH; rewrite merge_vendor_unfold; destruct (vendor_accepted v); try done.
  - by apply dict_set_NoDup.
  - by apply dict_set_upper_keyed.
Qed.

Lemma known_brands_fold raw : forall d,
  NoDup (map fst d) -> upper_keyed d ->
  NoDup (map fst (fold_left (fun d b => dict_set d (upper b) b) raw d))
  /\ upper_keyed (fold_left (fun d b => dict_set d (upper b) b) raw d).
Proof.
  induction raw as [|b raw IH]; intros d Hnd Hup; simpl; [done|].
  apply IH; [by apply dict_set_NoDup | by apply dict_set_upper_keyed].
Qed.

Lemma KNOWN_BRANDS_inv : NoDup (map fst KNOWN_BRANDS) /\ upper_keyed KNOWN_BRANDS.
Proof.
  unfold KNOWN_BRANDS.
  destruct (known_brands_fold KNOWN_BRANDS_RAW []) as [Hnd Hup];
    [constructor | constructor |].
  split.
  - by rewrite sort_by_len_desc_perm.
  - unfold upper_keyed. by rewrite sort_by_len_desc_perm.
Qed.

Lemma vendor_accepted_guard v :
  vendor_accepted v
  = (negb (bool_decide (strip v = []))
     && negb (bool_decide (head v = Some A_GRAVE))
     && negb (bool_decide (lower v = T "a corriger")))%bool.
Proof.
  unfold vendor_accepted, str_eqb.
  assert (Hs : startswith [A_GRAVE] v = bool_decide (head v = Some A_GRAVE)).
  { destruct v as [|c v]; simpl; [done|].
    destruct (decide (A_GRAVE = c)) as [<-|Hne].
    - by rewrite !bool_decide_eq_true_2.
    - rewrite !bool_decide_eq_false_2; [done | congruence | done]. }
  rewrite Hs. destruct v as [|c v]; [done|].
  assert (Hl : bool_decide (lower (c :: v) ∈ [T "a corriger"; []])
               = bool_decide (lower (c :: v) = T "a corriger")).
  { apply bool_decide_ext.
    rewrite elem_of_cons, list_elem_of_singleton. split; [|by left].
    intros [?|?]; done. }
  rewrite Hl. repeat case_bool_decide; simpl; done.
Qed.

(** C6, as the code has it.  The result of [build_vendor_list] is a
    dictionary from upper-case names to their casing, its items in the order
    of non-increasing key length.  Under a key stands the last vendor of the
    export, trimmed, that has this upper-case form and passes the guard of
    the loop, and the brand of the static list when the export has no such
    vendor.  The guard leaves out the blank vendors, those that start with a
    capital A with a grave accent, and those that read "a corriger" in any
    casing. *)
Theorem build_vendor_list_spec (shopify_df : list ShopRow) :
  let vendor_list := build_vendor_list shopify_df in
  let vendors := unique (map (fun r => strip (Vendor r)) shopify_df) in
  (forall key,
     dict_get vendor_list key
     = match overriding vendors key with
       | Some v => Some v
       | None => dict_get KNOWN_BRANDS key
       end)
  /\ (forall v,
        vendor_accepted v
        = (negb (bool_decide (strip v = []))
           && negb (bool_decide (head v = Some A_GRAVE))
           && negb (bool_decide (lower v = T "a corriger")))%bool)
  /\ NoDup (map fst vendor_list)
  /\ Forall (fun kv => fst kv = upper (snd kv)) vendor_list
  /\ StronglySorted longer_key vendor_list.
Proof.
  cbv zeta. unfold build_vendor_list. cbv zeta.
  set (vendors := unique _).
  destruct KNOWN_BRANDS_inv as [Hnd Hup].
  destruct (merge_vendors_inv vendors KNOWN_BRANDS Hnd Hup) as [Hnd' Hup'].
  split_and!.
  - intros key.
    rewrite <- (dict_get_perm _ _ key Hnd' (symmetry (sort_by_len_desc_perm _))).
    apply merge_vendors_get.
  - apply vendor_accepted_guard.
  - by rewrite sort_by_len_desc_perm.
  - fold (upper_keyed (sort_by_len_desc (fold_left merge_vendor vendors KNOWN_BRANDS))).
    unfold upper_keyed. by rewrite sort_by_len_desc_perm.
  - apply sort_by_len_desc_sorted.
Qed.

(** C6 as stated fails: the placeholder in lower case passes the guard and
    gets an entry. *)
Lemma build_vendor_list_lower_placeholder :
  lower (A_GRAVE :: T " corriger") = a_corriger_lower
  /\ dict_get (build_vendor_list [shop_row "Veste" "" "65368-2" "1";
                                   {| Title := []; Vendor := a_corriger_lower;
                                      Barcode := T "65368-3"; Quantity := T "1";
                                      others := [] |}])
              (upper a_corriger_lower)
     = Some a_corriger_lower.
Proof. split; vm_compute; reflexivity. Qed.

(** *** The brand of a title *)

Lemma first_vendor_unfold t vendor_up vendor_orig items :
  first_vendor t ((vendor_up, vendor_orig) :: items)
  = if brand_matches vendor_up t
    then Some (vendor_orig, title (strip (slice_from (length vendor_up) t)))
    else first_vendor t items.
Proof. reflexivity. Qed.

Lemma first_vendor_Some t items r :
  first_vendor t items = Some r ->
  exists pre k v post,
    items = pre ++ (k, v) :: post
    /\ Forall (fun kv => brand_matches (fst kv) t = false) pre
    /\ brand_matches k t = true
    /\ r = (v, title (strip (slice_from (length k) t))).
Proof.
  induction items as [|[k v] items IH]; [done|].
  rewrite first_vendor_unfold. destruct (brand_matches k t) eqn:E.
  - intros [= <-]. exists [], k, v, items. by split_and!.
  - intros H. apply IH in H as (pre & k' & v' & post & -> & Hpre & Hk & ->).
    exists ((k, v) :: pre), k', v', post. split_and!; [done | by constructor | done | done].
Qed.

Lemma first_vendor_None t items :
  Forall (fun kv => brand_matches (fst kv) t = false) items ->
  first_vendor t items = None.
Proof.
  induction 1 as [|[k v] items Hk _ IH]; [done|].
  rewrite first_vendor_unfold. simpl in Hk. by rewrite Hk.
Qed.

Lemma brand_matches_prefix k t :
  brand_matches k t = true -> take (length k) t = k.
Proof.
  unfold brand_matches, str_eqb. intros [H|H]%orb_true_iff.
  - apply startswith_inv in H as [post ->].
    by rewrite <- app_assoc, take_app_length.
  - apply bool_decide_eq_true_1 in H as ->. by rewrite firstn_all.
Qed.

Lemma build_vendor_list_order (shopify_df : list ShopRow) :
  NoDup (map fst (build_vendor_list shopify_df))
  /\ StronglySorted longer_key (build_vendor_list shopify_df).
Proof.
  unfold build_vendor_list. cbv zeta.
  destruct KNOWN_BRANDS_inv as [Hnd Hup].
  destruct (merge_vendors_inv (unique (map (fun r => strip (Vendor r)) shopify_df))
              KNOWN_BRANDS Hnd Hup) as [Hnd' _].
  split; [by rewrite sort_by_len_desc_perm | apply sort_by_len_desc_sorted].
Qed.

(** With the vendor map of [build_vendor_list], [extract_vendor_and_name]
    takes the longest brand key that the title, in upper case, is equal to
    or starts with followed by a space: the vendor is the casing that the
    map has for this key, and the product name is what follows the key,
    trimmed and in title case. *)
Theorem extract_vendor_and_name_longest (shopify_df : list ShopRow)
    (title_upper key vendor : str) :
  let vendor_map := build_vendor_list shopify_df in
  let t := upper title_upper in
  dict_get vendor_map key = Some vendor ->
  brand_matches key t = true ->
  Forall (fun key' => brand_matches key' t = true -> (length key' <= length key)%nat)
         (map fst vendor_map) ->
  extract_vendor_and_name title_upper vendor_map
  = (vendor, title (strip (slice_from (length key) t))).
Proof.
  cbv zeta. intros Hget Hkey Hmax.
  destruct (build_vendor_list_order shopify_df) as [Hnd Hsorted].
  set (vendor_map := build_vendor_list shopify_df) in *.
  apply (dict_get_Some _ _ _ Hnd) in Hget.
  unfold extract_vendor_and_name. cbv zeta.
  destruct (first_vendor (upper title_upper) vendor_map) as [r|] eqn:E.
  - apply first_vendor_Some in E as (pre & k & v & post & Hitems & Hpre & Hk & ->).
    assert (Hlen : (length k <= length key)%nat).
    { apply (proj1 (Forall_forall _ _) Hmax); [|done].
      apply list_elem_of_fmap. exists (k, v). split; [done|].
      rewrite Hitems. apply elem_of_app. right. apply list_elem_of_here. }
    assert (Hin : (key, vendor) ∈ (k, v) :: post).
    { rewrite Hitems in Hget. apply elem_of_app in Hget as [Hget|Hget]; [|done].
      apply (proj1 (Forall_forall _ _) Hpre) in Hget. simpl in Hget. congruence. }
    assert (Hk_eq : key = k).
    { apply elem_of_cons in Hin as [[= -> ->]|Hin]; [done|].
      rewrite Hitems in Hsorted. apply StronglySorted_app_1_r in Hsorted.
      apply StronglySorted_inv in Hsorted as [_ Hall].
      apply (proj1 (Forall_forall _ _) Hall) in Hin.
      unfold longer_key in Hin. simpl in Hin.
      rewrite <- (brand_matches_prefix key _ Hkey), <- (brand_matches_prefix k _ Hk).
      f_equal. lia. }
    subst k. f_equal.
    rewrite Hitems in Hnd, Hget.
    apply elem_of_app in Hget as [Hget|Hget].
    + apply (proj1 (Forall_forall _ _) Hpre) in Hget. simpl in Hget. congruence.
    + apply elem_of_cons in Hget as [[= ->]|Hget]; [done|]. exfalso.
      rewrite map_app in Hnd. apply NoDup_app in Hnd as (_ & _ & Hnd).
      simpl in Hnd. apply NoDup_cons in Hnd as [Hout _]. apply Hout.
      apply list_elem_of_fmap. by exists (key, vendor).
  - exfalso. clear Hmax.
    induction vendor_map as [|[k v] items IH]; [by apply elem_of_nil in Hget|].
    rewrite first_vendor_unfold in E.
    destruct (brand_matches k (upper title_upper)) eqn:Ek; [done|].
    apply elem_of_cons in Hget as [[= <- <-]|Hget]; [congruence|].
    apply IH; try done.
    + simpl in Hnd. by apply NoDup_cons in Hnd as [_ ?].
    + by apply StronglySorted_inv in Hsorted as [? _].
Qed.

Lemma extract_vendor_and_name_longest_witness :
  dict_get (build_vendor_list nike_export) (T "NIKE SB") = Some (T "Nike SB")
  /\ brand_matches (T "NIKE SB") (upper (T "NIKE SB ZOOM BLAZER MID BLACK / WHITE")) = true
  /\ extract_vendor_and_name (T "NIKE SB ZOOM BLAZER MID BLACK / WHITE")
       (build_vendor_list nike_export)
     = (T "Nike SB", T "Zoom Blazer Mid Black / White").
Proof.
  split; [vm_compute; reflexivity|]. split; [vm_compute; reflexivity|].
  apply (extract_vendor_and_name_longest nike_export
           (T "NIKE SB ZOOM BLAZER MID BLACK / WHITE") (T "NIKE SB") (T "Nike SB")).
  - vm_compute. reflexivity.
  - vm_compute. reflexivity.
  - match goal with |- ?G => apply (bool_decide_unpack G) end. vm_compute. exact I.
Defined.

(** *** The first word *)

Lemma startswith_char_false c a (s : str) : c <> a -> startswith [c] (a :: s) = false.
Proof. intros H. simpl. by rewrite bool_decide_eq_false_2. Qed.

Lemma split_once_no_sep c (s : str) : c ∉ s -> split_once [c] s = [s].
Proof.
  induction s as [|a s IH]; [done|].
  intros [Hne Hs]%not_elem_of_cons. cbn [split_once].
  rewrite startswith_char_false by done. by rewrite IH.
Qed.

Lemma split_once_first c (word rest : str) :
  c ∉ word -> split_once [c] (word ++ c :: rest) = [word; rest].
Proof.
  induction word as [|a word IH]; intros Hw.
  - cbn [app split_once]. simpl. by rewrite bool_decide_eq_true_2.
  - apply not_elem_of_cons in Hw as [Hne Hw]. cbn [app split_once].
    rewrite startswith_char_false by done. by rewrite IH.
Qed.

(** When no brand key of the vendor map matches the title,
    [extract_vendor_and_name] takes the first word of the title, up to its
    first space, as the vendor and the rest as the product name, both in
    title case; a title without space is the vendor, and the product name
    is empty. *)
Theorem extract_vendor_and_name_first_word (title_upper : str)
    (vendor_map : pydict str) :
  let t := upper title_upper in
  Forall (fun kv => brand_matches (fst kv) t = false) vendor_map ->
  (forall word rest,
     t = word ++ SPACE :: rest -> SPACE ∉ word ->
     extract_vendor_and_name title_upper vendor_map = (title word, title rest))
  /\ (SPACE ∉ t ->
      extract_vendor_and_name title_upper vendor_map = (title t, [])).
Proof.
  cbv zeta. intros Hnone. unfold extract_vendor_and_name. cbv zeta.
  rewrite (first_vendor_None _ _ Hnone). change (T " ") with [SPACE]. split.
  - intros word rest -> Hw. by rewrite split_once_first.
  - intros Ht. by rewrite split_once_no_sep.
Qed.

Lemma extract_vendor_and_name_first_word_witness :
  Forall (fun kv => brand_matches (fst kv) (upper (T "GX1000 FALL FLOWER")) = false)
         (build_vendor_list nike_export)
  /\ extract_vendor_and_name (T "GX1000 FALL FLOWER") (build_vendor_list nike_export)
     = (T "Gx1000", T "Fall Flower").
Proof.
  assert (H : Forall
    (fun kv => brand_matches (fst kv) (upper (T "GX1000 FALL FLOWER")) = false)
    (build_vendor_list nike_export)).
  { match goal with |- ?G => apply (bool_decide_unpack G) end. vm_compute. exact I. }
  split; [exact H|].
  destruct (extract_vendor_and_name_first_word (T "GX1000 FALL FLOWER")
              (build_vendor_list nike_export) H) as [H1 _].
  apply (H1 (T "GX1000") (T "FALL FLOWER")).
  - vm_compute. reflexivity.
  - apply (bool_decide_eq_false_1 (SPACE ∈ T "GX1000")). vm_compute. reflexivity.
Defined.

(* ================================================================== *)
(** ** The new products *)

(** *** Runs of a class replaced by a separator *)

Section Runs.
Variable cls : ascii -> bool.
Variable sep : ascii.
Hypothesis cls_sep : cls sep = true.

Lemma re_sub_runs_separated (s : str) : forall in_run,
  separated cls sep in_run (re_sub_runs cls [sep] in_run s).
Proof.
  induction s as [|c s IH]; intros in_run; simpl; [done|].
  destruct (cls c) eqn:E.
  - destruct in_run; [apply IH|]. simpl. rewrite cls_sep.
    split_and!; [done | done | apply IH].
  - simpl. rewrite E. apply IH.
Qed.

Lemma re_sub_runs_fixed (s : str) : forall in_run,
  separated cls sep in_run s -> re_sub_runs cls [sep] in_run s = s.
Proof.
  induction s as [|c s IH]; intros in_run; simpl; [done|].
  destruct (cls c) eqn:E.
  - intros (-> & -> & H). simpl. by rewrite (IH true).
  - intros H. by rewrite (IH false).
Qed.

Lemma re_sub_runs_class (s : str) : forall in_run,
  Forall (fun c => cls c = false \/ c = sep) (re_sub_runs cls [sep] in_run s).
Proof.
  induction s as [|c s IH]; intros in_run; simpl; [constructor|].
  destruct (cls c) eqn:E.
  - destruct in_run; [apply IH|]. simpl. constructor; [by right | apply IH].
  - constructor; [by left | apply IH].
Qed.

Lemma separated_weaken (s : str) in_run :
  separated cls sep in_run s -> separated cls sep false s.
Proof.
  destruct in_run; [|done]. destruct s as [|c s]; simpl; [done|].
  destruct (cls c); [by intros (_ & ? & _) | done].
Qed.

Lemma separated_app_l (s1 s2 : str) : forall in_run,
  separated cls sep in_run (s1 ++ s2) -> separated cls sep in_run s1.
Proof.
  induction s1 as [|c s1 IH]; intros in_run; simpl; [done|].
  destruct (cls c).
  - intros (? & ? & H). split_and!; [done | done | by apply IH].
  - apply IH.
Qed.

Lemma separated_app_r (s1 s2 : str) : forall in_run,
  separated cls sep in_run (s1 ++ s2) -> separated cls sep false s2.
Proof.
  induction s1 as [|c s1 IH]; intros in_run; simpl.
  - apply separated_weaken.
  - destruct (cls c); [intros (_ & _ & H)|intros H]; by eapply IH.
Qed.

Lemma separated_strip_by p (s : str) in_run :
  separated cls sep in_run s -> separated cls sep false (strip_by p s).
Proof.
  intros H. unfold strip_by.
  destruct (rstrip_by_split p (lstrip_by p s)) as (ws & Hs & _).
  destruct (lstrip_by_split p s) as (ws' & Hs' & _).
  apply (separated_app_l _ ws). rewrite <- Hs.
  apply (separated_app_r ws' _ in_run). by rewrite <- Hs'.
Qed.

Lemma separated_no_double (s : str) : forall in_run,
  separated cls sep in_run s -> contains [sep; sep] s = false.
Proof.
  induction s as [|c s IH]; intros in_run; [done|].
  intros H. cbn [contains].
  assert (Hs : contains [sep; sep] s = false).
  { simpl in H. destruct (cls c); [destruct H as (_ & _ & H)|]; by eapply IH. }
  rewrite Hs. destruct (startswith [sep; sep] (c :: s)) eqn:E; [|done]. exfalso.
  simpl in E. case_bool_decide as Hc; [|done]. subst c.
  destruct s as [|d s]; [done|]. case_bool_decide as Hd; [|done]. subst d.
  simpl in H. rewrite cls_sep in H. by destruct H as (_ & _ & _ & ? & _).
Qed.

Lemma separated_class (cls' : ascii -> bool) (s : str) : forall in_run,
  Forall (fun c => cls' c = cls c) s ->
  separated cls sep in_run s -> separated cls' sep in_run s.
Proof.
  induction s as [|c s IH]; intros in_run Hall; simpl; [done|].
  apply Forall_cons in Hall as [-> Hall].
  destruct (cls c); [intros (? & ? & H); split_and!; auto | auto].
Qed.
End Runs.

(** *** The handle *)

Lemma slug_char c :
  not_az09 c = false \/ c = HYPHEN ->
  lower_char c = c /\ strip_accent c = c /\ is_hyphen c = not_az09 c.
Proof.
  revert c. intros [[] [] [] [] [] [] [] []]; vm_compute;
    (intros [?|?]; by try discriminate).
Qed.

Lemma map_fixed (f : ascii -> ascii) (s : str) :
  Forall (fun c => f c = c) s -> map f s = s.
Proof. induction 1 as [|c s Hc _ IH]; simpl; [done | by rewrite Hc, IH]. Qed.

Lemma generate_handle_facts (title : str) :
  let h := generate_handle title in
  Forall (fun c => not_az09 c = false \/ c = HYPHEN) h
  /\ separated not_az09 HYPHEN false h
  /\ separated is_hyphen HYPHEN false h
  /\ strip_by is_hyphen h = h.
Proof.
  cbv zeta. unfold generate_handle. cbv zeta. fold not_az09.
  set (x := re_sub_runs not_az09 (T "-") false (map strip_accent (lower title))).
  assert (Hx : separated not_az09 HYPHEN false x)
    by (by apply re_sub_runs_separated).
  assert (Hxc : Forall (fun c => not_az09 c = false \/ c = HYPHEN) x)
    by apply re_sub_runs_class.
  assert (Hxh : separated is_hyphen HYPHEN false x).
  { apply (separated_class not_az09); [|done].
    eapply Forall_impl; [exact Hxc|]. intros c Hc. by apply slug_char. }
  change (T "-") with [HYPHEN].
  rewrite (re_sub_runs_fixed is_hyphen HYPHEN x false Hxh).
  split_and!.
  - apply Forall_forall. intros c Hc. apply strip_by_elem in Hc.
    by apply (proj1 (Forall_forall _ _) Hxc).
  - by eapply separated_strip_by.
  - by eapply separated_strip_by.
  - apply strip_by_strip_by.
Qed.

(** [generate_handle] returns a slug: lower-case letters without accent,
    digits and hyphens only, no hyphen at either end and no two hyphens in
    a row.  A slug is its own handle.  The title of the documentation
    gives the documented handle. *)
Theorem generate_handle_slug (title : str) :
  let h := generate_handle title in
  Forall (fun c => is_az09 c = true \/ c = HYPHEN) h
  /\ (forall s, h <> HYPHEN :: s)
  /\ (forall s, h <> s ++ [HYPHEN])
  /\ contains (T "--") h = false
  /\ generate_handle h = h
  /\ generate_handle (T "Cotton Trunks White + White") = T "cotton-trunks-white-white".
Proof.
  cbv zeta. destruct (generate_handle_facts title) as (Hhc & Hh & Hhh & Hfix).
  set (h := generate_handle title) in *. clearbody h.
  split_and!; [| | | | |vm_compute; reflexivity].
  - eapply Forall_impl; [exact Hhc|]. intros c [Hc|Hc]; [left | by right].
    unfold not_az09 in Hc. by destruct (is_az09 c).
  - intros s Hs. rewrite Hs in Hfix. by apply strip_by_fixed_head in Hfix.
  - intros s Hs. rewrite Hs in Hfix. by apply strip_by_last in Hfix.
  - change (T "--") with [HYPHEN; HYPHEN].
    exact (separated_no_double is_hyphen HYPHEN eq_refl h false Hhh).
  - unfold generate_handle. cbv zeta. fold not_az09. change (T "-") with [HYPHEN].
    assert (Hl : lower h = h).
    { apply map_fixed. eapply Forall_impl; [exact Hhc|].
      intros c Hc. by apply slug_char. }
    assert (Ha : map strip_accent h = h).
    { apply map_fixed. eapply Forall_impl; [exact Hhc|].
      intros c Hc. by apply slug_char. }
    rewrite Hl, Ha.
    rewrite (re_sub_runs_fixed not_az09 HYPHEN h false Hh).
    rewrite (re_sub_runs_fixed is_hyphen HYPHEN h false Hhh).
    exact Hfix.
Qed.

Lemma runs_all_hyphen (y : str) : forall in_run,
  Forall (fun c => is_az09 c = false) y
  <-> Forall (fun c => is_hyphen c = true) (re_sub_runs not_az09 [HYPHEN] in_run y).
Proof.
  induction y as [|c y IH]; intros in_run; simpl.
  - split; constructor.
  - rewrite Forall_cons. unfold not_az09 at 1. destruct (is_az09 c) eqn:E; simpl.
    + rewrite Forall_cons. split; [by intros [? _]|]. intros [Hc _].
      assert (not_az09 c = false) by (unfold not_az09; by rewrite E).
      destruct (slug_char c) as (_ & _ & Hh); [by left|]. congruence.
    + rewrite (IH true). destruct in_run; [tauto|].
      simpl. rewrite Forall_cons. split; [by intros [_ ?] | tauto].
Qed.

(** The handle is empty exactly when the title has no letter of [a-z] and
    no digit once it is in lower case and without accents. *)
Theorem generate_handle_empty (title : str) :
  generate_handle title = []
  <-> Forall (fun c => is_az09 c = false) (map strip_accent (lower title)).
Proof.
  unfold generate_handle. cbv zeta. fold not_az09.
  set (y := map strip_accent (lower title)). clearbody y.
  set (x := re_sub_runs not_az09 (T "-") false y).
  assert (Hxc : Forall (fun c => not_az09 c = false \/ c = HYPHEN) x)
    by apply (re_sub_runs_class not_az09 HYPHEN).
  assert (Hxh : separated is_hyphen HYPHEN false x).
  { apply (separated_class not_az09).
    - eapply Forall_impl; [exact Hxc|]. intros c Hc. by apply slug_char.
    - by apply re_sub_runs_separated. }
  change (T "-") with [HYPHEN].
  rewrite (re_sub_runs_fixed is_hyphen HYPHEN x false Hxh).
  rewrite (runs_all_hyphen y false). change [HYPHEN] with (T "-"). fold x. split.
  - intros H. unfold strip_by in H.
    destruct (rstrip_by_split is_hyphen (lstrip_by is_hyphen x)) as (ws & Hs & Hws).
    destruct (lstrip_by_split is_hyphen x) as (ws' & Hs' & Hws').
    rewrite Hs', Hs, H. apply Forall_app. by split.
  - intros H. unfold strip_by. by rewrite (lstrip_by_all _ _ H).
Qed.

(** *** Grouping by product *)

Section Grouping.
Context {A : Type} `{EqDecision A}.

Lemma distinct_elem (x : A) l : x ∈ distinct l <-> x ∈ l.
Proof.
  induction l as [|y l IH]; simpl; [done|].
  rewrite !elem_of_cons, list_elem_of_filter, IH.
  destruct (decide (x = y)); intuition congruence.
Qed.

Lemma distinct_NoDup (l : list A) : NoDup (distinct l).
Proof.
  induction l as [|x l IH]; simpl; [constructor|].
  constructor.
  - rewrite list_elem_of_filter. by intros [? _].
  - by apply NoDup_filter.
Qed.

Lemma filter_filter_comm (P Q : A -> Prop)
    `{!forall x, Decision (P x), !forall x, Decision (Q x)} (l : list A) :
  filter P (filter Q l) = filter Q (filter P l).
Proof.
  induction l as [|x l IH]; [done|].
  rewrite !filter_cons.
  destruct (decide (Q x)), (decide (P x)); rewrite ?filter_cons;
    rewrite ?decide_True, ?decide_False by done; by rewrite IH.
Qed.

Lemma distinct_filter (P : A -> Prop) `{!forall x, Decision (P x)} (l : list A) :
  distinct (filter P l) = filter P (distinct l).
Proof.
  induction l as [|x l IH]; [done|].
  rewrite filter_cons. cbn [distinct]. rewrite filter_cons.
  destruct (decide (P x)) as [Hx|Hx].
  - cbn [distinct]. rewrite IH. f_equal. apply filter_filter_comm.
  - rewrite IH, (filter_filter_comm P). symmetry. apply filter_all.
    apply Forall_forall. intros y Hy. apply list_elem_of_filter in Hy as [Hy _].
    intros ->. done.
Qed.
End Grouping.

Section ByProduct.
Implicit Types d : list (str * str * list Parsed).

Lemma by_product_append_in d key it :
  key ∈ map fst d -> NoDup (map fst d) ->
  by_product_append d key it
  = map (fun kv => (fst kv, if decide (fst kv = key) then snd kv ++ [it] else snd kv)) d.
Proof.
  induction d as [|[k vs] d IH]; cbn [by_product_append map fst snd].
  - by intros ?%elem_of_nil.
  - intros Hin Hnd. apply NoDup_cons in Hnd as [Hk Hnd].
    case_bool_decide as Hkey.
    + subst k. rewrite decide_True by done. f_equal.
      rewrite <- (map_id d) at 1. apply map_ext_in. intros [k' vs'] Hin'. simpl.
      rewrite decide_False; [done|]. intros ->. apply Hk.
      apply list_elem_of_fmap. exists (key, vs'). split; [done|].
      by apply list_elem_of_In.
    + rewrite decide_False by done. f_equal. apply IH; [|done].
      apply elem_of_cons in Hin as [?|?]; [congruence | done].
Qed.

Lemma by_product_append_out d key it :
  key ∉ map fst d -> by_product_append d key it = d ++ [(key, [it])].
Proof.
  induction d as [|[k vs] d IH]; cbn [by_product_append map fst]; [done|].
  intros [Hne Hout]%not_elem_of_cons.
  rewrite bool_decide_eq_false_2 by congruence. cbn [app]. f_equal. by apply IH.
Qed.

Lemma by_product_append_keys d key it :
  map fst (by_product_append d key it)
  = if decide (key ∈ map fst d) then map fst d else map fst d ++ [key].
Proof.
  induction d as [|[k vs] d IH]; cbn [by_product_append map fst].
  - rewrite decide_False; [done | apply not_elem_of_nil].
  - case_bool_decide as Hkey; cbn [map fst].
    + subst k. rewrite decide_True; [done | apply list_elem_of_here].
    + rewrite IH. destruct (decide (key ∈ map fst d)) as [Hin|Hout].
      * rewrite decide_True; [done | by apply list_elem_of_further].
      * rewrite decide_False; [done|].
        intros [?|?]%elem_of_cons; [congruence | done].
Qed.

(** The dictionary after the loop: each key with the items of this key,
    in the order of the list; the keys in the order of their first
    items. *)
Lemma by_product_fold (parsed : list Parsed) : forall d,
  NoDup (map fst d) ->
  fold_left (fun d it => by_product_append d (product_key it) it) parsed d
  = map (fun kv => (fst kv,
                    snd kv ++ filter (fun p => product_key p = fst kv) parsed)) d
    ++ map (fun k => (k, filter (fun p => product_key p = k) parsed))
           (distinct (filter (fun k => k ∉ map fst d) (map product_key parsed))).
Proof.
  induction parsed as [|p parsed IH]; intros d Hnd.
  - cbn [fold_left map filter distinct]. rewrite app_nil_r.
    rewrite <- (map_id d) at 1. apply map_ext. intros [k vs]. simpl.
    by rewrite filter_nil, app_nil_r.
  - cbn [fold_left]. rewrite IH.
    2:{ rewrite by_product_append_keys. case_decide; [done|].
        apply NoDup_app. split_and!; [done | | apply NoDup_singleton].
        intros x Hx ->%list_elem_of_singleton. done. }
    rewrite by_product_append_keys.
    destruct (decide (product_key p ∈ map fst d)) as [Hin|Hout].
    + rewrite (by_product_append_in d _ p Hin Hnd). rewrite map_map.
      cbn [map]. rewrite (filter_cons (fun k => k ∉ map fst d)), decide_False
        by (intros Hn; by apply Hn).
      f_equal.
      * apply map_ext. intros [k vs]. cbn [fst snd]. f_equal.
        rewrite filter_cons. destruct (decide (k = product_key p)) as [->|Hne].
        -- rewrite !decide_True by done. by rewrite <- app_assoc.
        -- rewrite !decide_False by congruence. done.
      * apply map_ext_in. intros k Hk. apply list_elem_of_In in Hk.
        apply distinct_elem, list_elem_of_filter in Hk as [Hk _].
        f_equal. rewrite filter_cons, decide_False; [done|].
        intros Heq. apply Hk. by rewrite <- Heq.
    + rewrite (by_product_append_out d _ p Hout). rewrite map_app. cbn [map fst snd].
      rewrite <- app_assoc. f_equal.
      * apply map_ext_in. intros [k vs] Hkv. cbn [fst snd]. f_equal.
        rewrite filter_cons, decide_False; [done|].
        intros Heq. apply Hout. rewrite Heq.
        apply list_elem_of_fmap. exists (k, vs). split; [done|].
        by apply list_elem_of_In.
      * cbn [app]. rewrite (filter_cons (fun k => k ∉ map fst d)), decide_True by done.
        cbn [distinct map]. rewrite (filter_cons (fun q => product_key q = _)),
          decide_True by done.
        f_equal.
        assert (Hf : filter (fun k => k ∉ map fst d ++ [product_key p])
                            (map product_key parsed)
                     = filter (fun k => k <> product_key p)
                         (filter (fun k => k ∉ map fst d) (map product_key parsed))).
        { rewrite list_filter_filter. apply filter_iff_elem. intros k _.
          rewrite not_elem_of_app, list_elem_of_singleton. tauto. }
        rewrite Hf, distinct_filter.
        apply map_ext_in. intros k Hk. apply list_elem_of_In in Hk.
        apply list_elem_of_filter in Hk as [Hne _].
        f_equal. by rewrite filter_cons, decide_False by congruence.
Qed.
End ByProduct.

Lemma group_by_key_perm {A K : Type} `{EqDecision K} (key : A -> K) (ks : list K) :
  NoDup ks -> forall l : list A,
  Forall (fun x => key x ∈ ks) l ->
  concat (map (fun k => filter (fun x => key x = k) l) ks) ≡ₚ l.
Proof.
  induction 1 as [|k ks Hk Hnd IH]; intros l Hall.
  - destruct l as [|x l]; [done|]. apply Forall_cons in Hall as [?%elem_of_nil _]. done.
  - cbn [map concat].
    etransitivity; [|apply (filter_app_complement (fun x => key x = k) l)].
    apply Permutation_app_head.
    rewrite <- (IH (filter (fun x => key x <> k) l)).
    + apply Permutation_refl'. f_equal. apply map_ext_in.
      intros k' Hk'. apply list_elem_of_In in Hk'.
      rewrite list_filter_filter. apply filter_iff_elem. intros x _.
      split; [|tauto]. intros ->. split; [done|]. by intros ->.
    + apply Forall_forall. intros x Hx. apply list_elem_of_filter in Hx as [Hne Hx].
      apply (proj1 (Forall_forall _ _) Hall) in Hx.
      apply elem_of_cons in Hx as [?|?]; [done | done].
Qed.

(** *** The cells of a row *)

Lemma dict_get_set_eqb {V} (d : pydict V) k v k' :
  dict_get (dict_set d k v) k' = if str_eqb k k' then Some v else dict_get d k'.
Proof.
  rewrite dict_get_set. unfold str_eqb. case_bool_decide; case_decide; congruence.
Qed.

Lemma dict_get_blank (columns : list str) col : forall d : pydict str,
  dict_get (fold_left (fun row c => dict_set row c []) columns d) col
  = if decide (col ∈ columns) then Some [] else dict_get d col.
Proof.
  induction columns as [|c columns IH]; intros d; cbn [fold_left].
  - rewrite decide_False; [done | apply not_elem_of_nil].
  - rewrite IH, dict_get_set.
    destruct (decide (col ∈ columns)) as [Hin|Hout].
    + rewrite decide_True; [done | by apply list_elem_of_further].
    + destruct (decide (c = col)) as [->|Hne].
      * rewrite decide_True; [done | apply list_elem_of_here].
      * rewrite decide_False; [done|]. intros [?|?]%elem_of_cons; congruence.
Qed.

Lemma dict_get_zip_map (f : str -> str) (columns : list str) col :
  dict_get (zip columns (map f columns)) col
  = if decide (col ∈ columns) then Some (f col) else None.
Proof.
  induction columns as [|c columns IH]; cbn [map zip zip_with dict_get].
  - rewrite decide_False; [done | apply not_elem_of_nil].
  - case_bool_decide as Hc.
    + subst c. rewrite decide_True; [done | apply list_elem_of_here].
    + fold (zip columns (map f columns)). rewrite IH.
      destruct (decide (col ∈ columns)) as [Hin|Hout].
      * rewrite decide_True; [done | by apply list_elem_of_further].
      * rewrite decide_False; [done|]. intros [?|?]%elem_of_cons; congruence.
Qed.

(** Evaluates the comparisons of column names. *)
Ltac column_names :=
  repeat match goal with
         | |- context [str_eqb ?a ?b] =>
             let v := eval vm_compute in (str_eqb a b) in
             change (str_eqb a b) with v; cbv iota
         end.

Section Rows.
Variable str_of_float : spec_float -> str.

Lemma df_cell_row_cells columns row col :
  col ∈ columns ->
  df_cell columns (row_cells columns row) col = default [] (dict_get row col).
Proof.
  intros Hin. unfold df_cell, row_cells.
  by rewrite (dict_get_zip_map (fun c => default [] (dict_get row c))), decide_True.
Qed.

(** The variant cells of a row. *)
Lemma variant_row_variant columns ref i variant :
  dict_get (variant_row str_of_float columns ref i variant) COL_BARCODE
  = Some (np_Code_barre (item variant))
  /\ dict_get (variant_row str_of_float columns ref i variant) COL_QTY
     = Some (str_of_Z (np_Qte (item variant)))
  /\ dict_get (variant_row str_of_float columns ref i variant) COL_OPT1_VAL
     = Some (np_Taille (item variant))
  /\ dict_get (variant_row str_of_float columns ref i variant) COL_SKU
     = Some (_sku variant).
Proof.
  unfold variant_row. cbv zeta.
  split_and!; rewrite !dict_get_set_eqb; column_names; reflexivity.
Qed.

(** The product cells of a row: the title on every row, the vendor and
    the status on the first row of the product only. *)
Lemma variant_row_product columns ref i variant :
  dict_get (variant_row str_of_float columns ref i variant) COL_TITLE
  = Some (_product_title ref)
  /\ dict_get (variant_row str_of_float columns ref i variant) COL_VENDOR
     = (if Nat.eqb i 0 then Some (_vendor ref)
        else if decide (COL_VENDOR ∈ columns) then Some [] else None)
  /\ dict_get (variant_row str_of_float columns ref i variant) COL_STATUS
     = (if Nat.eqb i 0 then Some (T "draft")
        else if decide (COL_STATUS ∈ columns) then Some [] else None).
Proof.
  unfold variant_row. cbv zeta.
  split_and!; rewrite !dict_get_set_eqb; column_names;
    destruct (Nat.eqb i 0); rewrite !dict_get_set_eqb; column_names;
    rewrite ?dict_get_blank; reflexivity.
Qed.

(** A column that the loop does not write is blank. *)
Lemma variant_row_other columns ref i variant col :
  col ∉ written_columns ->
  dict_get (variant_row str_of_float columns ref i variant) col
  = if decide (col ∈ columns) then Some [] else None.
Proof.
  intros Hout. unfold variant_row. cbv zeta.
  assert (Hne : forall c, c ∈ written_columns -> c <> col) by (by intros c Hc ->).
  destruct (Nat.eqb i 0); rewrite !dict_get_set, dict_get_blank;
    repeat (rewrite decide_False;
            [|apply Hne; unfold written_columns;
              repeat (first [apply list_elem_of_here | apply list_elem_of_further])]);
    reflexivity.
Qed.

Lemma map_imap_ext {A B C} (g : B -> C) (h : A -> C) (l : list A) :
  forall f : nat -> A -> B,
  (forall i x, g (f i x) = h x) -> map g (imap f l) = map h l.
Proof.
  induction l as [|x l IH]; intros f Hf; [done|].
  cbn [imap map]. rewrite Hf. f_equal. apply IH. intros i y. apply Hf.
Qed.

Lemma product_rows_map {C} (g : pydict str -> C) (h : Parsed -> C) columns variants :
  (forall ref i v, g (variant_row str_of_float columns ref i v) = h v) ->
  map g (product_rows str_of_float columns variants) = map h variants.
Proof.
  intros Hg. unfold product_rows. destruct variants as [|ref variants]; [done|].
  apply map_imap_ext. intros i x. apply Hg.
Qed.

Lemma parse_item_item vendor_list (it : NewProduct) :
  item (parse_item vendor_list it) = it.
Proof.
  unfold parse_item.
  destruct (extract_sku_and_title _) as [clean_name sku].
  by destruct (extract_vendor_and_name _ _) as [vendor product_title].
Qed.

(** The frame of the new products, when there are some. *)
Lemma generate_new_products_unfold not_in_shopify shopify_columns shopify_df :
  not_in_shopify <> [] ->
  let parsed := map (parse_item (build_vendor_list shopify_df)) not_in_shopify in
  let columns :=
    if bool_decide (COL_COST ∈ shopify_columns) then shopify_columns
    else shopify_columns ++ [COL_COST] in
  generate_new_products str_of_float not_in_shopify shopify_columns shopify_df
  = {| df_columns := columns;
       df_cells :=
         map (row_cells columns)
           (flat_map (fun key =>
                        product_rows str_of_float columns
                          (filter (fun p => product_key p = key) parsed))
                     (distinct (map product_key parsed))) |}.
Proof.
  intros Hne. cbv zeta. unfold generate_new_products.
  destruct not_in_shopify as [|it0 items] eqn:E; [done|]. rewrite <- E. clear E.
  cbv zeta. f_equal. f_equal.
  change (fun d it => by_product_append d (_handle it, _sku it) it)
    with (fun d it => by_product_append d (product_key it) it).
  rewrite (by_product_fold _ [] (NoDup_nil_2)).
  cbn [map app]. rewrite flat_map_concat_map, map_map. cbn [snd].
  rewrite <- flat_map_concat_map.
  rewrite (filter_all (fun k => k ∉ [])); [done|].
  apply Forall_forall. intros k _. apply not_elem_of_nil.
Qed.

(** [generate_new_products] writes one row for each new product, with
    its bar code, its quantity and its size: when the export has the
    three columns, the rows of the frame carry, up to their order, the
    bar codes, quantities and sizes of the new products; and every row
    has a cell for each column of the frame. *)
Theorem generate_new_products_rows (not_in_shopify : list NewProduct)
    (shopify_columns : list str) (shopify_df : list ShopRow) :
  Forall (fun col => col ∈ shopify_columns) [COL_BARCODE; COL_QTY; COL_OPT1_VAL] ->
  let df := generate_new_products str_of_float not_in_shopify shopify_columns
              shopify_df in
  map (fun cells => (df_cell (df_columns df) cells COL_BARCODE,
                     df_cell (df_columns df) cells COL_QTY,
                     df_cell (df_columns df) cells COL_OPT1_VAL)) (df_cells df)
  ≡ₚ map (fun it => (np_Code_barre it, str_of_Z (np_Qte it), np_Taille it))
         not_in_shopify
  /\ Forall (fun cells => length cells = length (df_columns df)) (df_cells df).
Proof.
  intros Hcols. cbv zeta.
  destruct (decide (not_in_shopify = [])) as [->|Hne]; [by split|].
  rewrite (generate_new_products_unfold _ _ _ Hne). cbn [df_columns df_cells].
  set (parsed := map (parse_item (build_vendor_list shopify_df)) not_in_shopify).
  set (columns := if bool_decide (COL_COST ∈ shopify_columns) then shopify_columns
                  else shopify_columns ++ [COL_COST]).
  assert (Hin : forall col, col ∈ shopify_columns -> col ∈ columns).
  { intros col Hc. unfold columns. case_bool_decide; [done|].
    apply elem_of_app. by left. }
  apply Forall_cons in Hcols as [Hb Hcols]. apply Forall_cons in Hcols as [Hq Hcols].
  apply Forall_cons in Hcols as [Ho _].
  split.
  - rewrite map_map.
    rewrite (map_ext _ (fun row => (default [] (dict_get row COL_BARCODE),
                                    default [] (dict_get row COL_QTY),
                                    default [] (dict_get row COL_OPT1_VAL)))).
    2:{ intros row. by rewrite !df_cell_row_cells by auto. }
    rewrite flat_map_concat_map, concat_map, map_map.
    rewrite (map_ext _ (fun key => map (fun p => (np_Code_barre (item p),
                                                   str_of_Z (np_Qte (item p)),
                                                   np_Taille (item p)))
                                       (filter (fun p => product_key p = key) parsed))).
    2:{ intros key. apply product_rows_map. intros ref i v.
        destruct (variant_row_variant columns ref i v) as (-> & -> & -> & _). done. }
    rewrite <- map_map, <- concat_map.
    rewrite (group_by_key_perm product_key _ (distinct_NoDup _)).
    + unfold parsed. rewrite map_map. apply Permutation_refl'.
      apply map_ext. intros it. by rewrite parse_item_item.
    + apply Forall_forall. intros p Hp. apply distinct_elem.
      apply list_elem_of_fmap. by exists p.
  - apply Forall_forall. intros cells Hc.
    apply list_elem_of_fmap in Hc as (row & -> & _).
    unfold row_cells. by rewrite length_map.
Qed.

(** The rows of [generate_new_products] are grouped by product: the
    products, identified by their handle and their SKU, come in the order
    of their first new product, and the variants of a product in the
    order of the list; every row of a product has the title of its first
    variant, and the first row alone has the vendor and the status
    [draft]; a column that the function does not name, the handle for
    one, is left blank.  The frame has the columns of the export, and the column of
    the cost when the export lacks it; without new product the frame is
    empty and has no column. *)
Theorem generate_new_products_grouping (not_in_shopify : list NewProduct)
    (shopify_columns : list str) (shopify_df : list ShopRow) :
  let df := generate_new_products str_of_float not_in_shopify shopify_columns
              shopify_df in
  let parsed := map (parse_item (build_vendor_list shopify_df)) not_in_shopify in
  let columns :=
    if bool_decide (COL_COST ∈ shopify_columns) then shopify_columns
    else shopify_columns ++ [COL_COST] in
  (not_in_shopify = [] -> df = {| df_columns := []; df_cells := [] |})
  /\ (not_in_shopify <> [] ->
      df_columns df = columns
      /\ df_cells df
         = flat_map (fun key =>
              imap (fun i variant =>
                      row_cells columns
                        (variant_row str_of_float columns
                           (default variant
                              (head (filter (fun p => product_key p = key) parsed)))
                           i variant))
                   (filter (fun p => product_key p = key) parsed))
             (distinct (map product_key parsed)))
  /\ (forall ref i variant,
        let cells := row_cells columns
                       (variant_row str_of_float columns ref i variant) in
        (COL_TITLE ∈ columns -> df_cell columns cells COL_TITLE = _product_title ref)
        /\ (COL_VENDOR ∈ columns ->
            df_cell columns cells COL_VENDOR = if Nat.eqb i 0 then _vendor ref else [])
        /\ (COL_STATUS ∈ columns ->
            df_cell columns cells COL_STATUS = if Nat.eqb i 0 then T "draft" else [])
        /\ (forall col, col ∈ columns -> col ∉ written_columns ->
            df_cell columns cells col = [])).
Proof.
  cbv zeta. split_and!.
  - by intros ->.
  - intros Hne. rewrite (generate_new_products_unfold _ _ _ Hne).
    cbn [df_columns df_cells]. split; [done|].
    rewrite flat_map_concat_map, concat_map, map_map, <- flat_map_concat_map.
    apply flat_map_ext. intros key.
    unfold product_rows.
    destruct (filter _ _) as [|ref variants]; [done|].
    cbn [head default]. by rewrite fmap_imap.
  - intros ref i variant.
    destruct (variant_row_product
                (if bool_decide (COL_COST ∈ shopify_columns) then shopify_columns
                 else shopify_columns ++ [COL_COST]) ref i variant) as (Ht & Hv & Hs).
    split_and!.
    + intros Hin. rewrite df_cell_row_cells by done. by rewrite Ht.
    + intros Hin. rewrite df_cell_row_cells by done.
      rewrite Hv. destruct (Nat.eqb i 0); [done|]. by rewrite decide_True.
    + intros Hin. rewrite df_cell_row_cells by done.
      rewrite Hs. destruct (Nat.eqb i 0); [done|]. by rewrite decide_True.
    + intros col Hin Hout. rewrite df_cell_row_cells by done.
      by rewrite variant_row_other, decide_True.
Qed.
End Rows.

Lemma generate_new_products_rows_witness :
  Forall (fun col => col ∈ sample_columns) [COL_BARCODE; COL_QTY; COL_OPT1_VAL]
  /\ let df := generate_new_products sample_str_of_float sample_new_products
                 sample_columns nike_export in
     map (fun cells => (df_cell (df_columns df) cells COL_BARCODE,
                        df_cell (df_columns df) cells COL_QTY,
                        df_cell (df_columns df) cells COL_OPT1_VAL)) (df_cells df)
     ≡ₚ map (fun it => (np_Code_barre it, str_of_Z (np_Qte it), np_Taille it))
            sample_new_products
     /\ Forall (fun cells => length cells = length (df_columns df)) (df_cells df).
Proof.
  assert (H : Forall (fun col => col ∈ sample_columns)
                     [COL_BARCODE; COL_QTY; COL_OPT1_VAL]).
  { match goal with |- ?G => apply (bool_decide_unpack G) end. vm_compute. exact I. }
  split; [exact H|].
  exact (generate_new_products_rows sample_str_of_float sample_new_products
           sample_columns nike_export H).
Defined.

(* ================================================================== *)
(** ** Synchronisation *)

(** *** The store *)

Lemma shop_rows_insert (σ : store) df rows :
  shop_rows (<[df := ShopFrame rows]> σ) df = rows.
Proof. unfold shop_rows. by rewrite lookup_insert_eq. Qed.

Lemma shop_rows_lookup (σ : store) df rows :
  σ !! df = Some (ShopFrame rows) -> shop_rows σ df = rows.
Proof. unfold shop_rows. by intros ->. Qed.

Lemma at_set_insert (σ : store) df idx set rows row :
  σ !! df = Some (ShopFrame rows) -> rows !! idx = Some row ->
  at_set df idx set σ = <[df := ShopFrame (<[idx := set row]> rows)]> σ.
Proof.
  intros Hdf Hidx. unfold at_set. rewrite Hdf. do 2 f_equal.
  apply list_eq. intros i. destruct (decide (i = idx)) as [->|Hne].
  - rewrite list_lookup_alter_eq, Hidx, list_lookup_insert_eq; [done|].
    by eapply lookup_lt_Some.
  - by rewrite list_lookup_alter_ne, list_lookup_insert_ne.
Qed.

(** *** [_get_title] reads titles and bar codes only *)

Lemma first_title_ext rows1 rows2 idxs :
  (forall i, at_Title rows1 i = at_Title rows2 i) ->
  first_title rows1 idxs = first_title rows2 idxs.
Proof.
  intros H. induction idxs as [|i idxs IH]; simpl; [done|].
  rewrite H, IH. done.
Qed.

Lemma _get_title_ext rows1 rows2 idx :
  (forall i, at_Title rows1 i = at_Title rows2 i) ->
  at_Barcode rows1 idx = at_Barcode rows2 idx ->
  _get_title rows1 idx = _get_title rows2 idx.
Proof.
  intros HT HB. unfold _get_title.
  by rewrite HT, (first_title_ext rows1 rows2 _ HT), HB.
Qed.

Lemma at_Title_set_Quantity rows idx v row i :
  rows !! idx = Some row ->
  at_Title (<[idx := set_Quantity v row]> rows) i = at_Title rows i.
Proof.
  intros H. unfold at_Title. destruct (decide (idx = i)) as [->|Hne].
  - rewrite list_lookup_insert_eq, H; [done|]. by eapply lookup_lt_Some.
  - by rewrite list_lookup_insert_ne.
Qed.

Lemma at_Barcode_set_Quantity rows idx v row i :
  rows !! idx = Some row ->
  at_Barcode (<[idx := set_Quantity v row]> rows) i = at_Barcode rows i.
Proof.
  intros H. unfold at_Barcode. destruct (decide (idx = i)) as [->|Hne].
  - rewrite list_lookup_insert_eq, H; [done|]. by eapply lookup_lt_Some.
  - by rewrite list_lookup_insert_ne.
Qed.

Lemma _get_title_set_Quantity rows idx v row :
  rows !! idx = Some row ->
  _get_title (<[idx := set_Quantity v row]> rows) idx = _get_title rows idx.
Proof.
  intros H. apply _get_title_ext.
  - intros i. by apply at_Title_set_Quantity.
  - by apply at_Barcode_set_Quantity.
Qed.

(** *** One iteration *)

Section Step.
Variable phys_index : gmap str PhysRow.
Variable carry_over_map : comap.
Variable updated : nat.

Lemma sync_row_spec st idx row rows :
  heap st !! updated = Some (ShopFrame rows) ->
  rows !! idx = Some row ->
  let st' := sync_row phys_index carry_over_map updated st (idx, row) in
  heap st' = <[updated := ShopFrame (<[idx := row_after phys_index carry_over_map row]> rows)]> (heap st)
  /\ matched_l st' = matched_l st ++ matched_of phys_index row
  /\ qty_changes_l st' = qty_changes_l st ++ qty_change_of phys_index rows idx row
  /\ set_to_zero_l st' = set_to_zero_l st ++ zero_of phys_index rows idx row
  /\ carry_over_upd st' = carry_over_upd st ++ carry_over_of phys_index carry_over_map row.
Proof.
  intros Hh Hr. 
  assert (Hid : heap st = <[updated := ShopFrame (<[idx := row]> rows)]> (heap st)).
  { by rewrite list_insert_id, insert_id. }
  unfold sync_row, row_after, matched_of, qty_change_of, zero_of, carry_over_of.
  cbv zeta. destruct st as [σ m q z c]; simpl in *.
  case_bool_decide as Hb.
  { simpl. rewrite !app_nil_r. by repeat split. }
  destruct (phys_index !! strip (Barcode row)) as [phys|] eqn:Hp.
  - unfold rename_carry_over, title_after. cbv zeta. simpl.
    rewrite (shop_rows_lookup σ updated rows Hh).
    rewrite (at_set_insert σ updated idx _ rows row Hh Hr).
    destruct (carry_over_map !! _) as [season|] eqn:Hco.
    + destruct (bool_decide _ && negb _)%bool eqn:Hc; simpl.
      * erewrite at_set_insert; [|apply lookup_insert_eq|apply list_lookup_insert_eq; by eapply lookup_lt_Some].
        rewrite insert_insert_eq, list_insert_insert_eq, !app_nil_r.
        by repeat split.
      * rewrite !app_nil_r. by repeat split.
    + simpl. rewrite !app_nil_r. by repeat split.
  - case_bool_decide as Hz.
    + simpl. rewrite !app_nil_r. by repeat split.
    + simpl. rewrite (at_set_insert σ updated idx _ rows row Hh Hr).
      rewrite shop_rows_insert, (_get_title_set_Quantity rows idx _ row Hr).
      rewrite !app_nil_r. by repeat split.
Qed.
End Step.

Section Fold.
Variable phys_index : gmap str PhysRow.
Variable carry_over_map : comap.
Variable updated : nat.

Let ra := row_after phys_index carry_over_map.

Lemma table_at_step seen row todo :
  <[length seen := ra row]> (table_at phys_index carry_over_map seen (row :: todo))
  = table_at phys_index carry_over_map (seen ++ [row]) todo.
Proof.
  unfold table_at. rewrite map_app, <- app_assoc. simpl.
  replace (length seen) with (length (map (row_after phys_index carry_over_map) seen) + 0)%nat
    by (rewrite length_map; lia).
  by rewrite insert_app_r.
Qed.

Lemma table_at_lookup seen row todo :
  table_at phys_index carry_over_map seen (row :: todo) !! length seen = Some row.
Proof.
  unfold table_at. rewrite lookup_app_r; rewrite length_map; [|lia].
  by rewrite Nat.sub_diag.
Qed.

Lemma sync_fold_spec todo : forall seen st,
  heap st !! updated = Some (ShopFrame (table_at phys_index carry_over_map seen todo)) ->
  let st' := fold_left (sync_row phys_index carry_over_map updated)
                       (zip (seq (length seen) (length todo)) todo) st in
  heap st' = <[updated := ShopFrame (map ra (seen ++ todo))]> (heap st)
  /\ matched_l st' = matched_l st ++ flat_map (matched_of phys_index) todo
  /\ qty_changes_l st' = qty_changes_l st ++ qty_changes_from phys_index carry_over_map seen todo
  /\ set_to_zero_l st' = set_to_zero_l st ++ set_to_zero_from phys_index carry_over_map seen todo
  /\ carry_over_upd st' = carry_over_upd st ++ flat_map (carry_over_of phys_index carry_over_map) todo.
Proof.
  induction todo as [|row todo IH]; intros seen st Hh.
  - simpl. rewrite !app_nil_r. unfold table_at in Hh. rewrite app_nil_r in Hh.
    rewrite insert_id by done. by repeat split.
  - destruct (sync_row_spec phys_index carry_over_map updated st (length seen) row _ Hh
                (table_at_lookup seen row todo)) as (H1 & H2 & H3 & H4 & H5).
    set (st1 := sync_row phys_index carry_over_map updated st (length seen, row)) in *.
    rewrite table_at_step in H1.
    specialize (IH (seen ++ [row]) st1).
    rewrite length_app in IH. simpl in IH. rewrite Nat.add_1_r in IH.
    destruct IH as (I1 & I2 & I3 & I4 & I5).
    { rewrite H1. apply lookup_insert_eq. }
    change (fold_left (sync_row phys_index carry_over_map updated)
              (zip (seq (length seen) (length (row :: todo))) (row :: todo)) st)
      with (fold_left (sync_row phys_index carry_over_map updated)
              (zip (seq (S (length seen)) (length todo)) todo) st1).
    cbv zeta. cbn [flat_map qty_changes_from set_to_zero_from].
    rewrite I1, I2, I3, I4, I5, H1, H2, H3, H4, H5.
    rewrite insert_insert_eq, <- !app_assoc. simpl. by repeat split.
Qed.
End Fold.

(** *** The call *)

Lemma df_copy_fresh (σ : store) df : σ !! (fst (df_copy df σ)) = None.
Proof.
  unfold df_copy. simpl. apply not_elem_of_dom. apply is_fresh.
Qed.

Lemma sync_loop_spec physical carry_over_map updated (σ : store) rows :
  σ !! updated = Some (ShopFrame rows) ->
  let pi := phys_index_of physical in
  let st := sync_loop physical carry_over_map updated σ in
  heap st = <[updated := ShopFrame (map (row_after pi carry_over_map) rows)]> σ
  /\ matched_l st = flat_map (matched_of pi) rows
  /\ qty_changes_l st = qty_changes_from pi carry_over_map [] rows
  /\ set_to_zero_l st = set_to_zero_from pi carry_over_map [] rows
  /\ carry_over_upd st = flat_map (carry_over_of pi carry_over_map) rows.
Proof.
  intros Hh. unfold sync_loop, iterrows.
  rewrite (shop_rows_lookup σ updated rows Hh).
  apply (sync_fold_spec (phys_index_of physical) carry_over_map updated rows []
           {| heap := σ; matched_l := []; qty_changes_l := []; set_to_zero_l := [];
              carry_over_upd := [] |}).
  exact Hh.
Qed.

(** The shape of a well-typed call: the copy is a new frame [u], the loop
    rewrites it, every other frame is as before. *)
Lemma sync_stocks_spec physical_df shopify_df carry_over_map (σ : store) physical rows :
  σ !! physical_df = Some (PhysFrame physical) ->
  σ !! shopify_df = Some (ShopFrame rows) ->
  let pi := phys_index_of physical in
  let u := fresh (dom σ) in
  let σ1 := <[u := ShopFrame rows]> σ in
  let st := sync_loop physical carry_over_map u σ1 in
  sync_stocks physical_df shopify_df carry_over_map σ =
    (u,
     {| total_physical := length physical;
        total_shopify := length rows;
        matched := length (matched_l st);
        qty_changes := qty_changes_l st;
        set_to_zero := set_to_zero_l st;
        not_in_shopify :=
          fold_left (not_in_shop_step (list_to_set (map (fun r => strip (Barcode r)) rows)))
                    physical [];
        carry_over_updates := carry_over_upd st |},
     <[u := ShopFrame (map (row_after pi carry_over_map) rows)]> σ)
  /\ u <> physical_df /\ u <> shopify_df.
Proof.
  intros Hp Hs pi u σ1 st.
  assert (Hu : σ !! u = None) by (apply not_elem_of_dom, is_fresh).
  assert (u <> physical_df) by congruence.
  assert (u <> shopify_df) by congruence.
  split; [|done].
  unfold sync_stocks, df_copy. rewrite Hs. fold u. fold σ1.
  unfold phys_rows. rewrite Hp. fold st.
  destruct (sync_loop_spec physical carry_over_map u σ1 rows) as (H1 & _).
  { apply lookup_insert_eq. }
  fold st in H1. rewrite H1. unfold σ1. rewrite insert_insert_eq.
  unfold shop_rows. rewrite lookup_insert_ne, Hs by done. done.
Qed.

(** *** What the loop keeps of a row *)

Lemma row_after_frame pi co row :
  Vendor (row_after pi co row) = Vendor row
  /\ Barcode (row_after pi co row) = Barcode row
  /\ others (row_after pi co row) = others row.
Proof.
  unfold row_after. cbv zeta. case_bool_decide; [done|].
  destruct (pi !! _) as [phys|].
  - destruct (title_after co row _ phys) as [[? ?]|]; done.
  - case_bool_decide; done.
Qed.

Lemma row_after_Quantity pi co row phys :
  strip (Barcode row) <> [] ->
  pi !! strip (Barcode row) = Some phys ->
  Quantity (row_after pi co row) = str_of_Z (Qte phys).
Proof.
  intros Hb Hp. unfold row_after. cbv zeta.
  rewrite bool_decide_eq_false_2, Hp by done.
  destruct (title_after co row _ phys) as [[? ?]|]; done.
Qed.

Lemma row_after_blank_Title pi co row :
  strip (Title row) = [] -> Title (row_after pi co row) = Title row.
Proof.
  intros Ht. unfold row_after. cbv zeta. case_bool_decide; [done|].
  destruct (pi !! _) as [phys|].
  - unfold title_after. cbv zeta. destruct (co !! _); [|done].
    rewrite Ht. done.
  - case_bool_decide; done.
Qed.

(** *** C10 *)

(** C10. [sync_stocks] writes the quantity and the title only, and only in
    its copy: the frame it returns has the rows of the Shopify export in
    number and order, each with the cells of its other columns, and every
    frame that existed before the call, the two arguments among them, is as
    it was. *)
Theorem sync_stocks_frame physical_df shopify_df carry_over_map (σ : store)
    physical rows :
  σ !! physical_df = Some (PhysFrame physical) ->
  σ !! shopify_df = Some (ShopFrame rows) ->
  let '(updated, _, σ') := sync_stocks physical_df shopify_df carry_over_map σ in
  length (shop_rows σ' updated) = length rows
  /\ (forall i row row',
        rows !! i = Some row -> shop_rows σ' updated !! i = Some row' ->
        Vendor row' = Vendor row /\ Barcode row' = Barcode row
        /\ others row' = others row)
  /\ σ' !! physical_df = Some (PhysFrame physical)
  /\ σ' !! shopify_df = Some (ShopFrame rows)
  /\ σ !! updated = None
  /\ (forall df, df <> updated -> σ' !! df = σ !! df).
Proof.
  intros Hp Hs.
  destruct (sync_stocks_spec physical_df shopify_df carry_over_map σ physical rows Hp Hs)
    as (-> & Hup & Hus).
  rewrite shop_rows_insert. split_and!.
  - apply length_map.
  - intros i row row' Hi Hi'.
    rewrite list_lookup_fmap, Hi in Hi'. simpl in Hi'. injection Hi' as <-.
    apply row_after_frame.
  - by rewrite lookup_insert_ne.
  - by rewrite lookup_insert_ne.
  - apply not_elem_of_dom, is_fresh.
  - intros df Hdf. by rewrite lookup_insert_ne.
Qed.

(** *** C4 *)

Lemma qty_change_of_after pi co tbl idx row :
  qty_change_of pi tbl idx (row_after pi co row) = [].
Proof.
  unfold qty_change_of. cbv zeta.
  destruct (row_after_frame pi co row) as (_ & -> & _).
  case_bool_decide as Hb; [done|].
  destruct (pi !! _) as [phys|] eqn:Hp; [|done].
  rewrite (row_after_Quantity pi co row phys Hb Hp), strip_str_of_Z.
  rewrite bool_decide_eq_false_2; [done|]. intros H. by apply H.
Qed.

Lemma qty_changes_from_after pi co todo : forall seen,
  qty_changes_from pi co seen (map (row_after pi co) todo) = [].
Proof.
  induction todo as [|row todo IH]; intros seen; simpl; [done|].
  by rewrite qty_change_of_after, IH.
Qed.

(** C4. Reconciliation is idempotent on the quantities: a second call of
    [sync_stocks] with the same physical stock and carry-over map, on the
    frame that the first call returned, records no quantity change. *)
Theorem sync_stocks_idempotent physical_df shopify_df carry_over_map (σ : store)
    physical rows :
  σ !! physical_df = Some (PhysFrame physical) ->
  σ !! shopify_df = Some (ShopFrame rows) ->
  let '(updated, _, σ1) := sync_stocks physical_df shopify_df carry_over_map σ in
  let '(_, stats2, _) := sync_stocks physical_df updated carry_over_map σ1 in
  qty_changes stats2 = [].
Proof.
  intros Hp Hs.
  destruct (sync_stocks_spec physical_df shopify_df carry_over_map σ physical rows Hp Hs)
    as (-> & Hup & Hus).
  set (u := fresh (dom σ)) in *.
  set (rows1 := map (row_after (phys_index_of physical) carry_over_map) rows).
  set (σ1 := <[u := ShopFrame rows1]> σ).
  assert (Hp1 : σ1 !! physical_df = Some (PhysFrame physical)).
  { unfold σ1. by rewrite lookup_insert_ne. }
  assert (Hs1 : σ1 !! u = Some (ShopFrame rows1)) by apply lookup_insert_eq.
  destruct (sync_stocks_spec physical_df u carry_over_map σ1 physical rows1 Hp1 Hs1)
    as (-> & _). simpl.
  destruct (sync_loop_spec physical carry_over_map (fresh (dom σ1))
              (<[fresh (dom σ1) := ShopFrame rows1]> σ1) rows1) as (_ & _ & -> & _).
  { apply lookup_insert_eq. }
  apply qty_changes_from_after.
Qed.

(** *** C1 *)

Lemma phys_index_fold physical : forall (m : gmap str PhysRow) b,
  is_Some (fold_left (fun m r => <[Code_barre r := r]> m) physical m !! b)
  <-> is_Some (m !! b) \/ b ∈ map Code_barre physical.
Proof.
  induction physical as [|r physical IH]; intros m b; simpl.
  - rewrite elem_of_nil. tauto.
  - rewrite IH, lookup_insert_is_Some, elem_of_cons.
    destruct (decide (Code_barre r = b)) as [Heq|Hne]; intuition congruence.
Qed.

Lemma phys_index_is_Some physical b :
  is_Some (phys_index_of physical !! b) <-> b ∈ map Code_barre physical.
Proof.
  unfold phys_index_of. rewrite phys_index_fold, lookup_empty.
  split; [intros [[? ?]|?]; done | tauto].
Qed.

Lemma matched_of_filter physical rows :
  flat_map (matched_of (phys_index_of physical)) rows
  = map (fun row => strip (Barcode row)) (filter (is_matched physical) rows).
Proof.
  induction rows as [|row rows IH]; [done|].
  cbn [flat_map]. rewrite filter_cons, IH. unfold matched_of. cbv zeta.
  pose proof (phys_index_is_Some physical (strip (Barcode row))) as Hm.
  case_bool_decide as Hb.
  - rewrite decide_False; [done|]. unfold is_matched. tauto.
  - destruct (phys_index_of physical !! _) as [phys|].
    + rewrite decide_True; [done|]. split; [done|]. apply Hm. eauto.
    + rewrite decide_False; [done|]. intros [_ H]. apply Hm in H. by destruct H.
Qed.

Lemma set_to_zero_from_filter physical co todo : forall seen,
  map z_Code_barre (set_to_zero_from (phys_index_of physical) co seen todo)
  = map (fun row => strip (Barcode row)) (filter (is_zeroed physical) todo).
Proof.
  induction todo as [|row todo IH]; intros seen; [done|].
  cbn [set_to_zero_from]. rewrite map_app, filter_cons, IH.
  unfold zero_of. cbv zeta.
  pose proof (phys_index_is_Some physical (strip (Barcode row))) as Hm.
  case_bool_decide as Hb.
  - rewrite decide_False; [done|]. unfold is_zeroed. tauto.
  - destruct (phys_index_of physical !! _) as [phys|].
    + rewrite decide_False; [done|]. intros (_ & H & _). apply H, Hm. eauto.
    + case_bool_decide as Hq.
      * rewrite decide_False; [done|]. unfold is_zeroed. tauto.
      * rewrite decide_True; [done|]. split_and!; [done| |done].
        intros H. apply Hm in H. by destruct H.
Qed.

Lemma not_in_shop_filter (rows : list ShopRow) physical : forall acc,
  fold_left (not_in_shop_step (list_to_set (map (fun r => strip (Barcode r)) rows)))
            physical acc
  = acc ++ map new_product (filter (is_new rows) physical).
Proof.
  induction physical as [|rec physical IH]; intros acc; simpl.
  - by rewrite app_nil_r.
  - rewrite IH, filter_cons. unfold not_in_shop_step. cbv zeta.
    destruct (decide (is_new rows rec)) as [[H1 H2]|Hn].
    + rewrite !bool_decide_eq_true_2; [|by rewrite elem_of_list_to_set|done].
      simpl. by rewrite <- app_assoc.
    + destruct (bool_decide (Code_barre rec <> []) && _)%bool eqn:E; [|done].
      apply andb_true_iff in E as [E1 E2].
      apply bool_decide_eq_true_1 in E1, E2.
      rewrite elem_of_list_to_set in E2. by destruct Hn.
Qed.

(** C1, as the code has it.  Each row of the export whose trimmed bar code
    is not empty adds one entry to the matched list when a physical record
    has that bar code, one entry to the set-to-zero list when none has and
    the trimmed quantity is neither 0 nor empty, and nothing otherwise;
    each physical record whose bar code is not empty and is not a trimmed
    bar code of the export adds one new product, and no other record
    does.  The lists are in the order of the rows. *)
Theorem sync_stocks_partition physical_df shopify_df carry_over_map (σ : store)
    physical rows :
  σ !! physical_df = Some (PhysFrame physical) ->
  σ !! shopify_df = Some (ShopFrame rows) ->
  let '(updated, σ1) := df_copy shopify_df σ in
  let st := sync_loop physical carry_over_map updated σ1 in
  let '(_, stats, _) := sync_stocks physical_df shopify_df carry_over_map σ in
  matched_l st = map (fun row => strip (Barcode row)) (filter (is_matched physical) rows)
  /\ matched stats = length (filter (is_matched physical) rows)
  /\ map z_Code_barre (set_to_zero stats)
     = map (fun row => strip (Barcode row)) (filter (is_zeroed physical) rows)
  /\ not_in_shopify stats = map new_product (filter (is_new rows) physical).
Proof.
  intros Hp Hs.
  destruct (sync_stocks_spec physical_df shopify_df carry_over_map σ physical rows Hp Hs)
    as (-> & _).
  unfold df_copy. rewrite Hs.
  destruct (sync_loop_spec physical carry_over_map (fresh (dom σ))
              (<[fresh (dom σ) := ShopFrame rows]> σ) rows) as (_ & -> & _ & -> & _).
  { apply lookup_insert_eq. }
  cbn [matched set_to_zero not_in_shopify].
  rewrite matched_of_filter, set_to_zero_from_filter, not_in_shop_filter, length_map.
  done.
Qed.

(** *** C9 *)

Lemma range_down_window idx :
  range_down (Z.of_nat idx - 1) (Z.max (Z.of_nat idx - 20) (-1))
  = map (fun k => Z.of_nat idx - 1 - Z.of_nat k) (seq 0 (Nat.min idx 19)).
Proof. unfold range_down. do 2 f_equal. lia. Qed.

Lemma first_title_walk rows idx : forall n a, (a + n <= idx)%nat ->
  match first_title rows (map (fun k => Z.of_nat idx - 1 - Z.of_nat k) (seq a n)) with
  | Some t =>
      exists j, (idx - a - n <= j < idx - a)%nat
                /\ t = strip (at_Title rows j) /\ t <> []
                /\ forall j', (j < j' < idx - a)%nat -> strip (at_Title rows j') = []
  | None => forall j, (idx - a - n <= j < idx - a)%nat -> strip (at_Title rows j) = []
  end.
Proof.
  induction n as [|n IH]; intros a Ha; simpl.
  - intros j Hj. lia.
  - replace (Z.to_nat (Z.of_nat idx - 1 - Z.of_nat a)) with (idx - 1 - a)%nat by lia.
    case_bool_decide as Ht.
    + exists (idx - 1 - a)%nat. split_and!; [lia | lia | done | done | intros; lia].
    + assert (Hblank : strip (at_Title rows (idx - 1 - a)) = []).
      { destruct (decide (strip (at_Title rows (idx - 1 - a)) = [])); [done|].
        by destruct Ht. }
      specialize (IH (S a)).
      destruct (first_title rows _) as [t|].
      * destruct IH as (j & Hj & Hjt & Hne & Hbetween); [lia|].
        exists j. split_and!; [lia | lia | done | done |].
        intros j' Hj'. destruct (decide (j' = idx - 1 - a)%nat) as [->|]; [done|].
        apply Hbetween. lia.
      * intros j Hj. destruct (decide (j = idx - 1 - a)%nat) as [->|]; [done|].
        apply IH; lia.
Qed.

Lemma _get_title_blank rows idx :
  strip (at_Title rows idx) = [] -> resolved_title rows idx (_get_title rows idx).
Proof.
  intros Hb. unfold _get_title. cbv zeta.
  rewrite Hb, bool_decide_eq_false_2 by (intros H; by apply H).
  rewrite range_down_window.
  pose proof (first_title_walk rows idx (Nat.min idx 19) 0) as Hw.
  destruct (first_title rows _) as [t|].
  - destruct Hw as (j & Hj & Hjt & Hne & Hbetween); [lia|].
    left. exists j. split_and!; [lia | lia | done | done |].
    intros j' Hj'. apply Hbetween. lia.
  - right. split; [|done]. intros j Hj. apply Hw; lia.
Qed.

Lemma resolved_title_ext rows1 rows2 idx t :
  (forall j, (j < idx)%nat -> at_Title rows1 j = at_Title rows2 j) ->
  at_Barcode rows1 idx = at_Barcode rows2 idx ->
  resolved_title rows1 idx t -> resolved_title rows2 idx t.
Proof.
  intros HT HB [(j & Hj & Hjt & Hne & Hbetween)|[Hall Ht]].
  - left. exists j. split_and!; [lia | lia | | done |].
    + rewrite <- HT by lia. done.
    + intros j' Hj'. rewrite <- HT by lia. by apply Hbetween.
  - right. split.
    + intros j Hj. rewrite <- HT by lia. by apply Hall.
    + by rewrite <- HB.
Qed.

Section Resolved.
Variable pi : gmap str PhysRow.
Variable co : comap.

Lemma table_at_Title_before seen row todo j :
  (j < length seen)%nat ->
  at_Title (table_at pi co seen (row :: todo)) j
  = at_Title (map (row_after pi co) (seen ++ row :: todo)) j.
Proof.
  intros Hj. unfold at_Title, table_at.
  rewrite map_app, !lookup_app_l by (rewrite length_map; lia). done.
Qed.

Lemma table_at_Barcode_here seen row todo :
  at_Barcode (table_at pi co seen (row :: todo)) (length seen)
  = at_Barcode (map (row_after pi co) (seen ++ row :: todo)) (length seen).
Proof.
  unfold at_Barcode, table_at.
  rewrite map_app, !lookup_app_r by (rewrite length_map; lia).
  rewrite length_map, Nat.sub_diag. simpl.
  by destruct (row_after_frame pi co row) as (_ & -> & _).
Qed.

Lemma table_at_Title_here seen row todo :
  at_Title (table_at pi co seen (row :: todo)) (length seen) = Title row.
Proof.
  unfold at_Title, table_at.
  rewrite lookup_app_r by (rewrite length_map; lia).
  by rewrite length_map, Nat.sub_diag.
Qed.

(** The title that an iteration records for a row with a blank title. *)
Lemma recorded_title_resolved seen row todo :
  strip (Title row) = [] ->
  resolved_title (map (row_after pi co) (seen ++ row :: todo)) (length seen)
    (_get_title (table_at pi co seen (row :: todo)) (length seen)).
Proof.
  intros Hb.
  apply (resolved_title_ext (table_at pi co seen (row :: todo))).
  - intros j Hj. by apply table_at_Title_before.
  - apply table_at_Barcode_here.
  - apply _get_title_blank. by rewrite table_at_Title_here.
Qed.

Lemma qty_changes_from_elem todo : forall seen e,
  e ∈ qty_changes_from pi co seen todo ->
  exists pre row post,
    todo = pre ++ row :: post
    /\ e ∈ qty_change_of pi (table_at pi co (seen ++ pre) (row :: post))
                         (length (seen ++ pre)) row.
Proof.
  induction todo as [|row todo IH]; intros seen e He; simpl in He.
  - by apply elem_of_nil in He.
  - apply elem_of_app in He as [He|He].
    + exists [], row, todo. by rewrite app_nil_r.
    + destruct (IH _ _ He) as (pre & r & post & -> & Hin).
      exists (row :: pre), r, post. split; [done|].
      by rewrite <- app_assoc in Hin.
Qed.

Lemma set_to_zero_from_elem todo : forall seen e,
  e ∈ set_to_zero_from pi co seen todo ->
  exists pre row post,
    todo = pre ++ row :: post
    /\ e ∈ zero_of pi (table_at pi co (seen ++ pre) (row :: post))
                   (length (seen ++ pre)) row.
Proof.
  induction todo as [|row todo IH]; intros seen e He; simpl in He.
  - by apply elem_of_nil in He.
  - apply elem_of_app in He as [He|He].
    + exists [], row, todo. by rewrite app_nil_r.
    + destruct (IH _ _ He) as (pre & r & post & -> & Hin).
      exists (row :: pre), r, post. split; [done|].
      by rewrite <- app_assoc in Hin.
Qed.

Lemma qty_change_of_elem rows idx row e :
  e ∈ qty_change_of pi rows idx row ->
  qc_Code_barre e = strip (Barcode row) /\ qc_Titre e = _get_title rows idx.
Proof.
  unfold qty_change_of. cbv zeta. case_bool_decide; [by intros ?%elem_of_nil|].
  destruct (pi !! _); [|by intros ?%elem_of_nil].
  case_bool_decide; [|by intros ?%elem_of_nil].
  intros ->%list_elem_of_singleton. done.
Qed.

Lemma zero_of_elem rows idx row e :
  e ∈ zero_of pi rows idx row ->
  z_Code_barre e = strip (Barcode row) /\ z_Titre e = _get_title rows idx.
Proof.
  unfold zero_of. cbv zeta. case_bool_decide; [by intros ?%elem_of_nil|].
  destruct (pi !! _); [by intros ?%elem_of_nil|].
  case_bool_decide; [by intros ?%elem_of_nil|].
  intros ->%list_elem_of_singleton. done.
Qed.
End Resolved.

(** C9, as the code has it.  Every quantity-change entry and every
    set-to-zero entry comes from a row of the export with its trimmed bar
    code; when the title of that row is blank, the recorded title is the
    trimmed title of the nearest row with a title among the 19 rows above it
    in the updated table, and the bar code of the row in brackets when none
    of them has a title. *)
Theorem sync_stocks_recorded_title physical_df shopify_df carry_over_map
    (σ : store) physical rows :
  σ !! physical_df = Some (PhysFrame physical) ->
  σ !! shopify_df = Some (ShopFrame rows) ->
  let '(updated, stats, σ') := sync_stocks physical_df shopify_df carry_over_map σ in
  (forall e, e ∈ qty_changes stats ->
     exists idx row,
       rows !! idx = Some row /\ qc_Code_barre e = strip (Barcode row)
       /\ (strip (Title row) = [] ->
           resolved_title (shop_rows σ' updated) idx (qc_Titre e)))
  /\ (forall e, e ∈ set_to_zero stats ->
     exists idx row,
       rows !! idx = Some row /\ z_Code_barre e = strip (Barcode row)
       /\ (strip (Title row) = [] ->
           resolved_title (shop_rows σ' updated) idx (z_Titre e))).
Proof.
  intros Hp Hs.
  destruct (sync_stocks_spec physical_df shopify_df carry_over_map σ physical rows Hp Hs)
    as (-> & _).
  destruct (sync_loop_spec physical carry_over_map (fresh (dom σ))
              (<[fresh (dom σ) := ShopFrame rows]> σ) rows) as (_ & _ & -> & -> & _).
  { apply lookup_insert_eq. }
  rewrite shop_rows_insert. cbn [qty_changes set_to_zero]. split.
  - intros e He.
    apply qty_changes_from_elem in He as (pre & row & post & -> & He).
    apply qty_change_of_elem in He as [Hb Ht]. simpl in *.
    exists (length pre), row. split_and!.
    + by rewrite lookup_app_r, Nat.sub_diag.
    + done.
    + intros Hblank. rewrite Ht. by apply recorded_title_resolved.
  - intros e He.
    apply set_to_zero_from_elem in He as (pre & row & post & -> & He).
    apply zero_of_elem in He as [Hb Ht]. simpl in *.
    exists (length pre), row. split_and!.
    + by rewrite lookup_app_r, Nat.sub_diag.
    + done.
    + intros Hblank. rewrite Ht. by apply recorded_title_resolved.
Qed.

(** *** Instances on the sample data *)

Lemma sync_stocks_frame_witness :
  sample_store !! 0%nat = Some (PhysFrame (fst (detect_carry_over sample_physical)))
  /\ sample_store !! 1%nat = Some (ShopFrame sample_export)
  /\ let '(updated, _, σ') := sync_stocks 0 1 sample_carry_over sample_store in
     length (shop_rows σ' updated) = length sample_export
     /\ (forall i row row',
           sample_export !! i = Some row -> shop_rows σ' updated !! i = Some row' ->
           Vendor row' = Vendor row /\ Barcode row' = Barcode row
           /\ others row' = others row)
     /\ σ' !! 0%nat = Some (PhysFrame (fst (detect_carry_over sample_physical)))
     /\ σ' !! 1%nat = Some (ShopFrame sample_export)
     /\ sample_store !! updated = None
     /\ (forall df, df <> updated -> σ' !! df = sample_store !! df).
Proof.
  split; [reflexivity|]. split; [reflexivity|].
  apply (sync_stocks_frame 0 1 sample_carry_over sample_store); reflexivity.
Defined.

Lemma sync_stocks_idempotent_witness :
  sample_store !! 0%nat = Some (PhysFrame (fst (detect_carry_over sample_physical)))
  /\ sample_store !! 1%nat = Some (ShopFrame sample_export)
  /\ let '(updated, _, σ1) := sync_stocks 0 1 sample_carry_over sample_store in
     let '(_, stats2, _) := sync_stocks 0 updated sample_carry_over σ1 in
     qty_changes stats2 = [].
Proof.
  split; [reflexivity|]. split; [reflexivity|].
  apply (sync_stocks_idempotent 0 1 sample_carry_over sample_store
           (fst (detect_carry_over sample_physical)) sample_export); reflexivity.
Defined.

Lemma sync_stocks_partition_witness :
  sample_store !! 0%nat = Some (PhysFrame (fst (detect_carry_over sample_physical)))
  /\ sample_store !! 1%nat = Some (ShopFrame sample_export)
  /\ let physical := fst (detect_carry_over sample_physical) in
     let '(updated, σ1) := df_copy 1 sample_store in
     let st := sync_loop physical sample_carry_over updated σ1 in
     let '(_, stats, _) := sync_stocks 0 1 sample_carry_over sample_store in
     matched_l st
     = map (fun row => strip (Barcode row)) (filter (is_matched physical) sample_export)
     /\ matched stats = length (filter (is_matched physical) sample_export)
     /\ map z_Code_barre (set_to_zero stats)
        = map (fun row => strip (Barcode row)) (filter (is_zeroed physical) sample_export)
     /\ not_in_shopify stats = map new_product (filter (is_new sample_export) physical).
Proof.
  split; [reflexivity|]. split; [reflexivity|].
  apply (sync_stocks_partition 0 1 sample_carry_over sample_store
           (fst (detect_carry_over sample_physical)) sample_export); reflexivity.
Defined.

(** C1 as stated fails: the row of the sample export with the bar code 8-8
    and the quantity 0 has no physical record, and is in neither list. *)
Lemma sync_stocks_row_in_neither_list :
  sample_export !! 3%nat = Some (shop_row "" "" "8-8" "0")
  /\ let '(updated, σ1) := df_copy 1 sample_store in
     let st := sync_loop (fst (detect_carry_over sample_physical))
                         sample_carry_over updated σ1 in
     let '(_, stats, _) := sync_stocks 0 1 sample_carry_over sample_store in
     matched_l st = [T "65368-2"; T "75368-2"]
     /\ map z_Code_barre (set_to_zero stats) = [T "9-9"].
Proof. split; vm_compute; [reflexivity | split; reflexivity]. Qed.

Lemma sync_stocks_recorded_title_witness :
  long_store !! 0%nat = Some (PhysFrame sample_physical)
  /\ long_store !! 1%nat = Some (ShopFrame long_export)
  /\ let '(updated, stats, σ') := sync_stocks 0 1 ∅ long_store in
     (forall e, e ∈ qty_changes stats ->
        exists idx row,
          long_export !! idx = Some row /\ qc_Code_barre e = strip (Barcode row)
          /\ (strip (Title row) = [] ->
              resolved_title (shop_rows σ' updated) idx (qc_Titre e)))
     /\ (forall e, e ∈ set_to_zero stats ->
        exists idx row,
          long_export !! idx = Some row /\ z_Code_barre e = strip (Barcode row)
          /\ (strip (Title row) = [] ->
              resolved_title (shop_rows σ' updated) idx (z_Titre e))).
Proof.
  split; [reflexivity|]. split; [reflexivity|].
  apply (sync_stocks_recorded_title 0 1 ∅ long_store sample_physical long_export);
    reflexivity.
Defined.

(** C9 as stated fails: in the long export the nearest title above the last
    row is 20 rows up, and the recorded title is the bar code in
    brackets. *)
Lemma sync_stocks_title_out_of_reach :
  let '(updated, stats, σ') := sync_stocks 0 1 ∅ long_store in
  nearest_title_above (shop_rows σ' updated) 20 = Some (T "Veste")
  /\ at_Title (shop_rows σ' updated) 20 = []
  /\ map qc_Titre (qty_changes stats) = [T "(barcode: 65368-2)"].
Proof. vm_compute. split_and!; reflexivity. Qed.

(** *** The cells that the loop writes *)

Lemma phys_index_fold_last physical : forall (m : gmap str PhysRow) b,
  fold_left (fun m r => <[Code_barre r := r]> m) physical m !! b
  = match last_record physical b with
    | Some r => Some r
    | None => m !! b
    end.
Proof.
  unfold last_record.
  induction physical as [|r physical IH]; intros m b; simpl; [done|].
  rewrite IH, filter_cons. case_decide as Hb.
  - rewrite last_cons. destruct (last _); [done|].
    rewrite <- Hb. apply lookup_insert_eq.
  - destruct (last _); [done|]. by apply lookup_insert_ne.
Qed.

Lemma phys_index_last physical b :
  phys_index_of physical !! b = last_record physical b.
Proof.
  unfold phys_index_of. rewrite phys_index_fold_last, lookup_empty.
  by destruct (last_record physical b).
Qed.

Lemma last_record_None physical b :
  last_record physical b = None <-> b ∉ map Code_barre physical.
Proof.
  rewrite <- phys_index_last, <- phys_index_is_Some, eq_None_not_Some. done.
Qed.

Lemma row_after_Title pi co row :
  Title (row_after pi co row)
  = match pi !! strip (Barcode row) with
    | Some phys =>
        if bool_decide (strip (Barcode row) = []) then Title row
        else match title_after co row (strip (Barcode row)) phys with
             | Some (_, new_title) => new_title
             | None => Title row
             end
    | None => Title row
    end.
Proof.
  unfold row_after. cbv zeta. case_bool_decide.
  - by destruct (pi !! _).
  - destruct (pi !! _) as [phys|].
    + destruct (title_after co row _ phys) as [[? ?]|]; done.
    + case_bool_decide; done.
Qed.

Lemma row_after_unmatched pi co row :
  strip (Barcode row) <> [] -> pi !! strip (Barcode row) = None ->
  Quantity (row_after pi co row)
  = if bool_decide (strip (Quantity row) ∈ [T "0"; []]) then Quantity row else T "0".
Proof.
  intros Hb Hp. unfold row_after. cbv zeta.
  rewrite bool_decide_eq_false_2, Hp by done. case_bool_decide; done.
Qed.

Lemma row_after_no_barcode pi co row :
  strip (Barcode row) = [] -> row_after pi co row = row.
Proof.
  intros Hb. unfold row_after. cbv zeta. by rewrite bool_decide_eq_true_2.
Qed.

(** After [sync_stocks], the quantity of a row with a bar code is that of
    the physical record with this bar code, the last one when several have
    it, and 0 when there is none (a quantity that was 0 or blank is left as
    it was written); a row without bar code keeps its quantity. *)
Theorem sync_stocks_quantities physical_df shopify_df carry_over_map (σ : store)
    physical rows :
  σ !! physical_df = Some (PhysFrame physical) ->
  σ !! shopify_df = Some (ShopFrame rows) ->
  let '(updated, _, σ') := sync_stocks physical_df shopify_df carry_over_map σ in
  forall i row row',
    rows !! i = Some row -> shop_rows σ' updated !! i = Some row' ->
    let barcode := strip (Barcode row) in
    (barcode = [] -> Quantity row' = Quantity row)
    /\ (forall phys, barcode <> [] -> last_record physical barcode = Some phys ->
          Quantity row' = str_of_Z (Qte phys))
    /\ (barcode <> [] -> barcode ∉ map Code_barre physical ->
          Quantity row'
          = if bool_decide (strip (Quantity row) ∈ [T "0"; []])
            then Quantity row else T "0").
Proof.
  intros Hp Hs.
  destruct (sync_stocks_spec physical_df shopify_df carry_over_map σ physical rows Hp Hs)
    as (-> & _ & _).
  rewrite shop_rows_insert. intros i row row' Hi Hi'.
  rewrite list_lookup_fmap, Hi in Hi'. simpl in Hi'. injection Hi' as <-.
  cbv zeta. split_and!.
  - intros Hb. by rewrite row_after_no_barcode.
  - intros phys Hb Hl. apply row_after_Quantity; [done|]. by rewrite phys_index_last.
  - intros Hb Hout. apply row_after_unmatched; [done|].
    rewrite phys_index_last. by apply last_record_None.
Qed.

Lemma sync_stocks_quantities_witness :
  sample_store !! 0%nat = Some (PhysFrame (fst (detect_carry_over sample_physical)))
  /\ sample_store !! 1%nat = Some (ShopFrame sample_export)
  /\ let '(updated, _, σ') := sync_stocks 0 1 sample_carry_over sample_store in
     forall i row row',
       sample_export !! i = Some row -> shop_rows σ' updated !! i = Some row' ->
       let barcode := strip (Barcode row) in
       (barcode = [] -> Quantity row' = Quantity row)
       /\ (forall phys, barcode <> [] ->
             last_record (fst (detect_carry_over sample_physical)) barcode = Some phys ->
             Quantity row' = str_of_Z (Qte phys))
       /\ (barcode <> [] ->
           barcode ∉ map Code_barre (fst (detect_carry_over sample_physical)) ->
             Quantity row'
             = if bool_decide (strip (Quantity row) ∈ [T "0"; []])
               then Quantity row else T "0").
Proof.
  split; [reflexivity|]. split; [reflexivity|].
  apply (sync_stocks_quantities 0 1 sample_carry_over sample_store
           (fst (detect_carry_over sample_physical)) sample_export); reflexivity.
Defined.

(** *** The titles that the loop writes *)

Lemma title_after_season physical co row :
  strip (Barcode row) <> [] ->
  match phys_index_of physical !! strip (Barcode row) with
  | Some phys => title_after co row (strip (Barcode row)) phys
  | None => None
  end
  = match season_of physical co row with
    | Some season => Some (strip (Title row), strip (Title row) ++ T " - " ++ season)
    | None => None
    end.
Proof.
  intros Hb. unfold season_of, title_after. cbv zeta.
  rewrite phys_index_last, (bool_decide_eq_false_2 (strip (Barcode row) = [])) by done.
  destruct (last_record physical _) as [phys|]; [|done]. cbn [mbind option_bind].
  destruct (co !! _) as [season|]; [|done]. cbn [mbind option_bind].
  by destruct (bool_decide _ && negb _)%bool.
Qed.

Lemma season_of_no_barcode physical co row :
  strip (Barcode row) = [] -> season_of physical co row = None.
Proof. intros Hb. unfold season_of. cbv zeta. by rewrite bool_decide_eq_true_2. Qed.

Lemma carry_over_of_season physical co rows :
  flat_map (carry_over_of (phys_index_of physical) co) rows
  = omap (fun row =>
            season ← season_of physical co row;
            Some {| co_Code_barre := strip (Barcode row);
                    co_Ancien_titre := strip (Title row);
                    co_Nouveau_titre := strip (Title row) ++ T " - " ++ season |})
         rows.
Proof.
  induction rows as [|row rows IH]; [done|].
  cbn [flat_map omap list_omap]. fold (@omap list _). rewrite IH.
  unfold carry_over_of. cbv zeta.
  case_bool_decide as Hb.
  - by rewrite season_of_no_barcode.
  - pose proof (title_after_season physical co row Hb) as H.
    destruct (phys_index_of physical !! _) as [phys|].
    + rewrite H. by destruct (season_of physical co row).
    + by destruct (season_of physical co row).
Qed.

(** The season of a row: the label of the carry-over map for the physical
    record of its bar code, when the row has a title that does not contain
    the label yet.  [sync_stocks] appends the label to the titles of these
    rows and to no other, and lists them in the order of the rows. *)
Theorem sync_stocks_titles physical_df shopify_df carry_over_map (σ : store)
    physical rows :
  σ !! physical_df = Some (PhysFrame physical) ->
  σ !! shopify_df = Some (ShopFrame rows) ->
  let '(updated, stats, σ') := sync_stocks physical_df shopify_df carry_over_map σ in
  (forall i row row',
     rows !! i = Some row -> shop_rows σ' updated !! i = Some row' ->
     Title row'
     = match season_of physical carry_over_map row with
       | Some season => strip (Title row) ++ T " - " ++ season
       | None => Title row
       end)
  /\ carry_over_updates stats
     = omap (fun row =>
               season ← season_of physical carry_over_map row;
               Some {| co_Code_barre := strip (Barcode row);
                       co_Ancien_titre := strip (Title row);
                       co_Nouveau_titre := strip (Title row) ++ T " - " ++ season |})
            rows.
Proof.
  intros Hp Hs.
  destruct (sync_stocks_spec physical_df shopify_df carry_over_map σ physical rows Hp Hs)
    as (-> & _ & _).
  rewrite shop_rows_insert.
  split.
  - intros i row row' Hi Hi'.
    rewrite list_lookup_fmap, Hi in Hi'. simpl in Hi'. injection Hi' as <-.
    rewrite row_after_Title.
    destruct (decide (strip (Barcode row) = [])) as [Hb|Hb].
    + rewrite season_of_no_barcode, bool_decide_eq_true_2 by done.
      by destruct (phys_index_of physical !! _).
    + pose proof (title_after_season physical carry_over_map row Hb) as H.
      rewrite bool_decide_eq_false_2 by done.
      destruct (phys_index_of physical !! _) as [phys|].
      * rewrite H. by destruct (season_of physical carry_over_map row).
      * by destruct (season_of physical carry_over_map row).
  - cbn [carry_over_updates].
    destruct (sync_loop_spec physical carry_over_map (fresh (dom σ))
                (<[fresh (dom σ) := ShopFrame rows]> σ) rows) as (_ & _ & _ & _ & ->).
    { apply lookup_insert_eq. }
    apply carry_over_of_season.
Qed.

Lemma sync_stocks_titles_witness :
  sample_store !! 0%nat = Some (PhysFrame (fst (detect_carry_over sample_physical)))
  /\ sample_store !! 1%nat = Some (ShopFrame sample_export)
  /\ let physical := fst (detect_carry_over sample_physical) in
     let '(updated, stats, σ') := sync_stocks 0 1 sample_carry_over sample_store in
     (forall i row row',
        sample_export !! i = Some row -> shop_rows σ' updated !! i = Some row' ->
        Title row'
        = match season_of physical sample_carry_over row with
          | Some season => strip (Title row) ++ T " - " ++ season
          | None => Title row
          end)
     /\ carry_over_updates stats
        = omap (fun row =>
                  season ← season_of physical sample_carry_over row;
                  Some {| co_Code_barre := strip (Barcode row);
                          co_Ancien_titre := strip (Title row);
                          co_Nouveau_titre := strip (Title row) ++ T " - " ++ season |})
               sample_export.
Proof.
  split; [reflexivity|]. split; [reflexivity|].
  apply (sync_stocks_titles 0 1 sample_carry_over sample_store
           (fst (detect_carry_over sample_physical)) sample_export); reflexivity.
Defined.

(** *** A second run *)

(** The title with its label is a trimmed text that contains the label. *)
Lemma labelled_title (cur season : str) :
  cur <> [] -> strip cur = cur -> season <> [] -> strip season = season ->
  strip (cur ++ T " - " ++ season) = cur ++ T " - " ++ season
  /\ contains (T "- " ++ season) (cur ++ T " - " ++ season) = true.
Proof.
  intros Hc Hsc Hs Hss. split.
  - destruct cur as [|c cur]; [done|].
    destruct season as [|d season _] using rev_ind; [done|].
    apply strip_by_fixed_head in Hsc. apply strip_by_last in Hss.
    replace ((c :: cur) ++ T " - " ++ season ++ [d])
      with (c :: (cur ++ T " - " ++ season) ++ [d])
      by (by rewrite <- !app_assoc).
    by apply strip_by_ends.
  - replace (cur ++ T " - " ++ season) with ((cur ++ T " ") ++ (T "- " ++ season) ++ [])
      by (by rewrite app_nil_r, <- app_assoc).
    apply contains_app.
Qed.

Section Twice.
Variable pi : gmap str PhysRow.
Variable co : comap.
Hypothesis Hco : labelled co.

Lemma title_after_done row barcode phys cur new_title :
  title_after co row barcode phys = Some (cur, new_title) ->
  title_after co (set_Title new_title (set_Quantity (str_of_Z (Qte phys)) row))
              barcode phys = None.
Proof.
  unfold title_after. cbv zeta.
  destruct (co !! _) as [season|] eqn:E; [|done].
  destruct (bool_decide _ && negb _)%bool eqn:Hg; [|done].
  intros [= <- <-]. cbn [set_Title Title].
  apply andb_true_iff in Hg as [Hne _]. apply bool_decide_eq_true_1 in Hne.
  destruct (Hco _ _ E) as [Hs Hss].
  destruct (labelled_title (strip (Title row)) season) as [H1 H2]; try done.
  { apply strip_by_strip_by. }
  change (T " - " ++ season) with (" "%char :: "-"%char :: " "%char :: season) in H1, H2.
  rewrite H1, H2. by rewrite andb_false_r.
Qed.

Lemma row_after_matched row phys :
  strip (Barcode row) <> [] -> pi !! strip (Barcode row) = Some phys ->
  row_after pi co row
  = match title_after co row (strip (Barcode row)) phys with
    | Some (_, new_title) => set_Title new_title (set_Quantity (str_of_Z (Qte phys)) row)
    | None => set_Quantity (str_of_Z (Qte phys)) row
    end.
Proof.
  intros Hb Hp. unfold row_after. cbv zeta.
  by rewrite bool_decide_eq_false_2, Hp.
Qed.

Lemma row_after_absent row :
  strip (Barcode row) <> [] -> pi !! strip (Barcode row) = None ->
  row_after pi co row
  = if bool_decide (strip (Quantity row) ∈ [T "0"; []]) then row
    else set_Quantity (T "0") row.
Proof.
  intros Hb Hp. unfold row_after. cbv zeta.
  by rewrite bool_decide_eq_false_2, Hp.
Qed.

Lemma row_after_twice row :
  row_after pi co (row_after pi co row) = row_after pi co row.
Proof.
  destruct (decide (strip (Barcode row) = [])) as [Hb|Hb].
  { by rewrite !(row_after_no_barcode _ _ row Hb). }
  destruct (pi !! strip (Barcode row)) as [phys|] eqn:Hp.
  - rewrite (row_after_matched row phys Hb Hp).
    destruct (title_after co row _ phys) as [[cur new_title]|] eqn:Ht.
    + rewrite (row_after_matched _ phys) by done.
      cbn [set_Title set_Quantity Barcode].
      by rewrite (title_after_done _ _ _ _ _ Ht).
    + rewrite (row_after_matched _ phys) by done.
      cbn [set_Quantity Barcode].
      replace (title_after co (set_Quantity (str_of_Z (Qte phys)) row) _ phys)
        with (title_after co row (strip (Barcode row)) phys) by done.
      by rewrite Ht.
  - rewrite (row_after_absent row Hb Hp). case_bool_decide as Hz.
    + by rewrite (row_after_absent row Hb Hp), bool_decide_eq_true_2.
    + rewrite (row_after_absent _) by done.
      cbn [set_Quantity Quantity].
      case_bool_decide as H0; [done|]. exfalso. apply H0.
      change (strip (T "0")) with (T "0"). apply list_elem_of_here.
Qed.

Lemma zero_of_after tbl idx row : zero_of pi tbl idx (row_after pi co row) = [].
Proof.
  unfold zero_of. cbv zeta.
  destruct (row_after_frame pi co row) as (_ & -> & _).
  case_bool_decide as Hb; [done|].
  destruct (pi !! _) as [phys|] eqn:Hp; [done|].
  rewrite (row_after_unmatched pi co row Hb Hp).
  destruct (decide (strip (Quantity row) ∈ [T "0"; []])) as [Hz|Hz].
  - rewrite (bool_decide_eq_true_2 _ Hz). cbv iota.
    by rewrite (bool_decide_eq_true_2 _ Hz).
  - rewrite (bool_decide_eq_false_2 _ Hz). cbv iota.
    case_bool_decide as H0; [done|]. exfalso. apply H0.
    change (strip (T "0")) with (T "0"). apply list_elem_of_here.
Qed.

Lemma set_to_zero_from_after todo : forall seen,
  set_to_zero_from pi co seen (map (row_after pi co) todo) = [].
Proof.
  induction todo as [|row todo IH]; intros seen; simpl; [done|].
  by rewrite zero_of_after, IH.
Qed.

Lemma carry_over_of_after row : carry_over_of pi co (row_after pi co row) = [].
Proof.
  unfold carry_over_of. cbv zeta.
  destruct (row_after_frame pi co row) as (_ & -> & _).
  case_bool_decide as Hb; [done|].
  destruct (pi !! _) as [phys|] eqn:Hp; [|done].
  unfold row_after. cbv zeta. rewrite bool_decide_eq_false_2, Hp by done.
  destruct (title_after co row _ phys) as [[cur new_title]|] eqn:Ht.
  - by rewrite (title_after_done _ _ _ _ _ Ht).
  - replace (title_after co (set_Quantity (str_of_Z (Qte phys)) row) _ phys)
      with (title_after co row (strip (Barcode row)) phys) by done.
    by rewrite Ht.
Qed.

Lemma matched_of_after row : matched_of pi (row_after pi co row) = matched_of pi row.
Proof.
  unfold matched_of. cbv zeta. by destruct (row_after_frame pi co row) as (_ & -> & _).
Qed.

Lemma carry_over_after_all rows :
  flat_map (carry_over_of pi co) (map (row_after pi co) rows) = [].
Proof.
  induction rows as [|row rows IH]; [done|].
  simpl. by rewrite carry_over_of_after, IH.
Qed.

Lemma matched_after_all rows :
  flat_map (matched_of pi) (map (row_after pi co) rows) = flat_map (matched_of pi) rows.
Proof.
  induction rows as [|row rows IH]; [done|].
  simpl. by rewrite matched_of_after, IH.
Qed.
End Twice.

(** With a carry-over map whose labels are trimmed and not empty (those of
    [detect_carry_over] are), a second call of [sync_stocks] on the frame
    that the first call returned changes nothing: the frame has the same
    rows, no quantity change, no quantity set to 0 and no renaming is
    recorded, and the matched bar codes and the new products are those of
    the first call. *)
Theorem sync_stocks_twice physical_df shopify_df carry_over_map (σ : store)
    physical rows :
  σ !! physical_df = Some (PhysFrame physical) ->
  σ !! shopify_df = Some (ShopFrame rows) ->
  labelled carry_over_map ->
  let '(updated, stats, σ1) := sync_stocks physical_df shopify_df carry_over_map σ in
  let '(updated2, stats2, σ2) := sync_stocks physical_df updated carry_over_map σ1 in
  shop_rows σ2 updated2 = shop_rows σ1 updated
  /\ qty_changes stats2 = []
  /\ set_to_zero stats2 = []
  /\ carry_over_updates stats2 = []
  /\ matched stats2 = matched stats
  /\ not_in_shopify stats2 = not_in_shopify stats.
Proof.
  intros Hp Hs Hco.
  destruct (sync_stocks_spec physical_df shopify_df carry_over_map σ physical rows Hp Hs)
    as (-> & Hup & Hus).
  set (u := fresh (dom σ)) in *.
  set (pi := phys_index_of physical).
  set (rows1 := map (row_after pi carry_over_map) rows).
  set (σ1 := <[u := ShopFrame rows1]> σ).
  assert (Hp1 : σ1 !! physical_df = Some (PhysFrame physical)).
  { unfold σ1. by rewrite lookup_insert_ne. }
  assert (Hs1 : σ1 !! u = Some (ShopFrame rows1)) by apply lookup_insert_eq.
  destruct (sync_stocks_spec physical_df u carry_over_map σ1 physical rows1 Hp1 Hs1)
    as (-> & _).
  destruct (sync_loop_spec physical carry_over_map (fresh (dom σ1))
              (<[fresh (dom σ1) := ShopFrame rows1]> σ1) rows1)
    as (_ & -> & -> & -> & ->).
  { apply lookup_insert_eq. }
  destruct (sync_loop_spec physical carry_over_map u
              (<[u := ShopFrame rows]> σ) rows) as (_ & -> & _).
  { apply lookup_insert_eq. }
  cbn [qty_changes set_to_zero carry_over_updates matched not_in_shopify].
  fold pi. unfold σ1. rewrite !shop_rows_insert. split_and!.
  - unfold rows1. rewrite <- list_fmap_compose. apply list_fmap_ext.
    intros i row _. by apply row_after_twice.
  - apply qty_changes_from_after.
  - apply set_to_zero_from_after.
  - by apply carry_over_after_all.
  - f_equal. apply matched_after_all.
  - assert (Hbc : map (fun r => strip (Barcode r)) rows1
                  = map (fun r => strip (Barcode r)) rows).
    { unfold rows1. rewrite <- list_fmap_compose. apply list_fmap_ext.
      intros i row _. simpl.
      by destruct (row_after_frame pi carry_over_map row) as (_ & -> & _). }
    by rewrite Hbc.
Qed.

Lemma sync_stocks_twice_witness :
  sample_store !! 0%nat = Some (PhysFrame (fst (detect_carry_over sample_physical)))
  /\ sample_store !! 1%nat = Some (ShopFrame sample_export)
  /\ labelled sample_carry_over
  /\ let '(updated, stats, σ1) := sync_stocks 0 1 sample_carry_over sample_store in
     let '(updated2, stats2, σ2) := sync_stocks 0 updated sample_carry_over σ1 in
     shop_rows σ2 updated2 = shop_rows σ1 updated
     /\ qty_changes stats2 = []
     /\ set_to_zero stats2 = []
     /\ carry_over_updates stats2 = []
     /\ matched stats2 = matched stats
     /\ not_in_shopify stats2 = not_in_shopify stats.
Proof.
  assert (H : labelled sample_carry_over).
  { apply (bool_decide_unpack (labelled sample_carry_over)). vm_compute. exact I. }
  split; [reflexivity|]. split; [reflexivity|]. split; [exact H|].
  apply (sync_stocks_twice 0 1 sample_carry_over sample_store
           (fst (detect_carry_over sample_physical)) sample_export);
    [reflexivity | reflexivity | exact H].
Defined.

(** *** The counters of the report *)

Section Counts.
Variable pi : gmap str PhysRow.
Variable co : comap.

Lemma row_counts tbl idx row :
  (length (qty_change_of pi tbl idx row) <= length (matched_of pi row)
   /\ length (carry_over_of pi co row) <= length (matched_of pi row)
   /\ length (matched_of pi row) + length (zero_of pi tbl idx row) <= 1)%nat.
Proof.
  unfold qty_change_of, carry_over_of, matched_of, zero_of. cbv zeta.
  case_bool_decide; [simpl; lia|].
  destruct (pi !! _) as [phys|].
  - destruct (title_after co row _ phys) as [[? ?]|]; case_bool_decide; simpl; lia.
  - case_bool_decide; simpl; lia.
Qed.

Lemma loop_counts todo : forall seen,
  (length (qty_changes_from pi co seen todo) <= length (flat_map (matched_of pi) todo)
   /\ length (flat_map (carry_over_of pi co) todo) <= length (flat_map (matched_of pi) todo)
   /\ length (flat_map (matched_of pi) todo)
      + length (set_to_zero_from pi co seen todo) <= length todo)%nat.
Proof.
  induction todo as [|row todo IH]; intros seen; [simpl; lia|].
  cbn [qty_changes_from set_to_zero_from flat_map length].
  rewrite !length_app.
  destruct (IH (seen ++ [row])) as (I1 & I2 & I3).
  destruct (row_counts (table_at pi co seen (row :: todo)) (length seen) row)
    as (R1 & R2 & R3).
  lia.
Qed.
End Counts.

Lemma not_in_shop_count shopify_bc physical : forall acc,
  (length (fold_left (not_in_shop_step shopify_bc) physical acc)
   <= length acc + length physical)%nat.
Proof.
  induction physical as [|r physical IH]; intros acc; simpl; [lia|].
  etransitivity; [apply IH|]. unfold not_in_shop_step. cbv zeta.
  destruct (_ && _)%bool; rewrite ?length_app; simpl; lia.
Qed.

(** The counters that [sync_stocks] returns are consistent: the totals are
    the numbers of rows of the two frames; a row is counted at most once,
    as matched or as set to 0; the quantity changes and the renamings are
    at most as many as the matched rows, and the new products at most as
    many as the physical records. *)
Theorem sync_stocks_counts physical_df shopify_df carry_over_map (σ : store)
    physical rows :
  σ !! physical_df = Some (PhysFrame physical) ->
  σ !! shopify_df = Some (ShopFrame rows) ->
  let '(_, stats, _) := sync_stocks physical_df shopify_df carry_over_map σ in
  total_physical stats = length physical
  /\ total_shopify stats = length rows
  /\ (matched stats + length (set_to_zero stats) <= total_shopify stats)%nat
  /\ (length (qty_changes stats) <= matched stats)%nat
  /\ (length (carry_over_updates stats) <= matched stats)%nat
  /\ (length (not_in_shopify stats) <= total_physical stats)%nat.
Proof.
  intros Hp Hs.
  destruct (sync_stocks_spec physical_df shopify_df carry_over_map σ physical rows Hp Hs)
    as (-> & _ & _).
  destruct (sync_loop_spec physical carry_over_map (fresh (dom σ))
              (<[fresh (dom σ) := ShopFrame rows]> σ) rows) as (_ & -> & -> & -> & ->).
  { apply lookup_insert_eq. }
  cbn [total_physical total_shopify matched qty_changes set_to_zero
       carry_over_updates not_in_shopify].
  destruct (loop_counts (phys_index_of physical) carry_over_map rows []) as (L1 & L2 & L3).
  pose proof (not_in_shop_count
                (list_to_set (map (fun r => strip (Barcode r)) rows)) physical []) as L4.
  simpl in L4. split_and!; done.
Qed.

Lemma sync_stocks_counts_witness :
  sample_store !! 0%nat = Some (PhysFrame (fst (detect_carry_over sample_physical)))
  /\ sample_store !! 1%nat = Some (ShopFrame sample_export)
  /\ let '(_, stats, _) := sync_stocks 0 1 sample_carry_over sample_store in
     total_physical stats = length (fst (detect_carry_over sample_physical))
     /\ total_shopify stats = length sample_export
     /\ (matched stats + length (set_to_zero stats) <= total_shopify stats)%nat
     /\ (length (qty_changes stats) <= matched stats)%nat
     /\ (length (carry_over_updates stats) <= matched stats)%nat
     /\ (length (not_in_shopify stats) <= total_physical stats)%nat.
Proof.
  split; [reflexivity|]. split; [reflexivity|].
  apply (sync_stocks_counts 0 1 sample_carry_over sample_store
           (fst (detect_carry_over sample_physical)) sample_export); reflexivity.
Defined.

(** *** The quantities that [sync_stocks] writes, read by the filter *)

(** The number of binary digits of a mantissa. *)
Lemma digits2_pos_bounds (p : positive) :
  2 ^ (Z.pos (digits2_pos p) - 1) <= Z.pos p < 2 ^ Z.pos (digits2_pos p).
Proof.
  induction p as [p IH|p IH|]; cbn [digits2_pos]; [| |simpl; lia].
  - rewrite Pos2Z.inj_succ.
    replace (Z.succ (Z.pos (digits2_pos p)) - 1) with (Z.pos (digits2_pos p) - 1 + 1) by lia.
    rewrite Z.pow_add_r by lia. rewrite Z.pow_succ_r by lia. lia.
  - rewrite Pos2Z.inj_succ.
    replace (Z.succ (Z.pos (digits2_pos p)) - 1) with (Z.pos (digits2_pos p) - 1 + 1) by lia.
    rewrite Z.pow_add_r by lia. rewrite Z.pow_succ_r by lia. lia.
Qed.

Lemma iter_xO_spec (p d : positive) :
  Z.pos (Pos.iter xO p d) = Z.pos p * 2 ^ Z.pos d
  /\ digits2_pos (Pos.iter xO p d) = (digits2_pos p + d)%positive.
Proof.
  induction d as [|d IH] using Pos.peano_ind.
  - simpl. split; lia.
  - rewrite Pos.iter_succ. destruct IH as [IH1 IH2]. cbn [digits2_pos].
    rewrite IH2, Pos2Z.inj_xO, IH1, Pos2Z.inj_succ, Z.pow_succ_r by lia. split; lia.
Qed.

(** A mantissa that is in canonical form is not rounded. *)
Lemma binary_round_aux_canonical sx (m : positive) (e : Z) :
  fexp 53 1024 (Z.pos (digits2_pos m) + e) = e -> e <= 971 ->
  binary_round_aux 53 1024 sx (Z.pos m) e loc_Exact = S754_finite sx m e.
Proof.
  intros Hc He. unfold binary_round_aux, shr_fexp.
  cbn [Zdigits2 shr_record_of_loc]. rewrite Hc, Z.sub_diag.
  cbn [shr shr_m loc_of_shr_record round_nearest_even Zdigits2 shr_record_of_loc].
  rewrite Hc, Z.sub_diag. cbn [shr shr_m].
  change (1024 - 53) with 971. by rewrite (proj2 (Z.leb_le _ _) He).
Qed.

(** An integer below [2^53] is a binary64: its conversion is exact. *)
Lemma binary_round_exact sx (p : positive) :
  Z.pos p < 2 ^ 53 ->
  exists m e, binary_round 53 1024 sx p 0 = S754_finite sx m e
              /\ e <= 0 /\ Z.pos m = Z.pos p * 2 ^ (- e).
Proof.
  intros Hp. pose proof (digits2_pos_bounds p) as [Hlo Hhi].
  assert (Hd : Z.pos (digits2_pos p) <= 53).
  { destruct (Z.le_gt_cases (Z.pos (digits2_pos p)) 53) as [?|Hgt]; [done|].
    assert (2 ^ 53 <= 2 ^ (Z.pos (digits2_pos p) - 1)) by (apply Z.pow_le_mono_r; lia).
    lia. }
  unfold binary_round.
  assert (Hf : forall d, 0 < d <= 53 -> fexp 53 1024 d = d - 53).
  { intros d Hd'. unfold fexp, emin. lia. }
  rewrite Z.add_0_r, Hf by lia. unfold shl_align. rewrite Z.sub_0_r.
  destruct (Z.pos (digits2_pos p) - 53) as [|k|k] eqn:Ek; [|lia|].
  - exists p, 0. split; [|simpl; lia].
    apply binary_round_aux_canonical; [|lia]. rewrite Z.add_0_r, Hf; lia.
  - destruct (iter_xO_spec p k) as [Hv Hdig].
    exists (Pos.iter xO p k), (Z.neg k). split; [|split; [lia|]].
    + apply binary_round_aux_canonical; [|lia].
      rewrite Hdig, Pos2Z.inj_add.
      replace (Z.pos (digits2_pos p) + Z.pos k + Z.neg k) with (Z.pos (digits2_pos p)) by lia.
      rewrite Hf; lia.
    + by rewrite Hv.
Qed.

Lemma py_int_binary_round sx (p : positive) :
  Z.pos p < 2 ^ 53 ->
  py_int (binary_round 53 1024 sx p 0) = Ok (if sx then - Z.pos p else Z.pos p).
Proof.
  intros Hp. destruct (binary_round_exact sx p Hp) as (m & e & -> & He & Hm).
  unfold py_int. destruct (0 <=? e) eqn:E.
  - apply Z.leb_le in E. assert (e = 0) as -> by lia.
    change (- 0) with 0 in Hm. rewrite Z.pow_0_r in *. rewrite Hm.
    destruct sx; f_equal; lia.
  - rewrite Hm, Z.div_mul by (apply Z.pow_nonzero; lia). done.
Qed.

(** The decimal digits. *)
Lemma digit_char_spec d :
  0 <= d < 10 -> is_digit (digit_char d) = true /\ digit_val (digit_char d) = d.
Proof.
  intros H.
  assert (d = 0 \/ d = 1 \/ d = 2 \/ d = 3 \/ d = 4 \/ d = 5 \/ d = 6 \/ d = 7
          \/ d = 8 \/ d = 9) as Hd by lia.
  repeat (destruct Hd as [-> | Hd]; [by vm_compute|]). subst. by vm_compute.
Qed.

Lemma digit_plain c :
  is_digit c = true ->
  is_space c = false /\ lower_char c = c
  /\ N.eqb (code c) 43 = false /\ N.eqb (code c) 45 = false
  /\ N.eqb (code c) 95 = false
  /\ c <> ","%char /\ c <> "i"%char /\ c <> "n"%char.
Proof. revert c. intros [[] [] [] [] [] [] [] []]; vm_compute; done. Qed.

Lemma Z_of_digits_snoc ds c :
  Z_of_digits (ds ++ [c]) = 10 * Z_of_digits ds + digit_val c.
Proof. unfold Z_of_digits. by rewrite fold_left_app. Qed.

Lemma digits_of_spec fuel : forall n acc,
  (0 < fuel)%nat -> 0 <= n < 2 ^ Z.of_nat fuel ->
  exists ds, digits_of fuel n acc = ds ++ acc /\ ds <> []
             /\ Forall (fun c => is_digit c = true) ds /\ Z_of_digits ds = n.
Proof.
  induction fuel as [|f IH]; intros n acc Hf Hn; [lia|].
  cbn [digits_of]. destruct (n <? 10) eqn:E.
  - apply Z.ltb_lt in E. destruct (digit_char_spec n) as [Hd Hv]; [lia|].
    exists [digit_char n]. split_and!; [done | done | by constructor |].
    unfold Z_of_digits. simpl. by rewrite Hv.
  - apply Z.ltb_ge in E. rewrite Nat2Z.inj_succ, Z.pow_succ_r in Hn by lia.
    assert (Hf' : (0 < f)%nat).
    { destruct f; [simpl in Hn; lia | lia]. }
    assert (Hq : 0 <= n / 10 < 2 ^ Z.of_nat f).
    { split; [apply Z.div_pos; lia|]. apply Z.div_lt_upper_bound; lia. }
    destruct (IH (n / 10) (digit_char (n mod 10) :: acc) Hf' Hq)
      as (ds & -> & Hne & Hds & Hv).
    destruct (digit_char_spec (n mod 10)) as [Hd Hv']; [apply Z.mod_pos_bound; lia|].
    exists (ds ++ [digit_char (n mod 10)]). split_and!.
    + by rewrite <- app_assoc.
    + by destruct ds.
    + apply Forall_app. split; [done | by constructor].
    + rewrite Z_of_digits_snoc, Hv, Hv'. symmetry. apply Z.div_mod. lia.
Qed.

(** [str(n)] is the sign and the decimal digits of [n]. *)
Lemma str_of_Z_digits n :
  exists ds, str_of_Z n = (if n <? 0 then [HYPHEN] else []) ++ ds /\ ds <> []
             /\ Forall (fun c => is_digit c = true) ds /\ Z_of_digits ds = Z.abs n.
Proof.
  assert (Hfuel : forall m, 0 <= m ->
            (0 < Z.to_nat (Z.log2 m) + 1)%nat
            /\ 0 <= m < 2 ^ Z.of_nat (Z.to_nat (Z.log2 m) + 1)).
  { intros m Hm. split; [lia|]. split; [done|].
    rewrite Nat2Z.inj_add, Z2Nat.id by apply Z.log2_nonneg.
    destruct (Z.eq_dec m 0) as [->|Hm0]; [by vm_compute|].
    change (Z.of_nat 1) with 1. rewrite Z.add_1_r. apply Z.log2_spec. lia. }
  unfold str_of_Z. destruct (n <? 0) eqn:E.
  - apply Z.ltb_lt in E. destruct (Hfuel (- n)) as [H1 H2]; [lia|].
    destruct (digits_of_spec _ (- n) [] H1 H2) as (ds & -> & Hne & Hds & Hv).
    exists ds. rewrite app_nil_r. split_and!; [done | done | done | lia].
  - apply Z.ltb_ge in E. destruct (Hfuel n) as [H1 H2]; [lia|].
    destruct (digits_of_spec _ n [] H1 H2) as (ds & -> & Hne & Hds & Hv).
    exists ds. rewrite app_nil_r. split_and!; [done | done | done | lia].
Qed.

Lemma take_digitpart_digits ds :
  Forall (fun c => is_digit c = true) ds -> take_digitpart ds = (ds, []).
Proof.
  induction 1 as [|c s Hc Hs IH]; [done|].
  cbn [take_digitpart]. rewrite Hc.
  destruct s as [|u [|d s'']].
  - done.
  - by rewrite IH.
  - apply Forall_inv in Hs as Hu. destruct (digit_plain u Hu) as (_ & _ & _ & _ & -> & _).
    cbn [andb]. by rewrite IH.
Qed.

(** [s.replace(a, b)] for two characters replaces the character everywhere. *)
Lemma replace_char a b s :
  replace [a] [b] s = map (fun c => if bool_decide (a = c) then b else c) s.
Proof.
  unfold replace. induction s as [|c s IH]; [done|].
  cbn [replace_go startswith length Nat.pred map].
  case_bool_decide; cbn [app]; by rewrite IH.
Qed.

Lemma replace_comma_absent s :
  Forall (fun c => c <> ","%char) s -> replace (T ",") (T ".") s = s.
Proof.
  intros H. change (T ",") with [","%char]. change (T ".") with ["."%char].
  rewrite replace_char. induction H as [|c s Hc _ IH]; [done|].
  simpl. rewrite IH. by rewrite bool_decide_eq_false_2 by congruence.
Qed.

(** The white space of [float] is white space of [str.strip()]. *)
Lemma float_space_space c : is_space c = false -> is_float_space c = false.
Proof. revert c. intros [[] [] [] [] [] [] [] []]; vm_compute; done. Qed.

(** [float] of a signed run of digits. *)
Lemma py_float_digits (neg : bool) ds :
  ds <> [] -> Forall (fun c => is_digit c = true) ds ->
  py_float ((if neg then [HYPHEN] else []) ++ ds)
  = Ok (float_of_decimal neg (Z_of_digits ds) 0).
Proof.
  intros Hne Hds. destruct ds as [|d ds']; [done|]. set (ds := d :: ds') in *.
  apply Forall_inv in Hds as Hd.
  destruct (digit_plain d Hd) as (_ & _ & H43 & H45 & _ & _ & Hi & Hn).
  assert (Hsp : Forall (fun c => is_space c = false) ds).
  { eapply Forall_impl; [exact Hds|]. intros c Hc. by apply digit_plain. }
  assert (Hlow : lower ds = ds).
  { unfold lower. clear -Hds. induction Hds as [|c s Hc _ IH]; [done|].
    simpl. rewrite IH. f_equal. by apply digit_plain. }
  assert (Hbody : forall w, (w = T "inf" \/ w = T "infinity" \/ w = T "nan") ->
            str_eqb ds w = false).
  { intros w Hw. unfold str_eqb. apply bool_decide_eq_false_2. unfold ds.
    intros E. subst w. destruct Hw as [Hw|[Hw|Hw]]; injection Hw as Hw _; congruence. }
  assert (Hparse : parse_floatnumber neg ds
                   = Some (float_of_decimal neg (Z_of_digits ds) 0)).
  { unfold parse_floatnumber. rewrite (take_digitpart_digits ds Hds).
    unfold ds at 1. cbn [parse_exponent]. by rewrite app_nil_r. }
  unfold py_float.
  assert (Hstrip : strip_by is_float_space ((if neg then [HYPHEN] else []) ++ ds)
                   = (if neg then [HYPHEN] else []) ++ ds).
  { apply strip_by_clean. apply Forall_app. split.
    - destruct neg; by repeat constructor.
    - eapply Forall_impl; [exact Hsp|]. intros c Hc. by apply float_space_space. }
  rewrite Hstrip. destruct neg.
  - change ([HYPHEN] ++ ds) with ("-"%char :: ds). cbv beta iota.
    change (N.eqb (code "-"%char) 43) with false.
    change (N.eqb (code "-"%char) 45) with true. cbv beta iota.
    rewrite Hlow, !Hbody by auto. cbn [orb]. by rewrite Hparse.
  - change ([] ++ ds) with (d :: ds'). cbv beta iota. rewrite H43, H45.
    fold ds. rewrite Hlow, !Hbody by auto. cbn [orb]. by rewrite Hparse.
Qed.

Lemma py_int_float_of_decimal (neg : bool) m :
  0 <= m < 2 ^ 53 ->
  py_int (float_of_decimal neg m 0) = Ok (if neg then - m else m).
Proof.
  intros Hm. destruct m as [|p|p]; [by destruct neg | | lia].
  unfold float_of_decimal. change (0 <=? 0) with true. cbv iota.
  change (10 ^ 0) with 1. rewrite Z.mul_1_r. unfold binary64.
  destruct neg.
  - exact (py_int_binary_round true p (proj2 Hm)).
  - exact (py_int_binary_round false p (proj2 Hm)).
Qed.

(** The filter reads a quantity that [sync_stocks] wrote as it was
    written: [int(float(str(n)))] is [n], for the integers that binary64
    holds exactly. *)
Lemma int_of_decimal_text_str_of_Z n :
  - 2 ^ 53 < n < 2 ^ 53 -> int_of_decimal_text (str_of_Z n) = Ok n.
Proof.
  intros Hn. destruct (str_of_Z_digits n) as (ds & Hs & Hne & Hds & Hv).
  unfold int_of_decimal_text. rewrite replace_comma_absent.
  - rewrite Hs, py_float_digits by done. cbn [mbind result_bind].
    rewrite py_int_float_of_decimal by lia. f_equal.
    destruct (n <? 0) eqn:E; [apply Z.ltb_lt in E | apply Z.ltb_ge in E]; lia.
  - rewrite Hs. apply Forall_app. split.
    + destruct (n <? 0); by repeat constructor.
    + eapply Forall_impl; [exact Hds|]. intros c Hc. by apply digit_plain.
Qed.

Lemma to_int_str_of_Z n : - 2 ^ 53 < n < 2 ^ 53 -> to_int (str_of_Z n) = Ok n.
Proof. intros Hn. unfold to_int. by rewrite int_of_decimal_text_str_of_Z. Qed.

(** *** A quantity that is blank or 0 *)

Lemma space_plain c :
  is_space c = true ->
  is_digit c = false /\ c <> ","%char
  /\ N.eqb (code c) 43 = false /\ N.eqb (code c) 45 = false
  /\ N.eqb (code c) 46 = false /\ N.eqb (code c) 95 = false
  /\ N.eqb (code c) 101 = false /\ N.eqb (code c) 69 = false
  /\ lower_char c <> "i"%char /\ lower_char c <> "n"%char.
Proof. revert c. intros [[] [] [] [] [] [] [] []]; vm_compute; done. Qed.

Lemma blank_zero_tail c s : blank_zero (c :: s) -> blank_zero s.
Proof.
  intros [H|(a & b & Hs & Ha & Hb)].
  - left. by apply Forall_inv_tail in H.
  - destruct a as [|c' a]; simplify_eq/=.
    + by left.
    + right. exists a, b. split; [done|]. split; [by apply Forall_inv_tail in Ha | done].
Qed.

Lemma blank_zero_suffix ws s : blank_zero (ws ++ s) -> blank_zero s.
Proof. induction ws as [|c ws IH]; [done|]. intros H. by apply IH, (blank_zero_tail c). Qed.

Lemma blank_zero_rev s : blank_zero s -> blank_zero (rev s).
Proof.
  intros [H|(a & b & -> & Ha & Hb)].
  - left. by apply Forall_rev.
  - right. exists (rev b), (rev a). split_and!; [|by apply Forall_rev..].
    rewrite rev_app_distr. simpl. by rewrite <- app_assoc.
Qed.

Lemma blank_zero_strip_by p s : blank_zero s -> blank_zero (strip_by p s).
Proof.
  intros H. unfold strip_by, rstrip_by.
  destruct (lstrip_by_split p s) as (ws & Hs & _).
  rewrite Hs in H. apply blank_zero_suffix in H.
  apply blank_zero_rev in H.
  destruct (lstrip_by_split p (rev (lstrip_by p s))) as (ws' & Hs' & _).
  rewrite Hs' in H. apply blank_zero_suffix in H. by apply blank_zero_rev.
Qed.

Lemma blank_zero_strip q : strip q ∈ [T "0"; []] -> blank_zero q.
Proof.
  intros Hq. unfold strip, strip_by in Hq.
  destruct (lstrip_by_split is_space q) as (a & Hs & Ha).
  destruct (rstrip_by_split is_space (lstrip_by is_space q)) as (b & Hs' & Hb).
  rewrite Hs' in Hs. rewrite Hs.
  apply elem_of_cons in Hq as [->| Hq].
  - right. by exists a, b.
  - apply elem_of_cons in Hq as [->| Hq]; [|by apply elem_of_nil in Hq].
    left. apply Forall_app. by split.
Qed.

Lemma py_float_stripped s : py_float (strip_by is_float_space s) = py_float s.
Proof. unfold py_float. by rewrite strip_by_strip_by. Qed.

(** [float] refuses a text that starts with white space that it does
    not ignore. *)
Lemma py_float_space_head c t :
  strip_by is_float_space (c :: t) = c :: t -> is_space c = true ->
  py_float (c :: t) = Raise ValueError.
Proof.
  intros Hfix Hc.
  destruct (space_plain c Hc) as (Hd & _ & H43 & H45 & H46 & _ & _ & _ & Hi & Hn).
  unfold py_float. rewrite Hfix. cbv zeta. rewrite H43, H45. cbn [lower map].
  unfold str_eqb.
  rewrite !(bool_decide_eq_false_2 (lower_char c :: _ = _))
    by (intros E; injection E as E _; congruence).
  cbn [orb]. unfold parse_floatnumber. cbn [take_digitpart]. rewrite Hd, H46.
  done.
Qed.

(** [float] refuses a 0 that such white space follows. *)
Lemma py_float_zero_space u b :
  strip_by is_float_space ("0"%char :: u :: b) = "0"%char :: u :: b ->
  is_space u = true ->
  py_float ("0"%char :: u :: b) = Raise ValueError.
Proof.
  intros Hfix Hu.
  destruct (space_plain u Hu) as (Hd & _ & _ & _ & H46 & H95 & H101 & H69 & _).
  unfold py_float. rewrite Hfix. cbv zeta.
  change (N.eqb (code "0"%char) 43) with false.
  change (N.eqb (code "0"%char) 45) with false. cbv iota.
  cbn [lower map]. unfold str_eqb.
  rewrite !(bool_decide_eq_false_2 (lower_char "0"%char :: _ = _))
    by (intros E; injection E as E _; discriminate E).
  cbn [orb]. unfold parse_floatnumber.
  assert (Ht : take_digitpart ("0"%char :: u :: b) = ([ "0"%char ], u :: b)).
  { cbn [take_digitpart]. change (is_digit "0"%char) with true. cbv iota.
    rewrite H95, Hd. cbn [andb]. by destruct b. }
  rewrite Ht, H46. cbn [parse_exponent]. by rewrite H101, H69.
Qed.

(** [float] reads a text of white space and at most one 0 as zero, or
    refuses it. *)
Lemma py_float_blank_zero s :
  blank_zero s ->
  py_float s = Raise ValueError \/ exists neg, py_float s = Ok (S754_zero neg).
Proof.
  intros H. apply (blank_zero_strip_by is_float_space) in H.
  rewrite <- py_float_stripped.
  pose proof (strip_by_strip_by is_float_space s) as Hfix.
  destruct (strip_by is_float_space s) as [|c t]; [left; by vm_compute|].
  destruct H as [H|(a & b & Hs & Ha & Hb)].
  - left. apply py_float_space_head; [done|]. by apply Forall_inv in H.
  - destruct a as [|c' a]; simplify_eq/=.
    + destruct b as [|u b]; [right; exists false; by vm_compute|]. left.
      apply py_float_zero_space; [done|]. by apply Forall_inv in Hb.
    + left. apply py_float_space_head; [done|]. by apply Forall_inv in Ha.
Qed.

(** A quantity that is blank or 0 is read as 0. *)
Lemma to_int_blank q : strip q ∈ [T "0"; []] -> to_int q = Ok 0.
Proof.
  intros Hq. apply blank_zero_strip in Hq.
  unfold to_int, int_of_decimal_text. rewrite replace_comma_absent.
  - destruct (py_float_blank_zero q Hq) as [->|[neg ->]]; done.
  - destruct Hq as [H|(a & b & -> & Ha & Hb)].
    + eapply Forall_impl; [exact H|]. intros c Hc. by apply space_plain.
    + apply Forall_app. split; [|constructor; [done|]];
        (eapply Forall_impl; [eassumption|]); intros c Hc; by apply space_plain.
Qed.

Lemma last_record_elem physical b phys :
  last_record physical b = Some phys -> phys ∈ physical.
Proof.
  unfold last_record. intros H. apply last_Some in H as [l' H].
  assert (Hin : phys ∈ filter (fun r => Code_barre r = b) physical).
  { rewrite H. apply elem_of_app. right. apply list_elem_of_here. }
  by apply list_elem_of_filter in Hin as [_ ?].
Qed.

Section AfterSync.
Variable physical : list PhysRow.
Variable co : comap.
Hypothesis Hexact : Forall exact_quantity physical.

Let pi := phys_index_of physical.

(** What the filter reads in a row with a bar code after the loop. *)
Lemma to_int_row_after row :
strip (Barcode row) <> [] ->
to_int (Quantity (row_after pi co row))
= Ok (match last_record physical (strip (Barcode row)) with
      | Some phys => Qte phys
      | None => 0
      end).
Proof.
intros Hb. destruct (last_record physical (strip (Barcode row))) as [phys|] eqn:El.
- rewrite (row_after_Quantity pi co row phys Hb) by (unfold pi; by rewrite phys_index_last).
  apply to_int_str_of_Z.
  apply last_record_elem in El. by apply (proj1 (Forall_forall _ _) Hexact) in El.
- rewrite row_after_unmatched by (done || unfold pi; by rewrite phys_index_last).
  case_bool_decide as Hq; [by apply to_int_blank | by vm_compute].
Qed.

Lemma has_stock_row_after row :
has_stock (row_after pi co row) = true <-> in_stock physical row.
Proof.
unfold in_stock. cbv zeta. case_bool_decide as Hb.
- by rewrite row_after_no_barcode.
- unfold has_stock. rewrite to_int_row_after by done.
  destruct (last_record physical (strip (Barcode row))) as [phys|].
  + apply Z.ltb_lt.
  + by split.
Qed.

Lemma reads_infinite_row_after row :
reads_infinite (row_after pi co row)
<-> strip (Barcode row) = [] /\ reads_infinite row.
Proof.
destruct (decide (strip (Barcode row) = [])) as [Hb|Hb].
- rewrite row_after_no_barcode by done. by split; [|intros [_ ?]].
- split; [|by intros [? _]]. intros [_ Hinf]. exfalso.
  pose proof (to_int_row_after row Hb) as Hto.
  assert (Hr : to_int (Quantity (row_after pi co row)) = Raise OverflowError)
    by by apply to_int_raises.
  congruence.
Qed.
End AfterSync.

Lemma zip_fmap_self {A B} (f : A -> B) (l : list A) :
  zip l (map f l) = map (fun x => (x, f x)) l.
Proof. induction l as [|x l IH]; [done|]. simpl. by rewrite IH. Qed.

Lemma filter_aborts (df : list ShopRow) :
  (exists e, filter_zero_stock_products df = Raise e) <-> Exists reads_infinite df.
Proof.
  unfold filter_zero_stock_products.
  destruct df as [|row0 df0] eqn:Edf.
  { split; [by intros [? ?] | by intros ?%Exists_nil]. }
  rewrite <- Edf. clear Edf. unfold mbind, result_bind.
  destruct (has_stock_pass_raises df ∅) as [_ H2]. rewrite <- H2.
  destruct (has_stock_pass df ∅) as [d|e']; split; intros [e He]; by eauto.
Qed.

(** After [sync_stocks], the filter aborts on a row without bar code only,
    and it keeps the products of which a row is in stock: the rows of the
    returned frame that have no title, and those that have the title of a
    row whose bar code is that of a physical record with a quantity above
    0, or that has no bar code and a quantity above 0. *)
Theorem sync_stocks_then_filter physical_df shopify_df carry_over_map (σ : store)
    physical rows :
  σ !! physical_df = Some (PhysFrame physical) ->
  σ !! shopify_df = Some (ShopFrame rows) ->
  Forall exact_quantity physical ->
  let '(updated, _, σ') := sync_stocks physical_df shopify_df carry_over_map σ in
  let df := shop_rows σ' updated in
  ((exists e, filter_zero_stock_products df = Raise e)
   <-> Exists (fun row => strip (Barcode row) = [] /\ reads_infinite row) rows)
  /\ (forall df', filter_zero_stock_products df = Ok df' ->
        df' = filter (kept_after physical rows df) df).
Proof.
  intros Hp Hs Hexact.
  destruct (sync_stocks_spec physical_df shopify_df carry_over_map σ physical rows Hp Hs)
    as (-> & _ & _).
  rewrite shop_rows_insert. cbv zeta.
  set (f := row_after (phys_index_of physical) carry_over_map). split.
  - rewrite filter_aborts, Exists_fmap.
    split; intros H; (eapply Exists_impl; [exact H|]); intros row; simpl;
      by apply reads_infinite_row_after.
  - intros df' Hok. apply filter_reads in Hok as [_ ->].
    apply filter_iff_elem. intros r Hr. unfold kept, kept_after.
    rewrite zip_fmap_self, Exists_fmap, group_has_stock_true.
    apply or_iff_compat_l. rewrite Exists_exists. split.
    + intros (r0 & Hr0 & Ht & Hstock).
      apply list_elem_of_fmap in Hr0 as (row & -> & Hrow).
      exists row. split; [done|]. split; [done|].
      by apply (has_stock_row_after physical carry_over_map Hexact).
    + intros (row & Hrow & Ht & Hin). exists (f row). split_and!.
      * apply list_elem_of_fmap. by exists row.
      * done.
      * by apply (has_stock_row_after physical carry_over_map Hexact).
Qed.

Lemma sync_stocks_then_filter_witness :
  sample_store !! 0%nat = Some (PhysFrame (fst (detect_carry_over sample_physical)))
  /\ sample_store !! 1%nat = Some (ShopFrame sample_export)
  /\ Forall exact_quantity (fst (detect_carry_over sample_physical))
  /\ let '(updated, _, σ') := sync_stocks 0 1 sample_carry_over sample_store in
     let df := shop_rows σ' updated in
     ((exists e, filter_zero_stock_products df = Raise e)
      <-> Exists (fun row => strip (Barcode row) = [] /\ reads_infinite row)
                 sample_export)
     /\ (forall df', filter_zero_stock_products df = Ok df' ->
           df' = filter (kept_after (fst (detect_carry_over sample_physical))
                                    sample_export df) df).
Proof.
  assert (H : Forall exact_quantity (fst (detect_carry_over sample_physical))).
  { repeat constructor. }
  split; [reflexivity|]. split; [reflexivity|]. split; [exact H|].
  apply (sync_stocks_then_filter 0 1 sample_carry_over sample_store
           (fst (detect_carry_over sample_physical)) sample_export);
    [reflexivity | reflexivity | exact H].
Defined.

(** *** The labels of the carry-over map *)

Section Labels.
Variable P : str -> Prop.
Hypothesis HP : forall i : nat, P ("S"%char :: str_of_nat (i + 1)).

Lemma label_pids_Forall n pids : forall i (m : comap),
map_Forall (fun _ season => P season) m ->
map_Forall (fun _ season => P season) (label_pids n i pids m).
Proof.
induction pids as [|pid pids IH]; intros i m Hm; [done|].
cbn [label_pids]. apply IH. by apply map_Forall_insert_2.
Qed.

Lemma carry_over_Forall (df : list PhysRow) :
map_Forall (fun _ season => P season) (snd (detect_carry_over df)).
Proof.
unfold detect_carry_over. cbn [snd].
generalize (name_pids (map enrich df)).
assert (H : map_Forall (fun _ season => P season) (∅ : comap))
  by apply map_Forall_empty.
revert H. generalize (∅ : comap).
intros m Hm gs. revert m Hm.
induction gs as [|g gs IH]; intros m Hm; [done|].
cbn [fold_left]. apply IH. unfold carry_over_step.
destruct (1 <? length g.2)%nat; [by apply label_pids_Forall | done].
Qed.
End Labels.

(** Every label of the map of [detect_carry_over] is the letter S and the
    decimal numeral of a rank from 1 on; the labels are trimmed and not
    empty, as the stability of [sync_stocks] asks of a carry-over map. *)
Theorem detect_carry_over_labelled (df : list PhysRow) :
  let carry_over_map := snd (detect_carry_over df) in
  map_Forall (fun _ season =>
                exists k : nat,
                  (1 <= k)%nat /\ season = "S"%char :: str_of_nat k
                  /\ str_of_nat k <> []
                  /\ Forall (fun c => is_digit c = true) (str_of_nat k)
                  /\ Z_of_digits (str_of_nat k) = Z.of_nat k)
             carry_over_map
  /\ labelled carry_over_map.
Proof.
  cbv zeta. split.
  - apply carry_over_Forall. intros i.
    destruct (str_of_Z_digits (Z.of_nat (i + 1))) as (ds & Hs & Hne & Hds & Hv).
    replace (Z.of_nat (i + 1) <? 0) with false in Hs by (symmetry; apply Z.ltb_ge; lia).
    change ([] ++ ds) with ds in Hs.
    exists (i + 1)%nat. unfold str_of_nat. rewrite Hs.
    split_and!; [lia | done | done | done | lia].
  - apply (carry_over_Forall (fun season => season <> [] /\ strip season = season)).
    intros i. split; [done|]. apply strip_by_clean. constructor; [reflexivity|].
    apply str_of_Z_not_space.
Qed.
